(** * Checklist-app: the natural-language task inference engine

    A shallow embedding of [src/services/nlp.ts] (single-task parser) and of
    the "plan my day" segmenter of [src/components/DailyPrompt.tsx], together
    with the properties their specification states; and, around them, of the
    planner component, of the handlers and the local task store that take
    its tasks ([App.tsx], [hooks/useTasks.ts]), of the sort order of
    [components/CategorySection.tsx] and of the shopping list's classifier.

    Modelling conventions.
    - A JavaScript string is a list of characters ([text]).  The alphabet is
      Rocq's 8-bit [ascii]; the case maps and the character classes ([\s],
      [\w], [\d], [.]) are those of ECMAScript on the 7-bit range, and the
      codes above 127 are carried as caseless, non-blank, non-word symbols.
      The en and em dashes of [cleanTaskText]'s punctuation class lie outside
      this alphabet.
    - A regular expression literal is a value of [regex]; it is run by a
      backtracking matcher ([rmatch]) with the priorities of ECMAScript
      (leftmost alternative first, greedy repetition, an iteration of [*]
      that consumes nothing is rejected).
    - A JavaScript number that the code only ever uses as an integer is a
      [Z] (exact below 2^53); [NaN] is a separate constructor.
    - [chrono.parse] and the wall clock are inputs of the functions that
      consult them, and so are the identifiers a handler draws.
    - A component's state is a record, and an update [setX(prev => f(prev))]
      is the function [f] on it; the task store is the one kept without
      Firebase. *)

From Stdlib Require Import Ascii String DecimalString.
From Stdlib Require Import List ZArith Lia Bool Arith Sorted Permutation.
Import ListNotations.

(** ** Characters and strings *)

Definition text := list ascii.

Definition lit (s : string) : text := list_ascii_of_string s.

Module Char.

Definition code (c : ascii) : nat := nat_of_ascii c.

Definition between (lo hi : nat) (c : ascii) : bool :=
  (lo <=? code c) && (code c <=? hi).

Definition isUpper : ascii -> bool := between 65 90.
Definition isLower : ascii -> bool := between 97 122.
Definition isDigit : ascii -> bool := between 48 57.

(** [\s]: TAB, LF, VT, FF, CR and SPACE. *)
Definition isSpace (c : ascii) : bool := between 9 13 c || (code c =? 32).

(** [\w]: letters, digits and the underscore. *)
Definition isWord (c : ascii) : bool :=
  isUpper c || isLower c || isDigit c || (code c =? 95).

(** Line terminators, the characters [.] refuses. *)
Definition isLineTerminator (c : ascii) : bool :=
  (code c =? 10) || (code c =? 13).

Definition toLower (c : ascii) : ascii :=
  if isUpper c then ascii_of_nat (code c + 32) else c.

Definition toUpper (c : ascii) : ascii :=
  if isLower c then ascii_of_nat (code c - 32) else c.

End Char.

Module Str.

Definition toLowerCase (s : text) : text := map Char.toLower s.
Definition toUpperCase (s : text) : text := map Char.toUpper s.

Fixpoint eqb (a b : text) : bool :=
  match a, b with
  | [], [] => true
  | x :: a', y :: b' => Ascii.eqb x y && eqb a' b'
  | _, _ => false
  end.

Fixpoint startsWith (k s : text) : bool :=
  match k, s with
  | [], _ => true
  | x :: k', y :: s' => Ascii.eqb x y && startsWith k' s'
  | _ :: _, [] => false
  end.

(** [String.prototype.includes]. *)
Fixpoint includes (k s : text) : bool :=
  startsWith k s ||
  match s with
  | [] => false
  | _ :: s' => includes k s'
  end.

Fixpoint trimStart (s : text) : text :=
  match s with
  | c :: s' => if Char.isSpace c then trimStart s' else s
  | [] => []
  end.

Fixpoint trimEnd (s : text) : text :=
  match s with
  | [] => []
  | c :: s' =>
      match trimEnd s' with
      | [] => if Char.isSpace c then [] else [c]
      | t => c :: t
      end
  end.

(** [String.prototype.trim]. *)
Definition trim (s : text) : text := trimEnd (trimStart s).

(** [s.slice(0, n)] for a non-negative [n]. *)
Definition slice0 (n : nat) (s : text) : text := firstn n s.

(** [parts.join(sep)]. *)
Fixpoint join (sep : text) (parts : list text) : text :=
  match parts with
  | [] => []
  | [p] => p
  | p :: ps => p ++ sep ++ join sep ps
  end.

(** Decimal rendering of an integer, as [Number.prototype.toString]. *)
Definition ofZ (z : Z) : text := lit (NilZero.string_of_int (Z.to_int z)).

(** [s.padStart(2, '0')]. *)
Definition padStart2 (s : text) : text :=
  match s with
  | [] => lit "00"
  | [c] => lit "0" ++ [c]
  | _ => s
  end.

End Str.

(** ** Regular expressions *)

Inductive regex : Type :=
| Eps
| Cls (p : ascii -> bool)
| Seq (a b : regex)
| Alt (a b : regex)
| Star (a : regex)
| Group (i : nat) (a : regex)
| WordB
| Bol
| Eol.

Module Re.

Definition Opt (a : regex) : regex := Alt a Eps.
Definition Plus (a : regex) : regex := Seq a (Star a).

(** A pattern character without the [i] flag. *)
Definition chr (c : ascii) : regex := Cls (Ascii.eqb c).

(** A pattern character under the [i] flag: both sides are canonicalised
    with [toUpperCase]. *)
Definition chri (c : ascii) : regex :=
  Cls (fun x => Ascii.eqb (Char.toUpper x) (Char.toUpper c)).

Fixpoint seqs (rs : list regex) : regex :=
  match rs with
  | [] => Eps
  | [r] => r
  | r :: rs' => Seq r (seqs rs')
  end.

Fixpoint alts (r : regex) (rs : list regex) : regex :=
  match rs with
  | [] => r
  | r' :: rs' => Alt r (alts r' rs')
  end.

Definition word (s : string) : regex := seqs (map chr (lit s)).
Definition wordi (s : string) : regex := seqs (map chri (lit s)).

Definition oneOf (ws : list string) : regex :=
  match map word ws with
  | [] => Cls (fun _ => false)
  | r :: rs => alts r rs
  end.

Definition oneOfi (ws : list string) : regex :=
  match map wordi ws with
  | [] => Cls (fun _ => false)
  | r :: rs => alts r rs
  end.

Definition space : regex := Cls Char.isSpace.
Definition digit : regex := Cls Char.isDigit.
Definition wordChar : regex := Cls Char.isWord.
Definition dot : regex := Cls (fun c => negb (Char.isLineTerminator c)).

(** [a{lo,lo+extra}], greedy. *)
Fixpoint upTo (a : regex) (extra : nat) : regex :=
  match extra with
  | O => Eps
  | S n => Opt (Seq a (upTo a n))
  end.

Fixpoint times (a : regex) (lo : nat) (tail : regex) : regex :=
  match lo with
  | O => tail
  | S n => Seq a (times a n tail)
  end.

Definition rep (a : regex) (lo hi : nat) : regex :=
  times a lo (upTo a (hi - lo)).

End Re.

(** *** The backtracking matcher *)

Record mstate : Type := MState {
  seen : text;                  (* the input before the position, reversed *)
  rest : text;                  (* the input from the position on *)
  caps : list (nat * text)      (* captures, most recent first *)
}.

Definition wordBefore (st : mstate) : bool :=
  match seen st with c :: _ => Char.isWord c | [] => false end.

Definition wordAfter (st : mstate) : bool :=
  match rest st with c :: _ => Char.isWord c | [] => false end.

(** The characters consumed between two states of one run. *)
Definition consumed (st st' : mstate) : text :=
  rev (firstn (length (seen st') - length (seen st)) (seen st')).

Definition cont := mstate -> option mstate.

Fixpoint iterate (m : mstate -> cont -> option mstate) (fuel : nat)
    (st : mstate) (k : cont) : option mstate :=
  match fuel with
  | O => k st
  | S f =>
      match m st (fun st' =>
                    if length (rest st') <? length (rest st)
                    then iterate m f st' k else None) with
      | Some e => Some e
      | None => k st
      end
  end.

Fixpoint rmatch (r : regex) (st : mstate) (k : cont) {struct r}
    : option mstate :=
  match r with
  | Eps => k st
  | Cls p =>
      match rest st with
      | c :: t => if p c then k (MState (c :: seen st) t (caps st)) else None
      | [] => None
      end
  | Seq a b => rmatch a st (fun st' => rmatch b st' k)
  | Alt a b =>
      match rmatch a st k with
      | Some e => Some e
      | None => rmatch b st k
      end
  | Star a => iterate (rmatch a) (length (rest st)) st k
  | Group i a =>
      rmatch a st (fun st' =>
        k (MState (seen st') (rest st') ((i, consumed st st') :: caps st')))
  | WordB => if xorb (wordBefore st) (wordAfter st) then k st else None
  | Bol => match seen st with [] => k st | _ :: _ => None end
  | Eol => match rest st with [] => k st | _ :: _ => None end
  end.

(** A match: where it starts and the state at its end. *)
Record rmatched : Type := Matched { mstart : mstate; mend : mstate }.

Definition matchedText (m : rmatched) : text := consumed (mstart m) (mend m).

(** [m[i]] for a capture group; [None] is [undefined]. *)
Fixpoint lookupCap (i : nat) (cs : list (nat * text)) : option text :=
  match cs with
  | [] => None
  | (j, t) :: cs' => if i =? j then Some t else lookupCap i cs'
  end.

Definition group (m : rmatched) (i : nat) : option text :=
  lookupCap i (caps (mend m)).

(** A match attempt at one position (the sticky match of [split]). *)
Definition matchAt (r : regex) (sn rs : text) : option rmatched :=
  let st := MState sn rs [] in
  match rmatch r st Some with
  | Some e => Some (Matched st e)
  | None => None
  end.

(** The leftmost match at or after a position. *)
Fixpoint searchFrom (r : regex) (sn rs : text) : option rmatched :=
  match matchAt r sn rs with
  | Some m => Some m
  | None =>
      match rs with
      | [] => None
      | c :: rs' => searchFrom r (c :: sn) rs'
      end
  end.

(** [s.match(r)] and [r.test(s)] for a pattern without the [g] flag. *)
Definition exec (r : regex) (s : text) : option rmatched := searchFrom r [] s.

Definition test (r : regex) (s : text) : bool :=
  match exec r s with Some _ => true | None => false end.

(** [s.replace(r, f)] with the [g] flag: every match, left to right, is
    replaced by [f] of the matched text; after an empty match the search
    resumes one character further. *)
Fixpoint replaceLoop (fuel : nat) (r : regex) (f : text -> text)
    (sn rs : text) : text :=
  match fuel with
  | O => rs
  | S n =>
      match searchFrom r sn rs with
      | None => rs
      | Some m =>
          let gap := consumed (MState sn rs []) (mstart m) in
          let hit := matchedText m in
          match hit, rest (mend m) with
          | [], c :: t =>
              gap ++ f hit ++ c :: replaceLoop n r f (c :: seen (mend m)) t
          | [], [] => gap ++ f hit
          | _ :: _, _ =>
              gap ++ f hit ++ replaceLoop n r f (seen (mend m)) (rest (mend m))
          end
      end
  end.

Definition replaceAll (r : regex) (f : text -> text) (s : text) : text :=
  replaceLoop (S (length s)) r f [] s.

(** [s.replace(r, f)] without the [g] flag: the first match only. *)
Definition replaceFirst (r : regex) (f : text -> text) (s : text) : text :=
  match exec r s with
  | None => s
  | Some m =>
      rev (seen (mstart m)) ++ f (matchedText m) ++ rest (mend m)
  end.

(** [s.split(r)] for a separator without capture groups.  [seg] is the
    current piece, reversed; a separator match that ends where the piece
    starts is skipped. *)
Fixpoint splitLoop (fuel : nat) (r : regex) (sn seg rs : text) : list text :=
  match fuel with
  | O => [rev seg ++ rs]
  | S n =>
      match rs with
      | [] => [rev seg]
      | c :: t =>
          match matchAt r sn rs with
          | None => splitLoop n r (c :: sn) (c :: seg) t
          | Some m =>
              match seg, matchedText m with
              | [], [] => splitLoop n r (c :: sn) (c :: seg) t
              | _, _ => rev seg :: splitLoop n r (seen (mend m)) [] (rest (mend m))
              end
          end
      end
  end.

Definition split (r : regex) (s : text) : list text :=
  match s with
  | [] => match matchAt r [] [] with Some _ => [] | None => [[]] end
  | _ :: _ => splitLoop (2 * length s + 2) r [] [] s
  end.

(** ** Numbers *)

(** A JavaScript number as the parser produces it: an integer or [NaN]. *)
Inductive number : Type :=
| NaN
| Num (z : Z).

Module Number.

Local Open Scope Z_scope.

Definition digitOf (radix : Z) (c : ascii) : option Z :=
  let n := Z.of_nat (Char.code c) in
  let v := if Char.isDigit c then n - 48
           else if Char.isLower c then n - 87
           else if Char.isUpper c then n - 55
           else radix in
  if v <? radix then Some v else None.

Fixpoint digits (radix acc : Z) (got : bool) (s : text) : number :=
  match s with
  | c :: s' =>
      match digitOf radix c with
      | Some d => digits radix (acc * radix + d) true s'
      | None => if got then Num acc else NaN
      end
  | [] => if got then Num acc else NaN
  end.

Definition negate (n : number) : number :=
  match n with NaN => NaN | Num z => Num (- z) end.

(** A leading sign. *)
Definition splitSign (s : text) : bool * text :=
  match s with
  | "-"%char :: s' => (true, s')
  | "+"%char :: s' => (false, s')
  | _ => (false, s)
  end.

(** A leading [0x] or [0X] selects radix 16. *)
Definition splitRadix (s : text) : Z * text :=
  match s with
  | "0"%char :: x :: s' =>
      if Ascii.eqb (Char.toLower x) "x" then (16, s') else (10, s)
  | _ => (10, s)
  end.

(** [parseInt(s)] with no radix argument. *)
Definition parseInt (s : text) : number :=
  let (neg, s1) := splitSign (Str.trimStart s) in
  let (radix, s2) := splitRadix s1 in
  let n := digits radix 0 false s2 in
  if neg then negate n else n.

(** [`${n}`] for an optional number. *)
Definition show (n : option number) : text :=
  match n with
  | None => lit "undefined"
  | Some NaN => lit "NaN"
  | Some (Num z) => Str.ofZ z
  end.

(** [n === 1]. *)
Definition isOne (n : option number) : bool :=
  match n with
  | Some (Num z) => z =? 1
  | _ => false
  end.

End Number.

(** ** The data model ([types]) *)

Inductive Category : Type := work | health | personal | finance | learning | social.

Inductive Timeframe : Type := daily | weekly | monthly | once.

Inductive Priority : Type := low | medium | high.

(** The [type] tag of a recurrence.  The declared union has three members;
    [RUnrecognized] stands for any other value met at run time (the records
    come back from storage untyped). *)
Inductive RecurrenceType : Type := RDaily | RWeekly | RMonthly | RUnrecognized.

Record RecurrencePattern : Type := {
  type : RecurrenceType;
  days : option (list Z);
  dayOfMonth : option Z;
  interval : option number
}.

Record ParsedTask : Type := {
  title : text;
  category : option Category;
  dueDate : option Z;           (* milliseconds since the epoch *)
  dueTime : option text;
  timeframe : Timeframe;
  recurrence : option RecurrencePattern;
  priority : Priority
}.

(** What a function that may raise [TypeError] does. *)
Inductive outcome (A : Type) : Type :=
| Returns (a : A)
| Throws.
Arguments Returns {A} a.
Arguments Throws {A}.

(** * [services/nlp.ts] *)

Module Nlp.

Import Re.

Definition categoryKeywords : list (Category * list text) :=
  [ (work, map lit ["work"; "meeting"; "email"; "project"; "deadline"; "client";
                    "report"; "presentation"; "office"; "boss"; "colleague"]%string);
    (health, map lit ["gym"; "workout"; "exercise"; "run"; "yoga"; "doctor";
                      "medicine"; "walk"; "sleep"; "diet"; "meditate"; "stretch"]%string);
    (personal, map lit ["home"; "clean"; "laundry"; "grocery"; "cook"; "organize";
                        "declutter"; "fix"; "repair"]%string);
    (finance, map lit ["pay"; "bill"; "budget"; "invest"; "bank"; "tax"; "expense";
                       "savings"; "money"; "rent"; "mortgage"]%string);
    (learning, map lit ["read"; "study"; "learn"; "course"; "book"; "practice";
                        "tutorial"; "class"; "lesson"; "skill"]%string);
    (social, map lit ["call"; "visit"; "meet"; "friend"; "family"; "party"; "dinner";
                      "lunch"; "birthday"; "event"]%string) ].

Definition priorityKeywords : list (Priority * list text) :=
  [ (high, map lit ["urgent"; "important"; "critical"; "asap"; "immediately";
                    "priority"; "must"]%string);
    (medium, map lit ["should"; "need to"; "plan to"]%string);
    (low, map lit ["maybe"; "could"; "sometime"; "eventually"; "when possible"]%string) ].

Record RecurrenceRow : Type := {
  pattern : regex;
  rowType : RecurrenceType;
  rowInterval : option Z
}.

Definition recurrencePatterns : list RecurrenceRow :=
  [ {| pattern := seqs [wordi "every"; Plus space; wordi "day"];
       rowType := RDaily; rowInterval := Some 1%Z |};
    {| pattern := wordi "daily"; rowType := RDaily; rowInterval := Some 1%Z |};
    {| pattern := seqs [wordi "every"; Plus space; wordi "week"];
       rowType := RWeekly; rowInterval := Some 1%Z |};
    {| pattern := wordi "weekly"; rowType := RWeekly; rowInterval := Some 1%Z |};
    {| pattern := seqs [wordi "every"; Plus space; wordi "month"];
       rowType := RMonthly; rowInterval := Some 1%Z |};
    {| pattern := wordi "monthly"; rowType := RMonthly; rowInterval := Some 1%Z |};
    {| pattern := seqs [wordi "every"; Plus space; Group 1 (Plus digit); Plus space;
                        wordi "day"; Opt (chri "s")];
       rowType := RDaily; rowInterval := None |};
    {| pattern := seqs [wordi "every"; Plus space; Group 1 (Plus digit); Plus space;
                        wordi "week"; Opt (chri "s")];
       rowType := RWeekly; rowInterval := None |} ].

Definition dayNames : list text :=
  map lit ["sunday"; "monday"; "tuesday"; "wednesday"; "thursday"; "friday";
           "saturday"]%string.

(** The two nested [for … of] loops of the keyword classifiers: the first
    table entry one of whose keywords occurs in the text. *)
Fixpoint firstEntry {A : Type} (table : list (A * list text)) (lowerText : text)
    : option A :=
  match table with
  | [] => None
  | (tag, keywords) :: table' =>
      if existsb (fun keyword => Str.includes keyword lowerText) keywords
      then Some tag
      else firstEntry table' lowerText
  end.

Definition detectCategory (text_ : text) : option Category :=
  let lowerText := Str.toLowerCase text_ in
  firstEntry categoryKeywords lowerText.

Definition detectPriority (text_ : text) : Priority :=
  let lowerText := Str.toLowerCase text_ in
  match firstEntry priorityKeywords lowerText with
  | Some p => p
  | None => medium
  end.

(** The pattern of [everyDaysMatch]: [every], blanks, and in group 1 one
    or more weekday names, each optionally followed by a separator (a
    comma or [and] between optional blanks); flag [i]. *)
Definition weekdayRe : regex :=
  oneOfi ["monday"; "tuesday"; "wednesday"; "thursday"; "friday"; "saturday";
          "sunday"]%string.

Definition separatorRe : regex :=
  seqs [Star space; Alt (chri ",") (wordi "and"); Star space].

Definition everyDaysRe : regex :=
  seqs [wordi "every"; Plus space;
        Group 1 (Plus (Seq weekdayRe (Opt separatorRe)))].

(** [dayNames.forEach((day, index) => …)]: the indices whose name occurs. *)
Fixpoint daysIn (daysText : text) (index : Z) (names : list text) : list Z :=
  match names with
  | [] => []
  | day :: names' =>
      if Str.includes day daysText
      then index :: daysIn daysText (index + 1) names'
      else daysIn daysText (index + 1) names'
  end.

(** [match[1] ? parseInt(match[1]) : 1]: an absent or empty group gives 1. *)
Definition intervalOf (m : rmatched) : number :=
  match group m 1 with
  | Some ((_ :: _) as digits) => Number.parseInt digits
  | _ => Num 1
  end.

(** The loop over [recurrencePatterns]. *)
Fixpoint scanPatterns (rows : list RecurrenceRow) (lowerText : text)
    : option RecurrencePattern :=
  match rows with
  | [] => None
  | row :: rows' =>
      match exec (pattern row) lowerText with
      | Some m =>
          Some {| type := rowType row; days := None; dayOfMonth := None;
                  interval := Some (intervalOf m) |}
      | None => scanPatterns rows' lowerText
      end
  end.

Definition detectRecurrence (text_ : text) : option RecurrencePattern :=
  let lowerText := Str.toLowerCase text_ in
  let byDays :=
    match exec everyDaysRe lowerText with
    | Some everyDaysMatch =>
        match group everyDaysMatch 1 with
        | Some g =>
            let daysText := Str.toLowerCase g in
            let days := daysIn daysText 0 dayNames in
            if (0 <? length days)%nat
            then Some {| type := RWeekly; days := Some days; dayOfMonth := None;
                         interval := Some (Num 1) |}
            else None
        | None => None  (* group 1 takes part in every match *)
        end
    | None => None
    end in
  match byDays with
  | Some r => Some r
  | None => scanPatterns recurrencePatterns lowerText
  end.

(** [/every\s+\w+day/i] *)
Definition everyNamedDayRe : regex :=
  seqs [wordi "every"; Plus space; Plus wordChar; wordi "day"].

Definition msPerDay : Z := 1000 * 60 * 60 * 24.

(** [Math.ceil((dueDate.getTime() - now.getTime()) / msPerDay)]. *)
Definition diffDays (now due : Z) : Z := (- ((now - due) / msPerDay))%Z.

Definition detectTimeframe (now : Z) (text_ : text) (hasRecurrence : bool)
    (dueDate : option Z) : Timeframe :=
  let byText :=
    if hasRecurrence then
      let lowerText := Str.toLowerCase text_ in
      if Str.includes (lit "daily") lowerText
         || Str.includes (lit "every day") lowerText
      then Some daily
      else if Str.includes (lit "weekly") lowerText
              || Str.includes (lit "every week") lowerText
              || test everyNamedDayRe lowerText
      then Some weekly
      else if Str.includes (lit "monthly") lowerText
              || Str.includes (lit "every month") lowerText
      then Some monthly
      else None
    else None in
  match byText with
  | Some t => t
  | None =>
      match dueDate with
      | Some due =>
          let d := diffDays now due in
          if (d <=? 1)%Z then daily
          else if (d <=? 7)%Z then weekly
          else if (d <=? 30)%Z then monthly
          else once
      | None => once
      end
  end.

Definition patternsToRemove : list regex :=
  [ (* /\b(at|on|by|before|after)\s+\d{1,2}(:\d{2})?\s*(am|pm)?\b/gi *)
    seqs [WordB; Group 1 (oneOfi ["at"; "on"; "by"; "before"; "after"]%string);
          Plus space; rep digit 1 2;
          Opt (Group 2 (Seq (chri ":") (rep digit 2 2)));
          Star space; Opt (Group 3 (oneOfi ["am"; "pm"]%string)); WordB];
    (* /\b(today|tomorrow|tonight|this\s+\w+|next\s+\w+)\b/gi *)
    seqs [WordB;
          Group 1 (alts (wordi "today")
                     [wordi "tomorrow"; wordi "tonight";
                      seqs [wordi "this"; Plus space; Plus wordChar];
                      seqs [wordi "next"; Plus space; Plus wordChar]]);
          WordB];
    (* /\bevery\s+(day|week|month|\w+day(?:SEP\w+day)* )\b/gi, SEP = \s*(?:,|and)\s* *)
    seqs [WordB; wordi "every"; Plus space;
          Group 1 (alts (wordi "day")
                     [wordi "week"; wordi "month";
                      seqs [Plus wordChar; wordi "day";
                            Star (seqs [Star space; Alt (chri ",") (wordi "and");
                                        Star space; Plus wordChar; wordi "day"])]]);
          WordB];
    (* /\b(daily|weekly|monthly)\b/gi *)
    seqs [WordB; Group 1 (oneOfi ["daily"; "weekly"; "monthly"]%string); WordB];
    (* /\b(urgent|important|asap)\b/gi *)
    seqs [WordB; Group 1 (oneOfi ["urgent"; "important"; "asap"]%string); WordB];
    (* /\b\d{1,2}\/\d{1,2}(?:\/\d{2,4})?\b/g *)
    seqs [WordB; rep digit 1 2; chr "/"; rep digit 1 2;
          Opt (Seq (chr "/") (rep digit 2 4)); WordB] ].

Definition remove (cleaned : text) (r : regex) : text :=
  replaceAll r (fun _ => []) cleaned.

(** [cleaned.replace(/\s+/g, ' ').trim()] *)
Definition squeeze (cleaned : text) : text :=
  Str.trim (replaceAll (Plus space) (fun _ => lit " ") cleaned).

(** [cleaned.charAt(0).toUpperCase() + cleaned.slice(1)] when non-empty. *)
Definition capitalize (cleaned : text) : text :=
  match cleaned with
  | [] => []
  | c :: tl => Char.toUpper c :: tl
  end.

Definition cleanTitle (text_ : text) : text :=
  let cleaned := fold_left remove patternsToRemove text_ in
  capitalize (squeeze cleaned).

(** One result of [chrono.parse]: the start date, whether the hour is
    certain, and the hour and minute components. *)
Record ChronoResult : Type := {
  startDate : Z;
  hourCertain : bool;
  startHour : option Z;
  startMinute : option Z
}.

Definition orZero (n : option Z) : Z :=
  match n with Some z => z | None => 0%Z end.

Section Parser.

Variable chronoParse : text -> list ChronoResult.
Variable now : Z.

Definition parseNaturalLanguage (input : text) : ParsedTask :=
  let parsed := chronoParse input in
  let dueDate :=
    match parsed with result :: _ => Some (startDate result) | [] => None end in
  let dueTime :=
    match parsed with
    | result :: _ =>
        if hourCertain result then
          let hours := orZero (startHour result) in
          let minutes := orZero (startMinute result) in
          Some (Str.padStart2 (Str.ofZ hours) ++ lit ":"
                ++ Str.padStart2 (Str.ofZ minutes))
        else None
    | [] => None
    end in
  let recurrence := detectRecurrence input in
  let category := detectCategory input in
  let priority := detectPriority input in
  let timeframe :=
    detectTimeframe now input
      (match recurrence with Some _ => true | None => false end) dueDate in
  let title := cleanTitle input in
  {| title := title; category := category; dueDate := dueDate;
     dueTime := dueTime; timeframe := timeframe; recurrence := recurrence;
     priority := priority |}.

(** The title [TaskForm] submits: [parsedTask.title || input.trim()],
    reached only when [input.trim()] is non-empty. *)
Definition submittedTitle (input : text) : text :=
  match title (parseNaturalLanguage input) with
  | [] => Str.trim input
  | t => t
  end.

End Parser.

(** [dayNames[d].slice(0, 3)]; an index outside the table yields
    [undefined], whose [slice] raises. *)
Definition dayLabel (d : Z) : outcome text :=
  if (d <? 0)%Z then Throws
  else match nth_error dayNames (Z.to_nat d) with
       | Some name => Returns (Str.slice0 3 name)
       | None => Throws
       end.

Fixpoint dayLabels (ds : list Z) : outcome (list text) :=
  match ds with
  | [] => Returns []
  | d :: ds' =>
      match dayLabel d with
      | Throws => Throws
      | Returns l =>
          match dayLabels ds' with
          | Throws => Throws
          | Returns ls => Returns (l :: ls)
          end
      end
  end.

Definition every (n : option number) (unit : string) : text :=
  lit "Every " ++ Number.show n ++ lit " " ++ lit unit.

Definition formatRecurrence (recurrence : RecurrencePattern) : outcome text :=
  match type recurrence with
  | RDaily =>
      Returns (if Number.isOne (interval recurrence) then lit "Daily"
               else every (interval recurrence) "days")
  | RWeekly =>
      match days recurrence with
      | Some ((_ :: _) as ds) =>
          match dayLabels ds with
          | Returns labels => Returns (lit "Every " ++ Str.join (lit ", ") labels)
          | Throws => Throws
          end
      | _ =>
          Returns (if Number.isOne (interval recurrence) then lit "Weekly"
                   else every (interval recurrence) "weeks")
      end
  | RMonthly =>
      Returns (if Number.isOne (interval recurrence) then lit "Monthly"
               else every (interval recurrence) "months")
  | RUnrecognized => Returns []
  end.

End Nlp.

(** * [components/DailyPrompt.tsx] *)

Module DailyPrompt.

Import Re.

Record ParsedTask : Type := {
  title : text;
  category : Category;
  priority : Priority;
  selected : bool
}.

Definition workRe : regex :=
  seqs [WordB;
        Group 1 (oneOf ["work"; "office"; "meeting"; "email"; "project"; "deadline";
                        "boss"; "client"; "report"; "presentation"; "call with";
                        "zoom"; "teams"; "standup"; "sprint"; "jira"; "slack"]%string);
        WordB].

Definition healthRe : regex :=
  seqs [WordB;
        Group 1 (oneOf ["gym"; "exercise"; "workout"; "run"; "walk"; "jog"; "doctor";
                        "dentist"; "health"; "yoga"; "meditat"; "sleep"; "vitamin";
                        "medicine"; "appointment"; "checkup"; "therapy";
                        "physio"]%string);
        WordB].

Definition financeRe : regex :=
  seqs [WordB;
        Group 1 (oneOf ["pay"; "bill"; "bank"; "money"; "budget"; "tax"; "invoice";
                        "rent"; "mortgage"; "insurance"; "invest"; "salary";
                        "expense"; "transfer"; "savings"]%string);
        WordB].

Definition socialRe : regex :=
  seqs [WordB;
        Group 1 (oneOf ["call mom"; "call dad"; "call friend"; "visit"; "party";
                        "dinner with"; "lunch with"; "meet up"; "friend"; "family";
                        "birthday"; "wedding"; "event"; "drinks with";
                        "coffee with"]%string);
        WordB].

(** [/\b(book|reserve|schedule)\s+(a\s+)?(train|...|room)\b/] *)
Definition bookingRe : regex :=
  seqs [WordB; Group 1 (oneOf ["book"; "reserve"; "schedule"]%string); Plus space;
        Opt (Group 2 (Seq (chr "a") (Plus space)));
        Group 3 (oneOf ["train"; "flight"; "ticket"; "hotel"; "appointment"; "table";
                        "restaurant"; "cab"; "uber"; "taxi"; "room"]%string);
        WordB].

(** [/\b(study|learn|read\s+a?\s*book|course|...|reading)\b/] *)
Definition learningRe : regex :=
  seqs [WordB;
        Group 1 (alts (word "study")
                   [word "learn";
                    seqs [word "read"; Plus space; Opt (chr "a"); Star space;
                          word "book"];
                    word "course"; word "class"; word "practice"; word "tutorial";
                    word "lesson"; word "homework"; word "research"; word "exam";
                    word "textbook"; word "library"; word "reading"]);
        WordB].

(** [/\b(clean|...|organize|book\s|reserve|...|flight)\b/] *)
Definition personalRe : regex :=
  seqs [WordB;
        Group 1 (alts (word "clean")
                   [word "laundry"; word "grocery"; word "shop"; word "cook";
                    word "errand"; word "home"; word "house"; word "car"; word "fix";
                    word "repair"; word "organize"; Seq (word "book") space;
                    word "reserve"; word "ticket"; word "travel"; word "pack";
                    word "trip"; word "airport"; word "train"; word "flight"]);
        WordB].

Definition detectCategory (text_ : text) : Category :=
  let lower := Str.toLowerCase text_ in
  if test workRe lower then work
  else if test healthRe lower then health
  else if test financeRe lower then finance
  else if test socialRe lower then social
  else
    let isBookingAction := test bookingRe lower in
    if negb isBookingAction && test learningRe lower then learning
    else if test personalRe lower then personal
    else personal.

Definition highRe : regex :=
  seqs [WordB;
        Group 1 (oneOf ["urgent"; "asap"; "important"; "critical"; "must";
                        "deadline today"; "high priority"]%string);
        WordB].

Definition lowRe : regex :=
  seqs [WordB;
        Group 1 (oneOf ["maybe"; "later"; "when possible"; "low priority";
                        "sometime"; "eventually"]%string);
        WordB].

Definition detectPriority (text_ : text) : Priority :=
  let lower := Str.toLowerCase text_ in
  if test highRe lower then high
  else if test lowRe lower then low
  else medium.

(** [/^(i need to|i have to|...|i will)\s+/i] *)
Definition prefixRe : regex :=
  seqs [Bol;
        Group 1 (oneOfi ["i need to"; "i have to"; "i want to"; "i should"; "i must";
                         "i gotta"; "gotta"; "need to"; "have to"; "want to";
                         "should"; "must"; "going to"; "gonna"; "will"; "i'll";
                         "i will"]%string);
        Plus space].

(** The class of blanks, commas, full stops and hyphens. *)
Definition isEdge (c : ascii) : bool :=
  Char.isSpace c || Ascii.eqb c "," || Ascii.eqb c "." || Ascii.eqb c "-".

(** [/^[\s,.\-]+|[\s,.\-]+$/g] *)
Definition edgesRe : regex :=
  Alt (Seq Bol (Plus (Cls isEdge))) (Seq (Plus (Cls isEdge)) Eol).

(** [/^./] *)
Definition firstCharRe : regex := Seq Bol dot.

Definition cleanTaskText (text_ : text) : text :=
  Str.trim
    (replaceFirst firstCharRe Str.toUpperCase
       (replaceAll edgesRe (fun _ => [])
          (replaceFirst prefixRe (fun _ => []) text_))).

(** The separator of [parseInput]:
    [/(?:,\s*(?:and\s+)?|(?:\s+and\s+)|\.\s+|\n+|;\s*|then\s+)/i] *)
Definition delimiterRe : regex :=
  alts (seqs [chri ","; Star space; Opt (Seq (wordi "and") (Plus space))])
       [seqs [Plus space; wordi "and"; Plus space];
        Seq (chri ".") (Plus space);
        Plus (chri "010");
        Seq (chri ";") (Star space);
        Seq (wordi "then") (Plus space)].

Definition segmentsOf (input : text) : list text :=
  filter (fun s => (2 <? length s)%nat) (map Str.trim (split delimiterRe input)).

(** The [for … of] loop of [parseInput]; [seen] is the set of keys met. *)
Fixpoint collect (segments : list text) (seen : list text) : list ParsedTask :=
  match segments with
  | [] => []
  | segment :: more =>
      let cleaned := cleanTaskText segment in
      if (length cleaned <? 3)%nat then collect more seen
      else
        let key := Str.toLowerCase cleaned in
        if existsb (Str.eqb key) seen then collect more seen
        else {| title := cleaned;
                category := detectCategory segment;
                priority := detectPriority segment;
                selected := true |} :: collect more (key :: seen)
  end.

Definition parseInput (input : text) : list ParsedTask :=
  collect (segmentsOf input) [].

End DailyPrompt.

(** * The [DailyPrompt] component *)

(** [l.map((x, i) => f(x, i))], counting from [i]. *)
Fixpoint mapIndexed {A B : Type} (f : A -> nat -> B) (i : nat) (l : list A) : list B :=
  match l with
  | [] => []
  | x :: l' => f x i :: mapIndexed f (S i) l'
  end.

(** What a form hands to [onAddTasks] and [addTask]: a task without its
    identifier, owner and time stamps
    ([Omit<Task, 'id' | 'createdAt' | 'updatedAt' | 'userId'>]). *)
Module TaskData.

Record t : Type := {
  title : text;
  category : Category;
  completed : bool;
  dueDate : option Z;
  dueTime : option text;
  timeframe : Timeframe;
  recurrence : option RecurrencePattern;
  priority : Priority;
  notes : option text
}.

End TaskData.

Module Planner.

(** The state of the component: [isExpanded], [prompt] and [suggestions]. *)
Record State : Type := {
  isExpanded : bool;
  prompt : text;
  suggestions : list DailyPrompt.ParsedTask
}.

Definition setSuggestions (l : list DailyPrompt.ParsedTask) (st : State) : State :=
  {| isExpanded := isExpanded st; prompt := prompt st; suggestions := l |}.



(** [{ ...s, selected: !s.selected }] *)
Definition flipSelected (s : DailyPrompt.ParsedTask) : DailyPrompt.ParsedTask :=
  {| DailyPrompt.title := DailyPrompt.title s;
     DailyPrompt.category := DailyPrompt.category s;
     DailyPrompt.priority := DailyPrompt.priority s;
     DailyPrompt.selected := negb (DailyPrompt.selected s) |}.

Definition toggleSuggestion (index : nat) (st : State) : State :=
  setSuggestions
    (mapIndexed (fun s i => if (i =? index)%nat then flipSelected s else s) 0
       (suggestions st))
    st.

(** The task made of one selected suggestion; [now] is [new Date()]. *)
Definition taskOf (now : Z) (s : DailyPrompt.ParsedTask) : TaskData.t :=
  {| TaskData.title := DailyPrompt.title s;
     TaskData.category := DailyPrompt.category s;
     TaskData.completed := false;
     TaskData.dueDate := Some now;
     TaskData.dueTime := None;
     TaskData.timeframe := daily;
     TaskData.recurrence := None;
     TaskData.priority := DailyPrompt.priority s;
     TaskData.notes := None |}.


End Planner.

(** * The shopping list ([ShoppingList], in [components/Header.tsx]) *)

Module ShoppingList.

Definition produceWords : list string :=
  ["apple"; "banana"; "orange"; "lettuce"; "tomato"; "onion"; "potato"; "carrot";
   "broccoli"; "spinach"; "fruit"; "vegetable"; "salad"; "herb"; "garlic"; "lemon";
   "lime"; "avocado"; "pepper"; "cucumber"; "celery"; "mushroom"]%string.

Definition dairyWords : list string :=
  ["milk"; "cheese"; "yogurt"; "butter"; "cream"; "egg"; "eggs"]%string.

Definition meatWords : list string :=
  ["chicken"; "beef"; "pork"; "fish"; "salmon"; "tuna"; "shrimp"; "bacon"; "sausage";
   "steak"; "meat"; "turkey"; "ham"]%string.

Definition bakeryWords : list string :=
  ["bread"; "roll"; "bagel"; "croissant"; "muffin"; "cake"; "pastry"; "baguette";
   "tortilla"]%string.

Definition frozenWords : list string :=
  ["frozen"; "ice cream"; "pizza"; "fries"]%string.

Definition pantryWords : list string :=
  ["pasta"; "rice"; "cereal"; "flour"; "sugar"; "oil"; "sauce"; "soup"; "can"; "beans";
   "spice"; "salt"; "pepper"; "vinegar"; "honey"; "peanut butter"; "jam"; "coffee";
   "tea"]%string.

Definition beverageWords : list string :=
  ["juice"; "soda"; "water"; "beer"; "wine"; "drink"; "cola"; "sprite"]%string.

Definition householdWords : list string :=
  ["soap"; "detergent"; "paper towel"; "toilet paper"; "cleaner"; "sponge";
   "trash bag"; "tissue"]%string.

(** [/\b(w1|w2|...)\b/], the shape of the eight patterns. *)
Definition words (ws : list string) : regex :=
  Re.seqs [WordB; Group 1 (Re.oneOf ws); WordB].

Definition autoDetectCategory (itemName : text) : string :=
  let name := Str.toLowerCase itemName in
  if test (words produceWords) name then "produce"
  else if test (words dairyWords) name then "dairy"
  else if test (words meatWords) name then "meat"
  else if test (words bakeryWords) name then "bakery"
  else if test (words frozenWords) name then "frozen"
  else if test (words pantryWords) name then "pantry"
  else if test (words beverageWords) name then "beverages"
  else if test (words householdWords) name then "household"
  else "other".

End ShoppingList.

(** * Tasks and their store *)

Module Task.

Record t : Type := {
  id : text;
  title : text;
  category : Category;
  completed : bool;
  dueDate : option Z;
  dueTime : option text;
  timeframe : Timeframe;
  recurrence : option RecurrencePattern;
  priority : Priority;
  createdAt : Z;
  updatedAt : Z;
  userId : text;
  notes : option text
}.

End Task.

(** [a === b] on priorities. *)
Definition samePriority (a b : Priority) : bool :=
  match a, b with
  | low, low | medium, medium | high, high => true
  | _, _ => false
  end.

(** * [components/CategorySection.tsx] *)

Module CategorySection.

Definition priorityOrder (p : Priority) : Z :=
  match p with high => 0 | medium => 1 | low => 2 end.

(** The comparator of [sortedTasks]. *)
Definition compare (a b : Task.t) : Z :=
  if negb (Bool.eqb (Task.completed a) (Task.completed b))
  then (if Task.completed a then 1 else -1)
  else if negb (samePriority (Task.priority a) (Task.priority b))
  then priorityOrder (Task.priority a) - priorityOrder (Task.priority b)
  else match Task.dueDate a, Task.dueDate b with
       | Some x, Some y => x - y
       | Some _, None => -1
       | None, Some _ => 1
       | None, None => 0
       end.

End CategorySection.

(** * [hooks/useTasks.ts], local mode *)

Module UseTasks.

(** [new Map(entries).get(key)]: of two entries with one key the later one
    counts. *)
Fixpoint mapGet {A : Type} (key : text) (entries : list (text * A)) : option A :=
  match entries with
  | [] => None
  | (k, v) :: more =>
      match mapGet key more with
      | Some later => Some later
      | None => if Str.eqb k key then Some v else None
      end
  end.

(** The task [addTask] stores for [taskData]: [now] is [new Date()] and
    [fresh] the identifier drawn. *)
Definition stored (userId : text) (now : Z) (fresh : text) (taskData : TaskData.t)
    : Task.t :=
  {| Task.id := fresh;
     Task.title := TaskData.title taskData;
     Task.category := TaskData.category taskData;
     Task.completed := TaskData.completed taskData;
     Task.dueDate := TaskData.dueDate taskData;
     Task.dueTime := TaskData.dueTime taskData;
     Task.timeframe := TaskData.timeframe taskData;
     Task.recurrence := TaskData.recurrence taskData;
     Task.priority := TaskData.priority taskData;
     Task.createdAt := now;
     Task.updatedAt := now;
     Task.userId := userId;
     Task.notes := TaskData.notes taskData |}.

(** [addTask] without Firebase: nothing happens without a user id (the
    empty string counts as none); otherwise the new task is put first. *)
Definition addTask (userId : option text) (now : Z) (fresh : text)
    (taskData : TaskData.t) (prev : list Task.t) : list Task.t :=
  match userId with
  | Some ((_ :: _) as uid) => stored uid now fresh taskData :: prev
  | _ => prev
  end.

Definition reorderTasks (taskIds : list text) (prev : list Task.t) : list Task.t :=
  let taskMap := map (fun t => (Task.id t, t)) prev in
  let reordered :=
    flat_map (fun id => match mapGet id taskMap with Some t => [t] | None => [] end)
             taskIds in
  let remaining :=
    filter (fun t => negb (existsb (Str.eqb (Task.id t)) taskIds)) prev in
  reordered ++ remaining.

End UseTasks.

(** * [App.tsx] *)

Module App.

(** What one round of the loop of [handleAddMultipleTasks] reads from the
    environment: the clock in the handler, the clock in [addTask] and the
    identifier drawn there. *)
Record Stamp : Type := { today : Z; created : Z; fresh : text }.

(** [{ ...task, dueDate: task.dueDate || new Date() }] *)
Definition withDueDate (now : Z) (task : TaskData.t) : TaskData.t :=
  {| TaskData.title := TaskData.title task;
     TaskData.category := TaskData.category task;
     TaskData.completed := TaskData.completed task;
     TaskData.dueDate :=
       match TaskData.dueDate task with Some d => Some d | None => Some now end;
     TaskData.dueTime := TaskData.dueTime task;
     TaskData.timeframe := TaskData.timeframe task;
     TaskData.recurrence := TaskData.recurrence task;
     TaskData.priority := TaskData.priority task;
     TaskData.notes := TaskData.notes task |}.

(** The loop of [handleAddMultipleTasks] over the local store; [env] gives
    the stamp of each round and [round] counts the rounds. *)
Fixpoint handleAddMultipleTasks (userId : option text) (env : nat -> Stamp)
    (round : nat) (newTasks : list TaskData.t) (prev : list Task.t) : list Task.t :=
  match newTasks with
  | [] => prev
  | task :: more =>
      handleAddMultipleTasks userId env (S round) more
        (UseTasks.addTask userId (created (env round)) (fresh (env round))
           (withDueDate (today (env round)) task) prev)
  end.

End App.

(** * Vocabulary of the properties *)

(** ** What a pattern can match

    [Reach r st st'] holds when the pattern [r], started in state [st], can
    end in state [st'], whatever the priorities among the alternatives. *)

Inductive starClosure (R : mstate -> mstate -> Prop) : mstate -> mstate -> Prop :=
| star_done : forall st, starClosure R st st
| star_step : forall st st1 st2,
    R st st1 ->
    length (rest st1) < length (rest st) ->
    starClosure R st1 st2 ->
    starClosure R st st2.

Fixpoint Reach (r : regex) (st st' : mstate) : Prop :=
  match r with
  | Eps => st' = st
  | Cls p =>
      exists c, rest st = c :: rest st' /\ p c = true /\
                seen st' = c :: seen st /\ caps st' = caps st
  | Seq a b => exists st1, Reach a st st1 /\ Reach b st1 st'
  | Alt a b => Reach a st st' \/ Reach b st st'
  | Star a => starClosure (Reach a) st st'
  | Group i a =>
      exists st1, Reach a st st1 /\
        st' = MState (seen st1) (rest st1) ((i, consumed st st1) :: caps st1)
  | WordB => xorb (wordBefore st) (wordAfter st) = true /\ st' = st
  | Bol => seen st = [] /\ st' = st
  | Eol => rest st = [] /\ st' = st
  end.

(** [st'] lies [mid] further than [st] in the same input. *)
Definition advances (st : mstate) (mid : text) (st' : mstate) : Prop :=
  rest st = mid ++ rest st' /\ seen st' = rev mid ++ seen st.

(** [Lang r w]: the pattern [r] can consume exactly [w].  The assertions
    (word boundary, start and end of input) consume nothing and are not
    checked here, so [Lang] bounds from above what a pattern with
    assertions matches and is exact for a pattern without ([plain]). *)

Inductive starLang (P : text -> Prop) : text -> Prop :=
| starLang_nil : starLang P []
| starLang_app : forall w1 w2, P w1 -> w1 <> [] -> starLang P w2 -> starLang P (w1 ++ w2).

Fixpoint Lang (r : regex) (w : text) : Prop :=
  match r with
  | Eps => w = []
  | Cls p => exists c, w = [c] /\ p c = true
  | Seq a b => exists w1 w2, w = w1 ++ w2 /\ Lang a w1 /\ Lang b w2
  | Alt a b => Lang a w \/ Lang b w
  | Star a => starLang (Lang a) w
  | Group _ a => Lang a w
  | WordB | Bol | Eol => w = []
  end.

(** A pattern without assertions. *)
Fixpoint plain (r : regex) : bool :=
  match r with
  | Eps | Cls _ => true
  | Seq a b | Alt a b => plain a && plain b
  | Star a | Group _ a => plain a
  | WordB | Bol | Eol => false
  end.


(** ** Occurrences, blanks and case *)

(** [kw] occurs somewhere in [s]. *)
Definition occurs (kw s : text) : Prop := exists pre post, s = pre ++ kw ++ post.

(** One of the keywords occurs in [s]. *)
Definition hits (keywords : list text) (s : text) : Prop :=
  exists kw, In kw keywords /\ occurs kw s.

(** Some stretch of [s] is [kw] up to the case of its letters. *)
Definition occursNoCase (kw s : text) : Prop :=
  exists pre mid post, s = pre ++ mid ++ post /\ Str.toLowerCase mid = kw.

Definition hitsNoCase (keywords : list text) (s : text) : Prop :=
  exists kw, In kw keywords /\ occursNoCase kw s.

(** One or more blanks. *)
Definition blank (ws : text) : Prop := ws <> [] /\ forallb Char.isSpace ws = true.

(** A text without upper-case letters. *)
Definition lowered (s : text) : Prop :=
  forallb (fun c => negb (Char.isUpper c)) s = true.

(** ** Timeframe inference *)

(** "every <something>day": [every], blanks, one or more word characters and
    [day]. *)
Definition namedDay (s : text) : Prop :=
  exists pre ws w post,
    s = pre ++ lit "every" ++ ws ++ w ++ lit "day" ++ post /\
    blank ws /\ w <> [] /\ forallb Char.isWord w = true.

Definition saysDaily (s : text) : Prop :=
  occurs (lit "daily") s \/ occurs (lit "every day") s.




(** ** Rendering a recurrence *)

(** The three-letter labels, as [dayNames[d].slice(0, 3)] yields them. *)
Definition dayAbbreviations : list text :=
  map lit ["sun"; "mon"; "tue"; "wed"; "thu"; "fri"; "sat"]%string.

Definition abbreviation (d : Z) : text := nth (Z.to_nat d) dayAbbreviations [].

Definition weekdayIndex (d : Z) : Prop := (0 <= d < 7)%Z.

(** ** Deduplication in the segmenter *)





(** ** Squeezed text *)

(** The leading blanks of a text. *)
Fixpoint takeBlanks (s : text) : text :=
  match s with
  | c :: s' => if Char.isSpace c then c :: takeBlanks s' else []
  | [] => []
  end.

(** Every run of blanks becomes one space; [afterBlank] tells that the
    previous character was a blank. *)
Fixpoint squash (afterBlank : bool) (s : text) : text :=
  match s with
  | [] => []
  | c :: s' =>
      if Char.isSpace c
      then if afterBlank then squash true s' else " "%char :: squash true s'
      else c :: squash false s'
  end.

(** No blank but the space, and no two blanks in a row. *)
Fixpoint tidy (afterBlank : bool) (s : text) : bool :=
  match s with
  | [] => true
  | c :: s' =>
      if Char.isSpace c
      then negb afterBlank && Ascii.eqb c " " && tidy true s'
      else tidy false s'
  end.

Definition noLeadingBlank (s : text) : Prop :=
  match s with
  | c :: _ => Char.isSpace c = false
  | [] => True
  end.

(** The shape of a squeezed text. *)
Definition squeezed (t : text) : Prop := tidy false t = true /\ Str.trim t = t.

(** ** Weekday lists *)

Definition dayName (d : nat) : text := nth d Nlp.dayNames [].

(** A separator: a comma or "and", between optional blanks. *)
Definition separator (sep : text) : Prop :=
  exists b1 w b2,
    sep = b1 ++ w ++ b2 /\ forallb Char.isSpace b1 = true /\
    (w = lit "," \/ w = lit "and") /\ forallb Char.isSpace b2 = true.

(** [dayItems g ds]: [g] is the weekday names of indices [ds], in this
    order, each followed by an optional separator. *)
Inductive dayItems : text -> list nat -> Prop :=
| dayItems_nil : dayItems [] []
| dayItems_cons : forall d sep g ds,
    d < 7 -> sep = [] \/ separator sep -> dayItems g ds ->
    dayItems (dayName d ++ sep ++ g) (d :: ds).


(** The phrase at a given place: [s] is [pre], then "every", blanks and the
    weekday list [g] of indices [ds], then [post]. *)
Definition everyWeekdaysAt (s pre g post : text) (ds : list nat) : Prop :=
  exists ws,
    s = pre ++ lit "every" ++ ws ++ g ++ post /\ blank ws /\
    dayItems g ds /\ ds <> [].


(** The first such phrase of [s], its list going on as long as weekday
    names follow. *)
Definition firstEveryWeekdays (s g : text) (ds : list nat) : Prop :=
  exists pre post,
    everyWeekdaysAt s pre g post ds /\
    (forall pre' g' post' ds',
        everyWeekdaysAt s pre' g' post' ds' -> length pre <= length pre') /\
    (forall d, d < 7 -> Str.startsWith (dayName d) post = false).



(** The characters a separator is made of. *)
Definition separatorChar (c : ascii) : bool :=
  Char.isSpace c || Ascii.eqb c "," || Ascii.eqb c "a" || Ascii.eqb c "n"
  || Ascii.eqb c "d".

(** One weekday name with its optional separator. *)
Definition dayItemRe : regex := Seq Nlp.weekdayRe (Re.Opt Nlp.separatorRe).

(** ** Patterns with assertions

    [Accepts r sn w rt]: the pattern [r] can consume [w] when the input
    before it is [sn] (reversed) and the input after it is [rt]; the
    assertions are checked against this context. *)

Definition boundaryAt (sn rt : text) : bool :=
  xorb (match sn with c :: _ => Char.isWord c | [] => false end)
       (match rt with c :: _ => Char.isWord c | [] => false end).

Inductive starAccepts (P : text -> text -> text -> Prop) : text -> text -> text -> Prop :=
| starAccepts_nil : forall sn rt, starAccepts P sn [] rt
| starAccepts_app : forall sn w1 w2 rt,
    P sn w1 (w2 ++ rt) -> w1 <> [] -> starAccepts P (rev w1 ++ sn) w2 rt ->
    starAccepts P sn (w1 ++ w2) rt.

Fixpoint Accepts (r : regex) (sn w rt : text) : Prop :=
  match r with
  | Eps => w = []
  | Cls p => exists c, w = [c] /\ p c = true
  | Seq a b =>
      exists w1 w2, w = w1 ++ w2 /\ Accepts a sn w1 (w2 ++ rt) /\
                    Accepts b (rev w1 ++ sn) w2 rt
  | Alt a b => Accepts a sn w rt \/ Accepts b sn w rt
  | Star a => starAccepts (Accepts a) sn w rt
  | Group _ a => Accepts a sn w rt
  | WordB => w = [] /\ boundaryAt sn rt = true
  | Bol => w = [] /\ sn = []
  | Eol => w = [] /\ rt = []
  end.

(** A phrase of [ws] stands in [s] as a whole word: no word character
    right before it, none right after it. *)
Definition endsInWord (s : text) : bool :=
  match rev s with c :: _ => Char.isWord c | [] => false end.

Definition startsInWord (s : text) : bool :=
  match s with c :: _ => Char.isWord c | [] => false end.

Definition wholeWord (ws : list string) (s : text) : Prop :=
  exists pre w post,
    s = pre ++ lit w ++ post /\ In w ws /\
    endsInWord pre = false /\ startsInWord post = false.

(** A phrase that begins and ends with a word character. *)
Definition wordEnded (w : string) : bool :=
  startsInWord (lit w) && endsInWord (lit w).

(** [\b(w1|w2|...)\b] *)
Definition wholeWordRe (ws : list string) : regex :=
  Re.seqs [WordB; Group 1 (Re.oneOf ws); WordB].

(** ** Keyword tables of the classifiers *)

(** The keywords [nlp.ts] lists for a priority. *)
Definition priorityWords (p : Priority) : list text :=
  flat_map snd (filter (fun e => samePriority (fst e) p) Nlp.priorityKeywords).

(** The phrases of the planner's priority patterns. *)
Definition highPhrases : list string :=
  ["urgent"; "asap"; "important"; "critical"; "must"; "deadline today";
   "high priority"]%string.

Definition lowPhrases : list string :=
  ["maybe"; "later"; "when possible"; "low priority"; "sometime"; "eventually"]%string.

(** The phrases of the planner's first four category patterns. *)
Definition workPhrases : list string :=
  ["work"; "office"; "meeting"; "email"; "project"; "deadline"; "boss"; "client";
   "report"; "presentation"; "call with"; "zoom"; "teams"; "standup"; "sprint";
   "jira"; "slack"]%string.

Definition healthPhrases : list string :=
  ["gym"; "exercise"; "workout"; "run"; "walk"; "jog"; "doctor"; "dentist"; "health";
   "yoga"; "meditat"; "sleep"; "vitamin"; "medicine"; "appointment"; "checkup";
   "therapy"; "physio"]%string.

Definition financePhrases : list string :=
  ["pay"; "bill"; "bank"; "money"; "budget"; "tax"; "invoice"; "rent"; "mortgage";
   "insurance"; "invest"; "salary"; "expense"; "transfer"; "savings"]%string.

Definition socialPhrases : list string :=
  ["call mom"; "call dad"; "call friend"; "visit"; "party"; "dinner with";
   "lunch with"; "meet up"; "friend"; "family"; "birthday"; "wedding"; "event";
   "drinks with"; "coffee with"]%string.

(** ** Counted recurrences *)

(** "every N days" or "every N weeks": [every], blanks, digits, blanks and
    the unit. *)
Definition countedPhrase (s : text) : Prop :=
  exists pre ws1 digits ws2 unit post,
    s = pre ++ lit "every" ++ ws1 ++ digits ++ ws2 ++ unit ++ post /\
    blank ws1 /\ digits <> [] /\ forallb Char.isDigit digits = true /\
    blank ws2 /\ (unit = lit "day" \/ unit = lit "week").

(** ** Dropping characters at both ends *)

(** The longest prefix of [s] in the class [p], and what follows it. *)
Fixpoint takeBy (p : ascii -> bool) (s : text) : text :=
  match s with
  | c :: s' => if p c then c :: takeBy p s' else []
  | [] => []
  end.

Fixpoint dropBy (p : ascii -> bool) (s : text) : text :=
  match s with
  | c :: s' => if p c then dropBy p s' else s
  | [] => []
  end.

(** [s] without its longest suffix in the class [p]. *)
Fixpoint dropEndBy (p : ascii -> bool) (s : text) : text :=
  match s with
  | [] => []
  | c :: s' => if forallb p s then [] else c :: dropEndBy p s'
  end.

(** The total length of a list of texts. *)
Fixpoint totalLength (l : list text) : nat :=
  match l with
  | [] => 0
  | s :: l' => length s + totalLength l'
  end.

(** ** Clock times *)

(** [s] is [z] written with two decimal digits. *)
Definition twoDigits (z : Z) (s : text) : Prop :=
  exists a b,
    s = [a; b] /\ Char.isDigit a = true /\ Char.isDigit b = true /\
    Number.parseInt s = Num z.

(** The decidable form of [twoDigits z (padStart2 (ofZ z))]. *)
Definition paddedOk (z : Z) : bool :=
  match Str.padStart2 (Str.ofZ z) with
  | [a; b] =>
      Char.isDigit a && Char.isDigit b &&
      match Number.parseInt [a; b] with
      | Num n => (n =? z)%Z
      | NaN => false
      end
  | _ => false
  end.

(** ** The shopping list, the sort order and the store *)

(** The shelves in the order [autoDetectCategory] tries them. *)
Definition shelves : list (string * list string) :=
  [("produce", ShoppingList.produceWords); ("dairy", ShoppingList.dairyWords);
   ("meat", ShoppingList.meatWords); ("bakery", ShoppingList.bakeryWords);
   ("frozen", ShoppingList.frozenWords); ("pantry", ShoppingList.pantryWords);
   ("beverages", ShoppingList.beverageWords);
   ("household", ShoppingList.householdWords)]%string.

(** The keys the comparator looks at. *)
Definition sortKey (a : Task.t) : bool * Priority * option Z :=
  (Task.completed a, Task.priority a, Task.dueDate a).

(** The task stored in round [k] for [task]. *)
Definition storedInRound (uid : text) (env : nat -> App.Stamp) (task : TaskData.t)
    (k : nat) : Task.t :=
  UseTasks.stored uid (App.created (env k)) (App.fresh (env k))
    (App.withDueDate (App.today (env k)) task).

(** ** Recurrence words and break characters *)

(** The words one of which every recognised recurrence contains. *)
Definition recurrenceWords : list text :=
  map lit ["every"; "daily"; "weekly"; "monthly"]%string.

(** A pattern that can match the empty text. *)
Fixpoint nullable (r : regex) : bool :=
  match r with
  | Cls _ => false
  | Seq a b => nullable a && nullable b
  | Alt a b => nullable a || nullable b
  | Group _ a => nullable a
  | Eps | Star _ | WordB | Bol | Eol => true
  end.

(** The characters at which [parseInput] always cuts: the comma, the
    semicolon and the line feed. *)
Definition isBreak (c : ascii) : bool :=
  Ascii.eqb c "," || Ascii.eqb c ";" || Ascii.eqb c "010".

Definition unbroken (s : text) : Prop :=
  forallb (fun c => negb (isBreak c)) s = true.

(** * Properties *)

(** ** Substrings *)

Lemma startsWith_iff (k s : text) :
  Str.startsWith k s = true <-> exists post, s = k ++ post.
Proof.
  revert s; induction k as [|x k IH]; intros s; simpl.
  - split; [intros _; now exists s | reflexivity].
  - destruct s as [|y s]; simpl.
    + split; [discriminate | intros [post H]; discriminate].
    + rewrite andb_true_iff, Ascii.eqb_eq, IH. split.
      * intros [-> [post ->]]. now exists post.
      * intros [post H]. injection H as -> ->. split; [reflexivity | now exists post].
Qed.

Lemma includes_iff (k s : text) :
  Str.includes k s = true <-> exists pre post, s = pre ++ k ++ post.
Proof.
  induction s as [|c s IH]; simpl.
  - rewrite orb_false_r, startsWith_iff. split.
    + intros [post H]. now exists [], post.
    + intros [pre [post H]]. destruct pre; simpl in H.
      * now exists post.
      * discriminate.
  - rewrite orb_true_iff, startsWith_iff, IH. split.
    + intros [[post H] | [pre [post H]]].
      * now exists [], post.
      * exists (c :: pre), post. simpl. now rewrite H.
    + intros [pre [post H]]. destruct pre as [|c' pre]; simpl in H.
      * left. now exists post.
      * right. injection H as _ H. now exists pre, post.
Qed.

(** ** Soundness and completeness of the matcher *)

Lemma advances_refl (st : mstate) : advances st [] st.
Proof. now split. Qed.

Lemma advances_trans (st st1 st2 : mstate) (m1 m2 : text) :
  advances st m1 st1 -> advances st1 m2 st2 -> advances st (m1 ++ m2) st2.
Proof.
  intros [H1 H2] [H3 H4]. split.
  - now rewrite H1, H3, app_assoc.
  - now rewrite H4, H2, rev_app_distr, app_assoc.
Qed.

Lemma advances_consumed (st st' : mstate) (mid : text) :
  advances st mid st' -> consumed st st' = mid.
Proof.
  intros [_ H]. unfold consumed. rewrite H, length_app, length_rev.
  replace (length mid + length (seen st) - length (seen st)) with (length (rev mid))
    by (rewrite length_rev; lia).
  now rewrite firstn_app, Nat.sub_diag, firstn_all, firstn_O, app_nil_r, rev_involutive.
Qed.

Lemma advances_length (st st' : mstate) (mid : text) :
  advances st mid st' -> length (rest st) = length mid + length (rest st').
Proof. intros [H _]. now rewrite H, length_app. Qed.

Lemma iterate_sound (m : mstate -> cont -> option mstate)
    (R : mstate -> mstate -> Prop) :
  (forall st k e, m st k = Some e -> exists st', R st st' /\ k st' = Some e) ->
  forall fuel st k e,
    iterate m fuel st k = Some e ->
    exists st', starClosure R st st' /\ k st' = Some e.
Proof.
  intros Hm fuel. induction fuel as [|f IH]; simpl; intros st k e H.
  - exists st. split; [constructor | exact H].
  - destruct (m st _) as [e'|] eqn:E.
    + injection H as ->. apply Hm in E. destruct E as [st1 [HR Hk]].
      destruct (length (rest st1) <? length (rest st)) eqn:Hlt; [|discriminate].
      apply Nat.ltb_lt in Hlt. apply IH in Hk. destruct Hk as [st2 [Hs Hk]].
      exists st2. split; [|exact Hk]. econstructor; eassumption.
    + exists st. split; [constructor | exact H].
Qed.

Lemma rmatch_sound (r : regex) :
  forall st k e, rmatch r st k = Some e ->
    exists st', Reach r st st' /\ k st' = Some e.
Proof.
  induction r as [|p|a IHa b IHb|a IHa b IHb|a IHa|i a IHa| | |]; simpl; intros st k e H.
  - now exists st.
  - destruct st as [sn [|c t] cs]; simpl in *; [discriminate|].
    destruct (p c) eqn:Hp; [|discriminate].
    eexists. split; [|exact H]. exists c. simpl. auto.
  - apply IHa in H. destruct H as [st1 [Ha H]]. apply IHb in H.
    destruct H as [st2 [Hb H]]. exists st2. split; [|exact H]. now exists st1.
  - destruct (rmatch a st k) as [e'|] eqn:E.
    + injection H as ->. apply IHa in E. destruct E as [st' [Ha Hk]].
      exists st'. auto.
    + apply IHb in H. destruct H as [st' [Hb Hk]]. exists st'. auto.
  - eapply iterate_sound; eassumption.
  - apply IHa in H. destruct H as [st1 [Ha H]].
    eexists. split; [|exact H]. exists st1. auto.
  - destruct (xorb _ _) eqn:Hx; [|discriminate]. now exists st.
  - destruct (seen st) eqn:Hs; [|discriminate]. now exists st.
  - destruct (rest st) eqn:Hs; [|discriminate]. now exists st.
Qed.

Lemma iterate_complete (m : mstate -> cont -> option mstate)
    (R : mstate -> mstate -> Prop) :
  (forall st st' k e, R st st' -> k st' = Some e -> exists e', m st k = Some e') ->
  forall st st', starClosure R st st' ->
  forall fuel k e, length (rest st) <= fuel -> k st' = Some e ->
    exists e', iterate m fuel st k = Some e'.
Proof.
  intros Hm st st' H.
  induction H as [st | st st1 st2 H1 Hlt _ IH]; intros fuel k e Hf Hk.
  - destruct fuel as [|f]; simpl; [eauto|].
    destruct (m st _) as [e'|]; eauto.
  - destruct fuel as [|f]; [lia|]. simpl.
    destruct (IH f k e ltac:(lia) Hk) as [e1 He1].
    destruct (Hm st st1
                (fun st' => if length (rest st') <? length (rest st)
                            then iterate m f st' k else None) e1 H1) as [e2 He2].
    + apply Nat.ltb_lt in Hlt. now rewrite Hlt.
    + rewrite He2. eauto.
Qed.

Lemma rmatch_complete (r : regex) :
  forall st st' k e, Reach r st st' -> k st' = Some e ->
    exists e', rmatch r st k = Some e'.
Proof.
  induction r as [|p|a IHa b IHb|a IHa b IHb|a IHa|i a IHa| | |]; simpl;
    intros st st' k e H Hk.
  - subst. eauto.
  - destruct H as [c [H1 [Hp [H2 H3]]]]. rewrite H1, Hp.
    destruct st' as [sn' rs' cs']; simpl in *. subst. eauto.
  - destruct H as [st1 [Ha Hb]].
    destruct (IHb _ _ _ _ Hb Hk) as [e1 He1].
    eapply IHa; eassumption.
  - destruct (rmatch a st k) as [e'|] eqn:E; [eauto|].
    destruct H as [H | H].
    + destruct (IHa _ _ _ _ H Hk) as [e' He']. congruence.
    + eapply IHb; eassumption.
  - eapply iterate_complete; eauto.
  - destruct H as [st1 [Ha ->]]. eapply IHa; [exact Ha|]. exact Hk.
  - destruct H as [Hx ->]. rewrite Hx. eauto.
  - destruct H as [Hs ->]. rewrite Hs. eauto.
  - destruct H as [Hs ->]. rewrite Hs. eauto.
Qed.

(** ** The words of a pattern *)

Lemma advances_nil_inv (st st' : mstate) (mid : text) :
  advances st mid st' -> length (rest st') < length (rest st) -> mid <> [].
Proof.
  intros H Hlt ->. apply advances_length in H. simpl in H. lia.
Qed.

Lemma Reach_Lang (r : regex) :
  forall st st', Reach r st st' ->
    exists mid, advances st mid st' /\ Lang r mid.
Proof.
  induction r as [|p|a IHa b IHb|a IHa b IHb|a IHa|i a IHa| | |]; simpl; intros st st' H.
  - subst. exists []. split; [apply advances_refl | reflexivity].
  - destruct H as [c [H1 [Hp [H2 _]]]]. exists [c]. split; [now split | eauto].
  - destruct H as [st1 [Ha Hb]].
    destruct (IHa _ _ Ha) as [m1 [H1 L1]]. destruct (IHb _ _ Hb) as [m2 [H2 L2]].
    exists (m1 ++ m2). split; [eapply advances_trans; eassumption | eauto].
  - destruct H as [H | H]; [apply IHa in H | apply IHb in H];
      destruct H as [m [H L]]; exists m; auto.
  - induction H as [st | st st1 st2 H1 Hlt _ [m2 [H2 L2]]].
    + exists []. split; [apply advances_refl | constructor].
    + destruct (IHa _ _ H1) as [m1 [Hm1 L1]]. exists (m1 ++ m2). split.
      * eapply advances_trans; eassumption.
      * constructor; auto. eapply advances_nil_inv; eassumption.
  - destruct H as [st1 [Ha ->]]. destruct (IHa _ _ Ha) as [m [Hm L]].
    exists m. split; [exact Hm | exact L].
  - destruct H as [_ ->]. exists []. split; [apply advances_refl | reflexivity].
  - destruct H as [_ ->]. exists []. split; [apply advances_refl | reflexivity].
  - destruct H as [_ ->]. exists []. split; [apply advances_refl | reflexivity].
Qed.

Lemma Lang_Reach (r : regex) :
  plain r = true ->
  forall w st, Lang r w -> forall tl, rest st = w ++ tl ->
    exists st', Reach r st st' /\ advances st w st' /\ rest st' = tl.
Proof.
  induction r as [|p|a IHa b IHb|a IHa b IHb|a IHa|i a IHa| | |]; simpl;
    intros Hp w st H tl Hr; try discriminate.
  - subst. exists st. repeat split; auto.
  - destruct H as [c [-> Hc]]. exists (MState (c :: seen st) tl (caps st)).
    simpl. repeat split; auto. exists c. auto.
  - apply andb_true_iff in Hp. destruct Hp as [Pa Pb].
    destruct H as [w1 [w2 [-> [L1 L2]]]]. rewrite <- app_assoc in Hr.
    destruct (IHa Pa _ _ L1 _ Hr) as [st1 [R1 [A1 E1]]].
    destruct (IHb Pb _ _ L2 _ E1) as [st2 [R2 [A2 E2]]].
    exists st2. repeat split; eauto using advances_trans.
    + destruct A1 as [X _], A2 as [Y _]. now rewrite X, Y, app_assoc.
    + destruct A1 as [_ X], A2 as [_ Y]. now rewrite Y, X, rev_app_distr, app_assoc.
  - apply andb_true_iff in Hp. destruct Hp as [Pa Pb]. destruct H as [H | H].
    + destruct (IHa Pa _ _ H _ Hr) as [st' [R [A E]]]. exists st'. auto.
    + destruct (IHb Pb _ _ H _ Hr) as [st' [R [A E]]]. exists st'. auto.
  - revert st Hr. induction H as [|w1 w2 L1 Hne _ IH]; intros st Hr.
    + exists st. repeat split; auto. constructor.
    + rewrite <- app_assoc in Hr.
      destruct (IHa Hp _ _ L1 _ Hr) as [st1 [R1 [A1 E1]]].
      destruct (IH _ E1) as [st2 [R2 [A2 E2]]].
      exists st2. split; [|split; [eapply advances_trans; eassumption | exact E2]].
      econstructor; [exact R1 | | exact R2].
      apply advances_length in A1. destruct w1; [congruence | simpl in A1; lia].
  - destruct (IHa Hp _ _ H _ Hr) as [st1 [R [A E]]].
    eexists. split; [exists st1; split; [exact R | reflexivity] |].
    split; [exact A | exact E].
Qed.


(** ** Searching *)

Lemma matchAt_sound (r : regex) (sn rs : text) (m : rmatched) :
  matchAt r sn rs = Some m ->
  mstart m = MState sn rs [] /\ Reach r (mstart m) (mend m).
Proof.
  unfold matchAt. destruct (rmatch r _ Some) as [e|] eqn:E; [|discriminate].
  intros H. injection H as <-. simpl. split; [reflexivity|].
  apply rmatch_sound in E. destruct E as [st' [HR Hk]]. now injection Hk as <-.
Qed.

Lemma matchAt_complete (r : regex) (sn rs : text) (st' : mstate) :
  Reach r (MState sn rs []) st' -> exists m, matchAt r sn rs = Some m.
Proof.
  intros H. unfold matchAt.
  destruct (rmatch_complete r _ _ Some _ H eq_refl) as [e He]. rewrite He. eauto.
Qed.

Lemma searchFrom_sound (r : regex) (rs : text) :
  forall sn m, searchFrom r sn rs = Some m ->
    exists skipped,
      rs = skipped ++ rest (mstart m) /\
      mstart m = MState (rev skipped ++ sn) (rest (mstart m)) [] /\
      Reach r (mstart m) (mend m).
Proof.
  induction rs as [|c rs IH]; intros sn m; simpl;
    destruct (matchAt r sn _) as [m'|] eqn:E.
  - intros H. injection H as <-. apply matchAt_sound in E. destruct E as [E1 E2].
    exists []. rewrite E1 at 1 2 3. simpl. auto.
  - discriminate.
  - intros H. injection H as <-. apply matchAt_sound in E. destruct E as [E1 E2].
    exists []. rewrite E1 at 1 2 3. simpl. auto.
  - intros H. apply IH in H. destruct H as [sk [H1 [H2 H3]]].
    exists (c :: sk). simpl. rewrite <- H1, <- app_assoc. auto.
Qed.

Lemma searchFrom_complete (r : regex) (skipped : text) :
  forall sn tl st',
    Reach r (MState (rev skipped ++ sn) tl []) st' ->
    exists m, searchFrom r sn (skipped ++ tl) = Some m.
Proof.
  induction skipped as [|c sk IH]; intros sn tl st' H; simpl in *.
  - destruct (matchAt_complete _ _ _ _ H) as [m Hm].
    destruct tl; simpl; rewrite Hm; eauto.
  - destruct (matchAt r sn (c :: sk ++ tl)); [eauto|].
    rewrite <- app_assoc in H. simpl in H. eapply IH; eassumption.
Qed.

(** [r.test(s)] on a pattern without assertions: some substring of [s] is a
    word of [r]. *)
Lemma test_iff (r : regex) (s : text) :
  plain r = true ->
  (test r s = true <-> exists pre mid post, s = pre ++ mid ++ post /\ Lang r mid).
Proof.
  intros Hp. unfold test, exec. split.
  - destruct (searchFrom r [] s) as [m|] eqn:E; [intros _ | discriminate].
    apply searchFrom_sound in E. destruct E as [sk [H1 [H2 H3]]].
    apply Reach_Lang in H3. destruct H3 as [mid [[A _] L]].
    exists sk, mid, (rest (mend m)). split; [|exact L]. now rewrite H1, A.
  - intros [pre [mid [post [-> L]]]].
    destruct (Lang_Reach r Hp mid (MState (rev pre ++ []) (mid ++ post) []) L post eq_refl)
      as [st' [R _]].
    destruct (searchFrom_complete r pre [] _ _ R) as [m Hm]. now rewrite Hm.
Qed.

(** ** The keyword classifier of [nlp.ts] *)

Lemma existsb_includes (keywords : list text) (s : text) :
  existsb (fun keyword => Str.includes keyword s) keywords = true <-> hits keywords s.
Proof.
  rewrite existsb_exists. unfold hits, occurs.
  split; intros [kw [H1 H2]]; exists kw; (split; [exact H1|]);
    now apply includes_iff.
Qed.

Lemma firstEntry_Some {A : Type} (table : list (A * list text)) (s : text) (tag : A) :
  Nlp.firstEntry table s = Some tag <->
  exists before keywords after,
    table = before ++ (tag, keywords) :: after /\
    hits keywords s /\
    forall e, In e before -> ~ hits (snd e) s.
Proof.
  induction table as [|[t kws] table IH]; simpl.
  - split; [discriminate | intros [[|? ?] [? [? [H _]]]]; discriminate].
  - destruct (existsb _ kws) eqn:E.
    + apply existsb_includes in E. split.
      * intros H. injection H as ->. exists [], kws, table. simpl. intuition.
      * intros [before [kws' [after [H [Hh Hb]]]]]. destruct before as [|e before].
        -- simpl in H. now injection H as -> _ _.
        -- simpl in H. injection H as <- _. exfalso. apply (Hb (t, kws)); simpl; auto.
    + assert (N : ~ hits kws s).
      { intros H. apply existsb_includes in H. congruence. }
      rewrite IH. split.
      * intros [before [kws' [after [-> [Hh Hb]]]]].
        exists ((t, kws) :: before), kws', after. simpl. split; [reflexivity|].
        split; [exact Hh|]. intros e [<- | He]; auto.
      * intros [before [kws' [after [H [Hh Hb]]]]]. destruct before as [|e before].
        -- simpl in H. injection H as -> -> _. contradiction.
        -- simpl in H. injection H as _ ->. exists before, kws', after.
           split; [reflexivity|]. split; [exact Hh|]. intros e' He'. apply Hb. now right.
Qed.

Lemma firstEntry_None {A : Type} (table : list (A * list text)) (s : text) :
  Nlp.firstEntry table s = None <-> forall e, In e table -> ~ hits (snd e) s.
Proof.
  induction table as [|[t kws] table IH]; simpl.
  - split; [intros _ e [] | reflexivity].
  - destruct (existsb _ kws) eqn:E.
    + apply existsb_includes in E. split; [discriminate|].
      intros H. exfalso. apply (H (t, kws)); auto.
    + rewrite IH. split.
      * intros H e [<- | He]; [|auto]. simpl. intros Hh.
        apply existsb_includes in Hh. congruence.
      * intros H e He. apply H. now right.
Qed.

Lemma occurs_toLowerCase (kw s : text) :
  occurs kw (Str.toLowerCase s) <-> occursNoCase kw s.
Proof.
  unfold occurs, occursNoCase, Str.toLowerCase. split.
  - intros [pre [post H]].
    apply map_eq_app in H. destruct H as [s1 [s2 [-> [H1 H2]]]].
    apply map_eq_app in H2. destruct H2 as [s3 [s4 [-> [H3 H4]]]].
    now exists s1, s3, s4.
  - intros [pre [mid [post [-> H]]]].
    exists (map Char.toLower pre), (map Char.toLower post).
    now rewrite !map_app, H.
Qed.

Lemma hits_toLowerCase (keywords : list text) (s : text) :
  hits keywords (Str.toLowerCase s) <-> hitsNoCase keywords s.
Proof.
  unfold hits, hitsNoCase. split; intros [kw [H1 H2]]; exists kw;
    (split; [exact H1 | now apply occurs_toLowerCase]).
Qed.

(** C7.  The classifier of [nlp.ts] visits the categories in the order work,
    health, personal, finance, learning, social.  It returns a category
    exactly when one of its keywords occurs in the text, up to case, and no
    keyword of an earlier category does; it returns nothing exactly when no
    keyword of any category occurs; and on "schedule a meeting with the
    client" it returns work. *)
Theorem nlp_detectCategory_first_match (text_ : text) :
  map fst Nlp.categoryKeywords = [work; health; personal; finance; learning; social] /\
  (forall c,
      Nlp.detectCategory text_ = Some c <->
      exists before keywords after,
        Nlp.categoryKeywords = before ++ (c, keywords) :: after /\
        hitsNoCase keywords text_ /\
        forall e, In e before -> ~ hitsNoCase (snd e) text_) /\
  (Nlp.detectCategory text_ = None <->
   forall e, In e Nlp.categoryKeywords -> ~ hitsNoCase (snd e) text_) /\
  Nlp.detectCategory (lit "schedule a meeting with the client") = Some work.
Proof.
  split; [reflexivity|]. split; [|split].
  - intros c. unfold Nlp.detectCategory. rewrite firstEntry_Some.
    split; intros [before [keywords [after [E [Hh Hb]]]]];
      exists before, keywords, after; (split; [exact E|]);
      (split; [now apply hits_toLowerCase|]);
      intros e He Hn; apply (Hb e He); now apply hits_toLowerCase.
  - unfold Nlp.detectCategory. rewrite firstEntry_None.
    split; intros H e He Hn; apply (H e He); now apply hits_toLowerCase.
  - reflexivity.
Qed.

(** ** The segmenter on the specification's example *)

(** C8.  "Go to the gym, call mom, pay the electric bill" yields three
    candidates, in the order of the segments and all selected: "Go to the
    gym" (health), "Call mom" (social), "Pay the electric bill" (finance). *)
Theorem parseInput_gym_mom_bill :
  DailyPrompt.parseInput (lit "Go to the gym, call mom, pay the electric bill") =
  [ {| DailyPrompt.title := lit "Go to the gym"; DailyPrompt.category := health;
       DailyPrompt.priority := medium; DailyPrompt.selected := true |};
    {| DailyPrompt.title := lit "Call mom"; DailyPrompt.category := social;
       DailyPrompt.priority := medium; DailyPrompt.selected := true |};
    {| DailyPrompt.title := lit "Pay the electric bill"; DailyPrompt.category := finance;
       DailyPrompt.priority := medium; DailyPrompt.selected := true |} ].
Proof. vm_compute. reflexivity. Qed.

(** ** Words, blanks and case *)

Lemma toLower_toUpper (c : ascii) :
  Char.isUpper c = false -> Char.toLower (Char.toUpper c) = c.
Proof.
  destruct c as [[] [] [] [] [] [] [] []]; vm_compute; congruence.
Qed.

Lemma isUpper_toLower (c : ascii) : Char.isUpper (Char.toLower c) = false.
Proof.
  destruct c as [[] [] [] [] [] [] [] []]; vm_compute; congruence.
Qed.

Lemma lowered_toLowerCase (s : text) : lowered (Str.toLowerCase s).
Proof.
  unfold lowered. induction s as [|c s IH]; simpl; [reflexivity|].
  now rewrite isUpper_toLower, IH.
Qed.

Lemma lowered_app (a b : text) : lowered (a ++ b) <-> lowered a /\ lowered b.
Proof. unfold lowered. now rewrite forallb_app, andb_true_iff. Qed.

Lemma lowered_ci_eq (w l : text) :
  lowered w -> lowered l -> Str.toUpperCase w = Str.toUpperCase l -> w = l.
Proof.
  unfold lowered. revert l. induction w as [|x w IH]; intros [|y l]; simpl;
    try discriminate; [reflexivity|].
  rewrite !andb_true_iff, !negb_true_iff. intros [Hx Hw] [Hy Hl] H.
  injection H as H1 H2. f_equal; [|now apply IH].
  now rewrite <- (toLower_toUpper x Hx), <- (toLower_toUpper y Hy), H1.
Qed.

Lemma Lang_seqs_cons (r : regex) (rs : list regex) (w : text) :
  Lang (Re.seqs (r :: rs)) w <->
  exists w1 w2, w = w1 ++ w2 /\ Lang r w1 /\ Lang (Re.seqs rs) w2.
Proof.
  destruct rs as [|r' rs]; [|reflexivity]. simpl. split.
  - intros H. exists w, []. now rewrite app_nil_r.
  - intros [w1 [w2 [-> [H ->]]]]. now rewrite app_nil_r.
Qed.

Lemma Lang_chars_ci (l w : text) :
  Lang (Re.seqs (map Re.chri l)) w <-> Str.toUpperCase w = Str.toUpperCase l.
Proof.
  revert w. induction l as [|c l IH]; intros w.
  - simpl. split; [now intros -> | now destruct w].
  - change (map Re.chri (c :: l)) with (Re.chri c :: map Re.chri l).
    rewrite Lang_seqs_cons. split.
    + intros [w1 [w2 [-> [[x [-> Hx]] H2]]]]. apply IH in H2. simpl.
      apply Ascii.eqb_eq in Hx. now rewrite Hx, H2.
    + destruct w as [|x w]; [discriminate|]. simpl. intros H. injection H as H1 H2.
      exists [x], w. split; [reflexivity|]. split; [|now apply IH].
      exists x. split; [reflexivity|]. now apply Ascii.eqb_eq.
Qed.

Lemma Lang_wordi (s : string) (w : text) :
  Lang (Re.wordi s) w <-> Str.toUpperCase w = Str.toUpperCase (lit s).
Proof. apply Lang_chars_ci. Qed.

Lemma starLang_cls (p : ascii -> bool) (w : text) :
  starLang (Lang (Cls p)) w <-> forallb p w = true.
Proof.
  split.
  - induction 1 as [|w1 w2 [c [-> Hc]] _ _ IH]; [reflexivity|].
    simpl. now rewrite Hc, IH.
  - induction w as [|c w IH]; simpl; [constructor|].
    rewrite andb_true_iff. intros [Hc Hw].
    change (c :: w) with ([c] ++ w). constructor; [| discriminate | auto].
    now exists c.
Qed.

Lemma Lang_Star_cls (p : ascii -> bool) (w : text) :
  Lang (Star (Cls p)) w <-> forallb p w = true.
Proof. apply starLang_cls. Qed.

Lemma Lang_Plus_cls (p : ascii -> bool) (w : text) :
  Lang (Re.Plus (Cls p)) w <-> w <> [] /\ forallb p w = true.
Proof.
  unfold Re.Plus. simpl. split.
  - intros [w1 [w2 [-> [[c [-> Hc]] H]]]]. apply starLang_cls in H.
    split; [discriminate|]. simpl. now rewrite Hc, H.
  - intros [Hne H]. destruct w as [|c w]; [congruence|]. simpl in H.
    apply andb_true_iff in H. destruct H as [Hc Hw].
    exists [c], w. split; [reflexivity|]. split; [now exists c | now apply starLang_cls].
Qed.

Lemma Lang_blank (ws : text) : Lang (Re.Plus Re.space) ws <-> blank ws.
Proof. apply Lang_Plus_cls. Qed.

(** ** Timeframe inference *)

Lemma namedDay_test (s : text) :
  lowered s -> (test Nlp.everyNamedDayRe s = true <-> namedDay s).
Proof.
  intros Hl. rewrite test_iff by reflexivity. unfold namedDay. split.
  - intros [pre [mid [post [-> L]]]].
    apply lowered_app in Hl. destruct Hl as [_ Hl]. apply lowered_app in Hl.
    destruct Hl as [Hl _].
    unfold Nlp.everyNamedDayRe in L.
    apply Lang_seqs_cons in L. destruct L as [w1 [r1 [-> [L1 L]]]].
    apply Lang_seqs_cons in L. destruct L as [w2 [r2 [-> [L2 L]]]].
    apply Lang_seqs_cons in L. destruct L as [w3 [r3 [-> [L3 L]]]].
    change (Lang (Re.wordi "day") r3) in L.
    apply lowered_app in Hl. destruct Hl as [H1 Hl]. apply lowered_app in Hl.
    destruct Hl as [_ Hl]. apply lowered_app in Hl. destruct Hl as [_ H4].
    apply Lang_wordi in L1, L. apply lowered_ci_eq in L1, L; try assumption;
      try reflexivity. subst w1 r3.
    apply Lang_blank in L2. apply Lang_Plus_cls in L3. destruct L3 as [N3 W3].
    exists pre, w2, w3, post. rewrite <- !app_assoc. auto.
  - intros [pre [ws [w [post [-> [Hb [Hn Hw]]]]]]].
    exists pre, (lit "every" ++ ws ++ w ++ lit "day"), post.
    split; [now rewrite <- !app_assoc|].
    unfold Nlp.everyNamedDayRe.
    apply Lang_seqs_cons. exists (lit "every"), (ws ++ w ++ lit "day").
    split; [reflexivity|]. split; [now apply Lang_wordi|].
    apply Lang_seqs_cons. exists ws, (w ++ lit "day").
    split; [reflexivity|]. split; [now apply Lang_blank|].
    apply Lang_seqs_cons. exists w, (lit "day").
    split; [reflexivity|]. split; [now apply Lang_Plus_cls|].
    now apply Lang_wordi.
Qed.



Lemma includes_occurs (kw s : text) : Str.includes kw s = true <-> occurs kw s.
Proof. apply includes_iff. Qed.




(** ** The single-task parser *)

(** C1, as the code has it.  [parseNaturalLanguage] is total; the title it
    returns is the cleaner's output as it stands (there is no fallback to
    the raw input inside the parser, so the title may be empty); the
    timeframe is one of daily, weekly, monthly, once and the priority one of
    low, medium, high.  For an input in which nothing is recognised (no
    date, no recurrence, no priority keyword) the timeframe is once, the
    priority medium and the optional date, time and recurrence are absent.
    The fallback to the raw input is made by the submitting form, whose
    title is non-empty whenever the trimmed input is. *)
Theorem parseNaturalLanguage_result (chronoParse : text -> list Nlp.ChronoResult)
    (now : Z) (input : text) :
  title (Nlp.parseNaturalLanguage chronoParse now input) = Nlp.cleanTitle input /\
  In (timeframe (Nlp.parseNaturalLanguage chronoParse now input))
     [daily; weekly; monthly; once] /\
  In (priority (Nlp.parseNaturalLanguage chronoParse now input)) [low; medium; high] /\
  (chronoParse input = [] ->
   Nlp.detectRecurrence input = None ->
   (forall e, In e Nlp.priorityKeywords -> ~ hits (snd e) (Str.toLowerCase input)) ->
   Nlp.parseNaturalLanguage chronoParse now input =
   {| title := Nlp.cleanTitle input; category := Nlp.detectCategory input;
      dueDate := None; dueTime := None; timeframe := once; recurrence := None;
      priority := medium |}) /\
  (Str.trim input <> [] -> Nlp.submittedTitle chronoParse now input <> []).
Proof.
  split; [reflexivity|]. split; [|split; [|split]].
  - destruct (timeframe _); simpl; auto.
  - destruct (priority _); simpl; auto.
  - intros Hc Hr Hp. unfold Nlp.parseNaturalLanguage. rewrite Hc, Hr.
    apply firstEntry_None in Hp. unfold Nlp.detectPriority. rewrite Hp.
    reflexivity.
  - intros Ht. unfold Nlp.submittedTitle.
    destruct (title _); [exact Ht | discriminate].
Qed.

Lemma parseNaturalLanguage_result_witness :
  Nlp.parseNaturalLanguage (fun _ => []) 0 (lit "water the plants") =
  {| title := lit "Water the plants"; category := None;
     dueDate := None; dueTime := None; timeframe := once; recurrence := None;
     priority := medium |} /\
  Nlp.submittedTitle (fun _ => []) 0 (lit "today") = lit "today".
Proof.
  destruct (parseNaturalLanguage_result (fun _ => []) 0 (lit "water the plants"))
    as [_ [_ [_ [H _]]]].
  split.
  - rewrite H.
    + vm_compute. reflexivity.
    + reflexivity.
    + vm_compute. reflexivity.
    + intros e He. rewrite <- existsb_includes.
      repeat (destruct He as [<- | He]; [vm_compute; discriminate|]).
      destruct He.
  - vm_compute. reflexivity.
Defined.

(** C1 as stated fails: the title of "today" is empty, whatever the date
    parser and the clock. *)
Lemma parseNaturalLanguage_empty_title :
  ~ (forall (chronoParse : text -> list Nlp.ChronoResult) (now : Z) (input : text),
        title (Nlp.parseNaturalLanguage chronoParse now input) <> []).
Proof.
  intros H. apply (H (fun _ => []) 0%Z (lit "today")). vm_compute. reflexivity.
Qed.

(** ** Rendering a recurrence *)

Lemma dayLabel_weekday (d : Z) :
  weekdayIndex d -> Nlp.dayLabel d = Returns (abbreviation d).
Proof.
  unfold weekdayIndex. intros H.
  assert (E : (d = 0 \/ d = 1 \/ d = 2 \/ d = 3 \/ d = 4 \/ d = 5 \/ d = 6)%Z) by lia.
  repeat (destruct E as [-> | E]; [reflexivity|]). now subst.
Qed.

Lemma dayLabels_weekdays (ds : list Z) :
  Forall weekdayIndex ds -> Nlp.dayLabels ds = Returns (map abbreviation ds).
Proof.
  induction 1 as [|d ds Hd _ IH]; simpl; [reflexivity|].
  now rewrite (dayLabel_weekday d Hd), IH.
Qed.

(** C9, as the code has it.  A daily pattern of interval 1 renders as
    "Daily" and of interval 3 as "Every 3 days".  A weekly pattern whose
    [days] is present and non-empty renders as "Every " followed by the
    comma-separated three-letter prefixes of the lower-case weekday names -
    "Every mon, wed" for days 1 and 3 - whatever its interval.  A pattern of
    an unrecognised type renders as the empty string. *)
Theorem formatRecurrence_rendering :
  (forall ds dom,
      Nlp.formatRecurrence {| type := RDaily; days := ds; dayOfMonth := dom;
                              interval := Some (Num 1) |} = Returns (lit "Daily")) /\
  (forall ds dom,
      Nlp.formatRecurrence {| type := RDaily; days := ds; dayOfMonth := dom;
                              interval := Some (Num 3) |} = Returns (lit "Every 3 days")) /\
  (forall d ds dom iv,
      Forall weekdayIndex (d :: ds) ->
      Nlp.formatRecurrence {| type := RWeekly; days := Some (d :: ds); dayOfMonth := dom;
                              interval := iv |} =
      Returns (lit "Every " ++ Str.join (lit ", ") (map abbreviation (d :: ds)))) /\
  (forall dom iv,
      Nlp.formatRecurrence {| type := RWeekly; days := Some [1; 3]%Z; dayOfMonth := dom;
                              interval := iv |} = Returns (lit "Every mon, wed")) /\
  (forall ds dom iv,
      Nlp.formatRecurrence {| type := RUnrecognized; days := ds; dayOfMonth := dom;
                              interval := iv |} = Returns []).
Proof.
  repeat split; try reflexivity.
  intros d ds dom iv H. unfold Nlp.formatRecurrence.
  cbn [type days]. now rewrite (dayLabels_weekdays (d :: ds) H).
Qed.

(** C9 as stated fails on its example: the labels are cut from the
    lower-case names, so days 1 and 3 do not render as "Every Mon, Wed". *)
Lemma formatRecurrence_labels_lower_case :
  Nlp.formatRecurrence {| type := RWeekly; days := Some [1; 3]%Z; dayOfMonth := None;
                          interval := Some (Num 1) |} <> Returns (lit "Every Mon, Wed").
Proof. vm_compute. discriminate. Qed.

(** ** The segmenter *)

Lemma Str_eqb_eq (a b : text) : Str.eqb a b = true <-> a = b.
Proof.
  revert b. induction a as [|x a IH]; intros [|y b]; simpl;
    try (split; [discriminate | discriminate]); [tauto|].
  rewrite andb_true_iff, Ascii.eqb_eq, IH. split.
  - now intros [-> ->].
  - intros H. now injection H.
Qed.


Lemma filter_filter {A : Type} (p q : A -> bool) (l : list A) :
  filter p (filter q l) = filter (fun x => q x && p x) l.
Proof.
  induction l as [|x l IH]; simpl; [reflexivity|].
  destruct (q x); simpl; [destruct (p x)|]; now rewrite IH.
Qed.







Lemma segmentsOf_long (input : text) :
  Forall (fun s => 2 < length s) (DailyPrompt.segmentsOf input).
Proof.
  apply Forall_forall. intros s H. apply filter_In in H. destruct H as [_ H].
  now apply Nat.ltb_lt in H.
Qed.

Lemma collect_long (segments : list text) :
  forall seen,
    Forall (fun t => 3 <= length (DailyPrompt.title t))
           (DailyPrompt.collect segments seen).
Proof.
  induction segments as [|segment more IH]; intros seen; simpl; [constructor|].
  destruct (length _ <? 3)%nat eqn:Hlen; [apply IH|].
  destruct (existsb _ seen); [apply IH|].
  constructor; [|apply IH]. simpl. now apply Nat.ltb_ge in Hlen.
Qed.

(** C5, on the input where the code departs from it.  "strengthen core" has
    no delimiter between words, yet it is cut after the letters "then" that
    end its first word: the candidates are "Streng" and "Core".  (What the
    claim says of the length filters holds: every segment kept is longer
    than two characters and every title has at least three.) *)
Theorem parseInput_cuts_strengthen :
  map DailyPrompt.title (DailyPrompt.parseInput (lit "strengthen core")) =
    [lit "Streng"; lit "Core"] /\
  split DailyPrompt.delimiterRe (lit "strengthen core") = [lit "streng"; lit "core"] /\
  (forall input, Forall (fun s => 2 < length s) (DailyPrompt.segmentsOf input)) /\
  (forall input, Forall (fun t => 3 <= length (DailyPrompt.title t))
                        (DailyPrompt.parseInput input)).
Proof.
  split; [vm_compute; reflexivity|]. split; [vm_compute; reflexivity|].
  split; [apply segmentsOf_long|]. intros input. apply collect_long.
Qed.

(** ** What [detectRecurrence] returns *)

Lemma exec_sound (r : regex) (s : text) (m : rmatched) :
  exec r s = Some m ->
  caps (mstart m) = [] /\ Reach r (mstart m) (mend m) /\
  exists pre, s = pre ++ rest (mstart m) /\ seen (mstart m) = rev pre.
Proof.
  intros H. apply searchFrom_sound in H. destruct H as [pre [H1 [H2 H3]]].
  split; [now rewrite H2|]. split; [exact H3|].
  exists pre. split; [exact H1|]. rewrite H2. simpl. apply app_nil_r.
Qed.







Lemma scanPatterns_Some (rows : list Nlp.RecurrenceRow) (s : text) (p : RecurrencePattern) :
  Nlp.scanPatterns rows s = Some p ->
  exists row m,
    In row rows /\ exec (Nlp.pattern row) s = Some m /\
    p = {| type := Nlp.rowType row; days := None; dayOfMonth := None;
           interval := Some (Nlp.intervalOf m) |}.
Proof.
  induction rows as [|row rows IH]; simpl; [discriminate|].
  destruct (exec (Nlp.pattern row) s) as [m|] eqn:E.
  - intros H. injection H as <-. exists row, m. auto.
  - intros H. destruct (IH H) as [row' [m [H1 H2]]]. exists row', m. auto.
Qed.






(** ** The title cleaner *)

Lemma takeBlanks_trimStart (s : text) : takeBlanks s ++ Str.trimStart s = s.
Proof.
  induction s as [|c s IH]; simpl; [reflexivity|].
  destruct (Char.isSpace c); simpl; [now rewrite IH | reflexivity].
Qed.

Lemma trimStart_length (s : text) : length (Str.trimStart s) <= length s.
Proof.
  induction s as [|c s IH]; simpl; [lia|]. destruct (Char.isSpace c); simpl; lia.
Qed.

Lemma iterate_space (n : nat) :
  forall sn rs cs, length rs <= n ->
    iterate (rmatch Re.space) n (MState sn rs cs) Some =
    Some (MState (rev (takeBlanks rs) ++ sn) (Str.trimStart rs) cs).
Proof.
  induction n as [|n IH]; intros sn rs cs Hn.
  - destruct rs; [reflexivity | simpl in Hn; lia].
  - destruct rs as [|c t]; [reflexivity|]. simpl in Hn.
    cbn [iterate rmatch Re.space rest seen caps takeBlanks Str.trimStart].
    destruct (Char.isSpace c); [|reflexivity].
    cbn [rest length]. rewrite (proj2 (Nat.ltb_lt _ _) (Nat.lt_succ_diag_r _)).
    rewrite IH by lia. simpl. now rewrite <- app_assoc.
Qed.

Lemma matchAt_blanks (sn rs : text) :
  matchAt (Re.Plus Re.space) sn rs =
  match rs with
  | c :: t =>
      if Char.isSpace c
      then Some (Matched (MState sn rs [])
                         (MState (rev (takeBlanks t) ++ c :: sn) (Str.trimStart t) []))
      else None
  | [] => None
  end.
Proof.
  unfold matchAt, Re.Plus. destruct rs as [|c t]; [reflexivity|].
  cbn [rmatch Re.space rest seen caps]. destruct (Char.isSpace c); [|reflexivity].
  change (rmatch (Cls Char.isSpace)) with (rmatch Re.space).
  now rewrite iterate_space.
Qed.

(** The first run of blanks, if any: the text before it and what follows
    its first character. *)
Lemma searchFrom_blanks (rs : text) :
  forall sn,
    (searchFrom (Re.Plus Re.space) sn rs = None /\
     forallb (fun c => negb (Char.isSpace c)) rs = true) \/
    (exists gap b tl,
        rs = gap ++ b :: tl /\ Char.isSpace b = true /\
        forallb (fun c => negb (Char.isSpace c)) gap = true /\
        searchFrom (Re.Plus Re.space) sn rs =
        Some (Matched (MState (rev gap ++ sn) (b :: tl) [])
                      (MState (rev (takeBlanks tl) ++ b :: rev gap ++ sn)
                              (Str.trimStart tl) []))).
Proof.
  induction rs as [|c t IH]; intros sn.
  - left. split; reflexivity.
  - cbn [searchFrom]. rewrite matchAt_blanks.
    destruct (Char.isSpace c) eqn:Hc.
    + right. exists [], c, t. simpl. auto.
    + destruct (IH (c :: sn)) as [[H1 H2] | [gap [b [tl [-> [Hb [Hg H]]]]]]].
      * left. simpl. now rewrite Hc, H2.
      * right. exists (c :: gap), b, tl. simpl. rewrite Hc, Hg, H.
        rewrite <- !app_assoc. simpl. auto.
Qed.

Lemma squash_nonblank (gap s : text) :
  forallb (fun c => negb (Char.isSpace c)) gap = true ->
  squash false (gap ++ s) = gap ++ squash false s.
Proof.
  induction gap as [|c gap IH]; simpl; [reflexivity|].
  rewrite andb_true_iff, negb_true_iff. intros [Hc Hg]. rewrite Hc. now rewrite IH.
Qed.

Lemma squash_after_blank (s : text) : squash true s = squash false (Str.trimStart s).
Proof.
  induction s as [|c s IH]; simpl; [reflexivity|].
  destruct (Char.isSpace c) eqn:Hc; [exact IH|]. simpl. now rewrite Hc.
Qed.

Lemma replaceLoop_blanks (n : nat) :
  forall rs sn, length rs < n ->
    replaceLoop n (Re.Plus Re.space) (fun _ => lit " ") sn rs = squash false rs.
Proof.
  induction n as [|n IH]; intros rs sn Hn; [lia|].
  cbn [replaceLoop].
  destruct (searchFrom_blanks rs sn) as [[H1 H2] | [gap [b [tl [-> [Hb [Hg H]]]]]]].
  - rewrite H1. rewrite <- (app_nil_r rs) at 2. rewrite squash_nonblank by exact H2.
    simpl. now rewrite app_nil_r.
  - rewrite H. unfold matchedText. cbn [mstart mend seen rest].
    assert (A1 : advances (MState sn (gap ++ b :: tl) []) gap
                          (MState (rev gap ++ sn) (b :: tl) [])) by now split.
    assert (A2 : advances (MState (rev gap ++ sn) (b :: tl) []) (b :: takeBlanks tl)
                          (MState (rev (takeBlanks tl) ++ b :: rev gap ++ sn)
                                  (Str.trimStart tl) [])).
    { split; simpl.
      - now rewrite takeBlanks_trimStart.
      - now rewrite <- app_assoc. }
    rewrite (advances_consumed _ _ _ A1), (advances_consumed _ _ _ A2).
    rewrite IH.
    + rewrite squash_nonblank by exact Hg. simpl. rewrite Hb.
      now rewrite squash_after_blank.
    + rewrite length_app in Hn. simpl in Hn.
      pose proof (trimStart_length tl). lia.
Qed.

Lemma squeeze_squash (s : text) : Nlp.squeeze s = Str.trim (squash false s).
Proof.
  unfold Nlp.squeeze, replaceAll. now rewrite replaceLoop_blanks by lia.
Qed.

Lemma tidy_squash_fix (s : text) : forall b, tidy b s = true -> squash b s = s.
Proof.
  induction s as [|c s IH]; intros b; simpl; [reflexivity|].
  destruct (Char.isSpace c).
  - rewrite !andb_true_iff, negb_true_iff, Ascii.eqb_eq.
    intros [[-> ->] H]. now rewrite IH.
  - intros H. now rewrite IH.
Qed.

Lemma tidy_squash (s : text) : forall b, tidy b (squash b s) = true.
Proof.
  induction s as [|c s IH]; intros b; simpl; [reflexivity|].
  destruct (Char.isSpace c) eqn:Hc.
  - destruct b; [apply IH|]. simpl. apply IH.
  - simpl. rewrite Hc. apply IH.
Qed.

Lemma tidy_trimStart (s : text) :
  forall b, tidy b s = true -> tidy false (Str.trimStart s) = true.
Proof.
  induction s as [|c s IH]; intros b; simpl; [reflexivity|].
  destruct (Char.isSpace c) eqn:Hc.
  - rewrite !andb_true_iff. intros [_ H]. now apply (IH true).
  - intros H. simpl. now rewrite Hc.
Qed.

Lemma tidy_trimEnd (s : text) :
  forall b, tidy b s = true -> tidy b (Str.trimEnd s) = true.
Proof.
  induction s as [|c s IH]; intros b; simpl; [reflexivity|].
  destruct (Char.isSpace c) eqn:Hc.
  - rewrite !andb_true_iff. intros [[Hb He] H]. apply IH in H.
    destruct (Str.trimEnd s) as [|x t]; [reflexivity|].
    cbn [tidy]. rewrite Hc, Hb, He. exact H.
  - intros H. apply IH in H.
    destruct (Str.trimEnd s) as [|x t]; cbn [tidy]; rewrite Hc; [reflexivity | exact H].
Qed.

Lemma noLeadingBlank_trimStart (s : text) : noLeadingBlank (Str.trimStart s).
Proof.
  induction s as [|c s IH]; simpl; [exact I|].
  destruct (Char.isSpace c) eqn:Hc; [exact IH | exact Hc].
Qed.

Lemma trimStart_fix (s : text) : noLeadingBlank s -> Str.trimStart s = s.
Proof. destruct s as [|c s]; simpl; [reflexivity | now intros ->]. Qed.

Lemma noLeadingBlank_trimEnd (s : text) :
  noLeadingBlank s -> noLeadingBlank (Str.trimEnd s).
Proof.
  destruct s as [|c s]; simpl; [auto|]. intros Hc. rewrite Hc.
  destruct (Str.trimEnd s); exact Hc.
Qed.

Lemma trimEnd_idempotent (s : text) : Str.trimEnd (Str.trimEnd s) = Str.trimEnd s.
Proof.
  induction s as [|c s IH]; simpl; [reflexivity|].
  destruct (Str.trimEnd s) as [|x t] eqn:E.
  - destruct (Char.isSpace c) eqn:Hc; simpl; [reflexivity | now rewrite Hc].
  - cbn [Str.trimEnd]. cbn [Str.trimEnd] in IH. now rewrite IH.
Qed.

Lemma trim_idempotent (s : text) : Str.trim (Str.trim s) = Str.trim s.
Proof.
  unfold Str.trim. rewrite (trimStart_fix (Str.trimEnd (Str.trimStart s))).
  - apply trimEnd_idempotent.
  - apply noLeadingBlank_trimEnd, noLeadingBlank_trimStart.
Qed.

Lemma squeeze_squeezed (s : text) : squeezed (Nlp.squeeze s).
Proof.
  rewrite squeeze_squash. split.
  - unfold Str.trim. apply tidy_trimEnd. eapply tidy_trimStart. apply tidy_squash.
  - apply trim_idempotent.
Qed.

Lemma squeeze_fix (t : text) : squeezed t -> Nlp.squeeze t = t.
Proof.
  intros [H1 H2]. rewrite squeeze_squash. now rewrite tidy_squash_fix.
Qed.

Lemma isSpace_toUpper (c : ascii) : Char.isSpace (Char.toUpper c) = Char.isSpace c.
Proof. destruct c as [[] [] [] [] [] [] [] []]; reflexivity. Qed.

Lemma toUpper_idempotent (c : ascii) : Char.toUpper (Char.toUpper c) = Char.toUpper c.
Proof. destruct c as [[] [] [] [] [] [] [] []]; reflexivity. Qed.

Lemma capitalize_squeezed (t : text) : squeezed t -> squeezed (Nlp.capitalize t).
Proof.
  intros [H1 H2]. destruct t as [|c t]; [now split|].
  assert (Hc : Char.isSpace c = false).
  { change (noLeadingBlank (c :: t)). rewrite <- H2. unfold Str.trim.
    apply noLeadingBlank_trimEnd, noLeadingBlank_trimStart. }
  unfold Str.trim in H2. simpl in H1, H2. rewrite Hc in H1, H2.
  split; simpl.
  - now rewrite isSpace_toUpper, Hc.
  - unfold Str.trim. simpl. rewrite isSpace_toUpper, Hc.
    simpl. rewrite isSpace_toUpper, Hc.
    cbn [Str.trimEnd] in H2. rewrite Hc in H2.
    destruct (Str.trimEnd t) as [|x t']; congruence.
Qed.

Lemma capitalize_idempotent (t : text) :
  Nlp.capitalize (Nlp.capitalize t) = Nlp.capitalize t.
Proof. destruct t as [|c t]; simpl; [reflexivity | now rewrite toUpper_idempotent]. Qed.

Lemma remove_no_match (r : regex) (t : text) : test r t = false -> Nlp.remove t r = t.
Proof.
  unfold test, exec, Nlp.remove, replaceAll. cbn [replaceLoop].
  now destruct (searchFrom r [] t).
Qed.

Lemma fold_remove_no_match (rs : list regex) (t : text) :
  Forall (fun r => test r t = false) rs -> fold_left Nlp.remove rs t = t.
Proof.
  induction 1 as [|r rs Hr _ IH]; simpl; [reflexivity|].
  now rewrite (remove_no_match r t Hr).
Qed.

(** C6, as the code has it.  Cleaning a cleaned title changes nothing when
    none of the six removal patterns matches the cleaned title; the blank
    squeezing and the capitalisation are idempotent by themselves. *)
Theorem cleanTitle_idempotent_on_clean (s : text) :
  Forall (fun r => test r (Nlp.cleanTitle s) = false) Nlp.patternsToRemove ->
  Nlp.cleanTitle (Nlp.cleanTitle s) = Nlp.cleanTitle s.
Proof.
  intros H. unfold Nlp.cleanTitle at 1. rewrite (fold_remove_no_match _ _ H).
  unfold Nlp.cleanTitle.
  set (y := Nlp.squeeze (fold_left Nlp.remove Nlp.patternsToRemove s)).
  rewrite (squeeze_fix (Nlp.capitalize y)).
  - apply capitalize_idempotent.
  - apply capitalize_squeezed, squeeze_squeezed.
Qed.

Lemma cleanTitle_idempotent_on_clean_witness :
  Nlp.cleanTitle (lit "call mom tomorrow") = lit "Call mom" /\
  Nlp.cleanTitle (Nlp.cleanTitle (lit "call mom tomorrow")) =
    Nlp.cleanTitle (lit "call mom tomorrow").
Proof.
  split; [vm_compute; reflexivity|].
  apply (cleanTitle_idempotent_on_clean (lit "call mom tomorrow")).
  repeat constructor; vm_compute; reflexivity.
Defined.

(** C6 as stated fails: removing "today" from "at today 5" leaves "At 5",
    which the first pattern then removes whole. *)
Lemma cleanTitle_not_idempotent :
  ~ (forall s : text, Nlp.cleanTitle (Nlp.cleanTitle s) = Nlp.cleanTitle s).
Proof.
  intros H. specialize (H (lit "at today 5")). vm_compute in H. discriminate H.
Qed.

(** ** The weekday list of [detectRecurrence] *)






Lemma weekday_cases (d : nat) :
  d < 7 -> d = 0 \/ d = 1 \/ d = 2 \/ d = 3 \/ d = 4 \/ d = 5 \/ d = 6.
Proof. lia. Qed.


Lemma dayName_head (i : nat) :
  i < 7 -> exists c x, dayName i = c :: x /\ separatorChar c = false.
Proof.
  intros Hi. apply weekday_cases in Hi.
  repeat (destruct Hi as [-> | Hi]); try subst i;
    eexists; eexists; (split; [reflexivity | vm_compute; reflexivity]).
Qed.








Lemma Lang_alts (r : regex) (rs : list regex) (w : text) :
  Lang (Re.alts r rs) w <-> Exists (fun r' => Lang r' w) (r :: rs).
Proof.
  revert r. induction rs as [|r' rs IH]; intros r; simpl.
  - split; [intros H; now constructor | intros H].
    inversion H as [? ? H1 | ? ? H1]; [exact H1 | inversion H1].
  - rewrite IH. split.
    + intros [H | H]; [now constructor | now apply Exists_cons_tl].
    + intros H. inversion H; auto.
Qed.

Lemma Lang_oneOfi (names : list string) (w : text) :
  Lang (Re.oneOfi names) w <->
  exists n, In n names /\ Str.toUpperCase w = Str.toUpperCase (lit n).
Proof.
  unfold Re.oneOfi. destruct names as [|n names]; cbn [map].
  - simpl. split; [intros [c [_ H]]; discriminate | intros [n [[] _]]].
  - rewrite Lang_alts, Exists_exists. split.
    + intros [r [Hin L]]. change (In r (map Re.wordi (n :: names))) in Hin.
      apply in_map_iff in Hin. destruct Hin as [n' [<- Hn']].
      exists n'. split; [exact Hn' | now apply Lang_wordi].
    + intros [n' [Hin E]]. exists (Re.wordi n'). split; [|now apply Lang_wordi].
      change (In (Re.wordi n') (map Re.wordi (n :: names))). now apply in_map.
Qed.

Lemma Lang_weekday (w : text) :
  lowered w -> (Lang Nlp.weekdayRe w <-> exists d, d < 7 /\ w = dayName d).
Proof.
  intros Hl. unfold Nlp.weekdayRe. rewrite Lang_oneOfi. split.
  - intros [n [Hin E]]. apply lowered_ci_eq in E; [|exact Hl|].
    + simpl in Hin.
      destruct Hin as [<- | [<- | [<- | [<- | [<- | [<- | [<- | []]]]]]]]; subst w;
        [exists 1 | exists 2 | exists 3 | exists 4 | exists 5 | exists 6 | exists 0];
        (split; [lia | reflexivity]).
    + simpl in Hin.
      destruct Hin as [<- | [<- | [<- | [<- | [<- | [<- | [<- | []]]]]]]]; reflexivity.
  - intros [d [Hd ->]]. apply weekday_cases in Hd.
    destruct Hd as [-> | [-> | [-> | [-> | [-> | [-> | ->]]]]]];
      [exists "sunday"%string | exists "monday"%string | exists "tuesday"%string
       | exists "wednesday"%string | exists "thursday"%string | exists "friday"%string
       | exists "saturday"%string];
      (split; [simpl; tauto | reflexivity]).
Qed.

Lemma Lang_separator (sep : text) :
  lowered sep -> (Lang Nlp.separatorRe sep <-> separator sep).
Proof.
  intros Hl. unfold Nlp.separatorRe, separator. split.
  - intros L. apply Lang_seqs_cons in L. destruct L as [b1 [r1 [-> [L1 L]]]].
    apply Lang_seqs_cons in L. destruct L as [w [r2 [-> [L2 L3]]]].
    change (Lang (Star Re.space) r2) in L3.
    apply Lang_Star_cls in L1, L3.
    apply lowered_app in Hl. destruct Hl as [_ Hl]. apply lowered_app in Hl.
    destruct Hl as [Hw _].
    exists b1, w, r2. split; [reflexivity|]. split; [exact L1|]. split; [|exact L3].
    destruct L2 as [L2 | L2].
    + left. change (Lang (Re.wordi ",") w) in L2. apply Lang_wordi in L2.
      now apply lowered_ci_eq in L2.
    + right. apply Lang_wordi in L2. now apply lowered_ci_eq in L2.
  - intros [b1 [w [b2 [-> [H1 [Hw H2]]]]]].
    apply Lang_seqs_cons. exists b1, (w ++ b2). split; [reflexivity|].
    split; [now apply Lang_Star_cls|].
    apply Lang_seqs_cons. exists w, b2. split; [reflexivity|]. split.
    + destruct Hw as [-> | ->]; [left | right].
      * change (Lang (Re.wordi ",") (lit ",")). now apply Lang_wordi.
      * now apply Lang_wordi.
    + change (Lang (Star Re.space) b2). now apply Lang_Star_cls.
Qed.

Lemma Lang_dayItem (x : text) :
  lowered x ->
  (Lang dayItemRe x <->
   exists d sep, d < 7 /\ x = dayName d ++ sep /\ (sep = [] \/ separator sep)).
Proof.
  intros Hl. unfold dayItemRe. split.
  - intros [w [sep [-> [Lw Ls]]]]. apply lowered_app in Hl. destruct Hl as [H1 H2].
    apply (Lang_weekday w H1) in Lw. destruct Lw as [d [Hd ->]].
    exists d, sep. split; [exact Hd|]. split; [reflexivity|].
    destruct Ls as [Ls | Ls]; [right; now apply Lang_separator | now left].
  - intros [d [sep [Hd [-> Hs]]]]. apply lowered_app in Hl. destruct Hl as [H1 H2].
    exists (dayName d), sep. split; [reflexivity|]. split.
    + apply (Lang_weekday _ H1). now exists d.
    + destruct Hs as [-> | Hs]; [now right | left; now apply Lang_separator].
Qed.

Lemma dayName_nonempty (d : nat) : d < 7 -> dayName d <> [].
Proof.
  intros Hd. destruct (dayName_head d Hd) as [c [x [-> _]]]. discriminate.
Qed.

Lemma starLang_dayItems (g : text) :
  lowered g -> (starLang (Lang dayItemRe) g <-> exists ds, dayItems g ds).
Proof.
  intros Hl. split.
  - intros H. induction H as [|x g' Lx _ _ IH].
    + exists []. constructor.
    + apply lowered_app in Hl. destruct Hl as [Hx Hg].
      destruct (IH Hg) as [ds Hds].
      apply (Lang_dayItem x Hx) in Lx. destruct Lx as [d [sep [Hd [-> Hs]]]].
      exists (d :: ds). rewrite <- app_assoc. now constructor.
  - intros [ds H]. induction H as [|d sep g ds Hd Hs _ IH].
    + constructor.
    + rewrite app_assoc. apply lowered_app in Hl. destruct Hl as [Hx Hg].
      apply lowered_app in Hg. destruct Hg as [Hsep Hg].
      constructor.
      * apply Lang_dayItem; [apply lowered_app; now split|]. now exists d, sep.
      * pose proof (dayName_nonempty d Hd). destruct (dayName d); [congruence | discriminate].
      * now apply IH.
Qed.

Lemma Lang_dayList (g : text) :
  lowered g ->
  (Lang (Re.Plus dayItemRe) g <-> exists ds, dayItems g ds /\ ds <> []).
Proof.
  intros Hl. unfold Re.Plus. split.
  - intros [x [g' [-> [Lx Lg]]]]. apply lowered_app in Hl. destruct Hl as [Hx Hg].
    change (starLang (Lang dayItemRe) g') in Lg.
    apply (starLang_dayItems g' Hg) in Lg. destruct Lg as [ds Hds].
    apply (Lang_dayItem x Hx) in Lx. destruct Lx as [d [sep [Hd [-> Hs]]]].
    exists (d :: ds). split; [|discriminate]. rewrite <- app_assoc. now constructor.
  - intros [ds [H Hne]]. destruct H as [|d sep g ds Hd Hs H]; [congruence|].
    apply lowered_app in Hl. destruct Hl as [Hx Hg].
    apply lowered_app in Hg. destruct Hg as [Hsep Hg].
    exists (dayName d ++ sep), g. split; [now rewrite <- app_assoc|]. split.
    + apply Lang_dayItem; [apply lowered_app; now split|]. now exists d, sep.
    + change (starLang (Lang dayItemRe) g). apply starLang_dayItems; [exact Hg|].
      now exists ds.
Qed.

Lemma Lang_everyDays (ws g : text) (ds : list nat) :
  lowered g -> blank ws -> dayItems g ds -> ds <> [] ->
  Lang Nlp.everyDaysRe (lit "every" ++ ws ++ g).
Proof.
  intros Hg Hb Hds Hne. unfold Nlp.everyDaysRe.
  apply Lang_seqs_cons. exists (lit "every"), (ws ++ g).
  split; [reflexivity|]. split; [now apply Lang_wordi|].
  apply Lang_seqs_cons. exists ws, g.
  split; [reflexivity|]. split; [now apply Lang_blank|].
  change (Lang (Re.Plus dayItemRe) g). apply Lang_dayList; [exact Hg|]. now exists ds.
Qed.

Lemma everyWeekdaysAt_matchAt (s pre g post : text) (ds : list nat) :
  lowered s -> everyWeekdaysAt s pre g post ds ->
  exists tl, s = pre ++ tl /\ matchAt Nlp.everyDaysRe (rev pre) tl <> None.
Proof.
  intros Hl [ws [-> [Hb [Hds Hne]]]].
  exists (lit "every" ++ ws ++ g ++ post). split; [reflexivity|].
  assert (Hg : lowered g).
  { apply lowered_app in Hl. destruct Hl as [_ Hl].
    apply lowered_app in Hl. destruct Hl as [_ Hl].
    apply lowered_app in Hl. destruct Hl as [_ Hl].
    apply lowered_app in Hl. now destruct Hl. }
  pose proof (Lang_everyDays ws g ds Hg Hb Hds Hne) as L.
  destruct (Lang_Reach Nlp.everyDaysRe eq_refl _
              (MState (rev pre) (lit "every" ++ ws ++ g ++ post) []) L post)
    as [st' [R _]].
  { simpl. now rewrite <- !app_assoc. }
  destruct (matchAt_complete _ _ _ _ R) as [m Hm]. rewrite Hm. discriminate.
Qed.

(** The search returns the leftmost match. *)
Lemma searchFrom_leftmost (r : regex) (rs : text) :
  forall sn m, searchFrom r sn rs = Some m ->
    forall sk tl, rs = sk ++ tl ->
      length sk + length sn < length (seen (mstart m)) ->
      matchAt r (rev sk ++ sn) tl = None.
Proof.
  induction rs as [|c rs IH]; intros sn m; cbn [searchFrom];
    destruct (matchAt r sn _) as [m'|] eqn:E.
  - intros H. injection H as <-. apply matchAt_sound in E. destruct E as [E _].
    rewrite E. simpl. intros; lia.
  - discriminate.
  - intros H. injection H as <-. apply matchAt_sound in E. destruct E as [E _].
    rewrite E. simpl. intros; lia.
  - intros H sk tl Hs Hlen. destruct sk as [|c' sk]; simpl in Hs.
    + subst tl. exact E.
    + injection Hs as <- ->. simpl. rewrite <- app_assoc. simpl.
      apply (IH _ _ H); [reflexivity|]. simpl in *. lia.
Qed.

(** With a continuation that always succeeds, so does the iteration. *)
Lemma iterate_total (m : mstate -> cont -> option mstate) (k : cont) :
  (forall st, k st <> None) -> forall n st, iterate m n st k <> None.
Proof.
  intros Hk n. induction n as [|n IH]; intros st; simpl; [apply Hk|].
  destruct (m st _); [discriminate | apply Hk].
Qed.

(** The iteration is greedy: with a continuation that always succeeds and
    keeps the position, it stops only where no further word of the
    iterated pattern begins. *)
Lemma iterate_greedy (a : regex) (k : cont) :
  plain a = true ->
  (forall st, k st <> None) ->
  (forall st e, k st = Some e -> rest e = rest st) ->
  forall n st e,
    length (rest st) <= n ->
    iterate (rmatch a) n st k = Some e ->
    forall w tl, rest e = w ++ tl -> w <> [] -> ~ Lang a w.
Proof.
  intros Hp Hk Hr n. induction n as [|n IH]; intros st e Hn H w tl Hw Hne L.
  - simpl in H. apply Hr in H. rewrite H in Hw.
    destruct (rest st); [|simpl in Hn; lia]. destruct w; [congruence | discriminate].
  - simpl in H.
    destruct (rmatch a st _) as [e'|] eqn:E.
    + injection H as ->. apply rmatch_sound in E. destruct E as [st1 [R1 H1]].
      destruct (length (rest st1) <? length (rest st)) eqn:Hlt; [|discriminate].
      apply Nat.ltb_lt in Hlt.
      apply (IH st1 e ltac:(lia) H1 w tl Hw Hne L).
    + apply Hr in H. rewrite H in Hw.
      destruct (Lang_Reach a Hp w st L tl Hw) as [st' [R [A _]]].
      assert (Hlt : length (rest st') < length (rest st)).
      { apply advances_length in A. destruct w; [congruence | simpl in A; lia]. }
      destruct (iterate (rmatch a) n st' k) as [e1|] eqn:E1;
        [|now apply iterate_total in E1].
      destruct (rmatch_complete a st st'
                  (fun st' => if length (rest st') <? length (rest st)
                              then iterate (rmatch a) n st' k else None) e1 R)
        as [e2 He2].
      * apply Nat.ltb_lt in Hlt. now rewrite Hlt.
      * congruence.
Qed.

(** Where the match of [everyDaysRe] ends, no weekday name begins. *)
Lemma everyDays_greedy (s : text) (m : rmatched) :
  exec Nlp.everyDaysRe s = Some m ->
  forall w tl, rest (mend m) = w ++ tl -> w <> [] -> ~ Lang dayItemRe w.
Proof.
  unfold exec. intros H.
  assert (M : exists sn rs, rmatch Nlp.everyDaysRe (MState sn rs []) Some = Some (mend m)).
  { clear -H. revert H. generalize (@nil ascii). induction s as [|c s IH]; intros sn;
      cbn [searchFrom]; unfold matchAt at 1;
      destruct (rmatch Nlp.everyDaysRe _ Some) as [e|] eqn:E.
    - intros H. injection H as <-. eauto.
    - discriminate.
    - intros H. injection H as <-. eauto.
    - apply IH. }
  destruct M as [sn [rs M]].
  change Nlp.everyDaysRe
    with (Seq (Re.wordi "every")
            (Seq (Re.Plus Re.space) (Group 1 (Seq dayItemRe (Star dayItemRe))))) in M.
  cbn [rmatch] in M.
  apply rmatch_sound in M. destruct M as [st1 [_ M]].
  apply rmatch_sound in M. destruct M as [st2 [_ M]].
  apply rmatch_sound in M. destruct M as [st3 [_ M]].
  eapply iterate_greedy; [reflexivity | | | apply Nat.le_refl | exact M].
  - discriminate.
  - intros st e He. now injection He as <-.
Qed.

Lemma startsWith_false (k s : text) :
  Str.startsWith k s = false <-> forall tl, s <> k ++ tl.
Proof.
  split.
  - intros H tl E. assert (X : Str.startsWith k s = true) by (apply startsWith_iff; eauto).
    congruence.
  - intros H. destruct (Str.startsWith k s) eqn:E; [|reflexivity].
    apply startsWith_iff in E. destruct E as [tl E]. now apply H in E.
Qed.

Lemma everyDays_sound (s : text) (m : rmatched) :
  lowered s -> exec Nlp.everyDaysRe s = Some m ->
  exists g ds, group m 1 = Some g /\ lowered g /\ firstEveryWeekdays s g ds.
Proof.
  intros Hl H. pose proof H as G. pose proof H as F.
  apply exec_sound in H. destruct H as [C0 [H [pre [Hs Hpre]]]].
  destruct H as [st1 [R1 [st2 [R2 [st2' [R3 E]]]]]].
  apply Reach_Lang in R1, R2, R3.
  destruct R1 as [w1 [A1 L1]], R2 as [w2 [A2 L2]], R3 as [g [A3 L3]].
  destruct A1 as [E1 _]. destruct A2 as [E2 _]. pose proof A3 as [E3 _].
  assert (Ep : rest st2' = rest (mend m)) by now rewrite E.
  rewrite E1, E2, E3, Ep in Hs.
  pose proof Hl as Hl'. rewrite Hs in Hl'.
  apply lowered_app in Hl'. destruct Hl' as [_ Hl'].
  apply lowered_app in Hl'. destruct Hl' as [H1 Hl'].
  apply lowered_app in Hl'. destruct Hl' as [_ Hl'].
  apply lowered_app in Hl'. destruct Hl' as [Hg Hpost].
  apply Lang_wordi, lowered_ci_eq in L1; [|exact H1 | reflexivity]. subst w1.
  apply Lang_blank in L2.
  change (Lang (Re.Plus dayItemRe) g) in L3.
  apply (Lang_dayList g Hg) in L3. destruct L3 as [ds [Hds Hne]].
  exists g, ds. split; [|split; [exact Hg|]].
  - unfold group. rewrite E. simpl. now rewrite (advances_consumed _ _ _ A3).
  - exists pre, (rest (mend m)). split; [now exists w2|]. split.
    + intros pre' g' post' ds' Hat.
      destruct (le_lt_dec (length pre) (length pre')) as [Hle | Hlt]; [exact Hle|].
      exfalso. destruct (everyWeekdaysAt_matchAt s pre' g' post' ds' Hl Hat)
        as [tl [Htl Hm]].
      apply Hm. unfold exec in F.
      rewrite <- (app_nil_r (rev pre')).
      apply (searchFrom_leftmost _ _ _ _ F pre' tl Htl).
      rewrite Hpre, length_rev. simpl. lia.
    + intros d Hd. apply startsWith_false. intros tl Htl.
      apply (everyDays_greedy s m G (dayName d) tl Htl (dayName_nonempty d Hd)).
      apply Lang_dayItem.
      * rewrite Htl in Hpost. apply lowered_app in Hpost. now destruct Hpost.
      * exists d, []. rewrite app_nil_r. auto.
Qed.




(** ** Patterns with assertions *)

Lemma Reach_Accepts (r : regex) :
  forall st st', Reach r st st' ->
    exists w, advances st w st' /\ Accepts r (seen st) w (rest st').
Proof.
  induction r as [|p|a IHa b IHb|a IHa b IHb|a IHa|i a IHa| | |]; simpl; intros st st' H.
  - subst. exists []. split; [apply advances_refl | reflexivity].
  - destruct H as [c [H1 [Hp [H2 _]]]]. exists [c]. split; [now split | eauto].
  - destruct H as [st1 [Ha Hb]].
    destruct (IHa _ _ Ha) as [w1 [A1 L1]]. destruct (IHb _ _ Hb) as [w2 [A2 L2]].
    exists (w1 ++ w2). split; [eapply advances_trans; eassumption|].
    exists w1, w2. split; [reflexivity|].
    destruct A1 as [_ S1], A2 as [R2 _]. rewrite <- R2, <- S1. auto.
  - destruct H as [H | H]; [apply IHa in H | apply IHb in H];
      destruct H as [w [A L]]; exists w; auto.
  - induction H as [st | st st1 st2 H1 Hlt _ [w2 [A2 L2]]].
    + exists []. split; [apply advances_refl | constructor].
    + destruct (IHa _ _ H1) as [w1 [A1 L1]]. exists (w1 ++ w2). split.
      * eapply advances_trans; eassumption.
      * pose proof A1 as [_ S1]. pose proof A2 as [R2 _].
        constructor.
        -- now rewrite <- R2.
        -- eapply advances_nil_inv; eassumption.
        -- now rewrite <- S1.
  - destruct H as [st1 [Ha ->]]. destruct (IHa _ _ Ha) as [w [A L]].
    exists w. split; [exact A | exact L].
  - destruct H as [Hx ->]. exists []. split; [apply advances_refl|]. split; [reflexivity|].
    exact Hx.
  - destruct H as [Hx ->]. exists []. split; [apply advances_refl|]. now split.
  - destruct H as [Hx ->]. exists []. split; [apply advances_refl|]. now split.
Qed.

Lemma Accepts_Reach (r : regex) :
  forall w st rt, Accepts r (seen st) w rt -> rest st = w ++ rt ->
    exists st', Reach r st st' /\ advances st w st' /\ rest st' = rt.
Proof.
  induction r as [|p|a IHa b IHb|a IHa b IHb|a IHa|i a IHa| | |]; simpl;
    intros w st rt H Hr.
  - subst. exists st. repeat split; auto.
  - destruct H as [c [-> Hc]]. exists (MState (c :: seen st) rt (caps st)).
    simpl. repeat split; auto. exists c. auto.
  - destruct H as [w1 [w2 [-> [L1 L2]]]]. rewrite <- app_assoc in Hr.
    destruct (IHa _ _ _ L1 Hr) as [st1 [R1 [A1 E1]]].
    pose proof A1 as [_ S1]. rewrite <- S1 in L2.
    destruct (IHb _ _ _ L2 E1) as [st2 [R2 [A2 E2]]].
    exists st2. split; [now exists st1|]. split; [|exact E2].
    eapply advances_trans; eassumption.
  - destruct H as [H | H].
    + destruct (IHa _ _ _ H Hr) as [st' [R [A E]]]. exists st'. auto.
    + destruct (IHb _ _ _ H Hr) as [st' [R [A E]]]. exists st'. auto.
  - remember (seen st) as sn eqn:Hs. revert st Hs Hr.
    induction H as [sn rt|sn w1 w2 rt L1 Hne _ IH]; intros st Hs Hr.
    + exists st. repeat split; auto. constructor.
    + rewrite <- app_assoc in Hr. subst sn.
      destruct (IHa _ _ _ L1 Hr) as [st1 [R1 [A1 E1]]].
      pose proof A1 as [_ S1].
      destruct (IH st1 (eq_sym S1) E1) as [st2 [R2 [A2 E2]]].
      exists st2. split; [|split; [eapply advances_trans; eassumption | exact E2]].
      econstructor; [exact R1 | | exact R2].
      apply advances_length in A1. destruct w1; [congruence | simpl in A1; lia].
  - destruct (IHa _ _ _ H Hr) as [st1 [R [A E]]].
    eexists. split; [exists st1; split; [exact R | reflexivity] |].
    split; [exact A | exact E].
  - destruct H as [-> Hb]. exists st. split; [|split; [apply advances_refl | exact Hr]].
    split; [|reflexivity]. simpl in Hr. unfold wordBefore, wordAfter. rewrite Hr. exact Hb.
  - destruct H as [-> Hb]. exists st. split; [|split; [apply advances_refl | exact Hr]].
    now split.
  - destruct H as [-> Hb]. exists st. split; [|split; [apply advances_refl | exact Hr]].
    split; [|reflexivity]. simpl in Hr. now rewrite Hr.
Qed.

(** [r.test(s)]: some stretch of [s] is accepted by [r] where it stands. *)
Lemma test_Accepts (r : regex) (s : text) :
  test r s = true <->
  exists pre w post, s = pre ++ w ++ post /\ Accepts r (rev pre) w post.
Proof.
  unfold test. split.
  - destruct (exec r s) as [m|] eqn:E; [intros _ | discriminate].
    apply exec_sound in E. destruct E as [_ [R [pre [Hs Hp]]]].
    apply Reach_Accepts in R. destruct R as [w [[A _] L]].
    exists pre, w, (rest (mend m)). split; [now rewrite Hs, A|]. now rewrite <- Hp.
  - intros [pre [w [post [-> L]]]].
    destruct (Accepts_Reach r w (MState (rev pre ++ []) (w ++ post) []) post)
      as [st' [R _]]; [simpl; now rewrite app_nil_r | reflexivity |].
    destruct (searchFrom_complete r pre [] _ _ R) as [m Hm].
    unfold exec. now rewrite Hm.
Qed.

Lemma Accepts_plain (r : regex) :
  plain r = true -> forall sn w rt, Accepts r sn w rt <-> Lang r w.
Proof.
  induction r as [|p|a IHa b IHb|a IHa b IHb|a IHa|i a IHa| | |]; simpl;
    intros Hp sn w rt; try discriminate; try reflexivity.
  - apply andb_true_iff in Hp. destruct Hp as [Pa Pb]. split.
    + intros [w1 [w2 [-> [H1 H2]]]]. exists w1, w2. split; [reflexivity|].
      split; [now apply (IHa Pa) in H1 | now apply (IHb Pb) in H2].
    + intros [w1 [w2 [-> [H1 H2]]]]. exists w1, w2. split; [reflexivity|].
      split; [now apply (IHa Pa) | now apply (IHb Pb)].
  - apply andb_true_iff in Hp. destruct Hp as [Pa Pb].
    now rewrite (IHa Pa), (IHb Pb).
  - split.
    + induction 1 as [|sn w1 w2 rt H1 Hne _ IH]; constructor; auto.
      now apply (IHa Hp) in H1.
    + intros H. revert sn. induction H as [|w1 w2 H1 Hne _ IH]; intros sn; constructor; auto.
      now apply (IHa Hp).
  - now apply IHa.
Qed.

Lemma Lang_word (s : string) (w : text) : Lang (Re.word s) w <-> w = lit s.
Proof.
  unfold Re.word. generalize (lit s) as l. intros l. revert w.
  induction l as [|c l IH]; intros w.
  - reflexivity.
  - change (map Re.chr (c :: l)) with (Re.chr c :: map Re.chr l).
    rewrite Lang_seqs_cons. split.
    + intros [w1 [w2 [-> [[x [-> Hx]] H2]]]]. apply IH in H2.
      apply Ascii.eqb_eq in Hx. now subst.
    + intros ->. exists [c], l. split; [reflexivity|]. split; [|now apply IH].
      exists c. split; [reflexivity|]. apply Ascii.eqb_refl.
Qed.

Lemma Lang_oneOf (names : list string) (w : text) :
  Lang (Re.oneOf names) w <-> exists n, In n names /\ w = lit n.
Proof.
  unfold Re.oneOf. destruct names as [|n names]; cbn [map].
  - simpl. split; [intros [c [_ H]]; discriminate | intros [n [[] _]]].
  - rewrite Lang_alts, Exists_exists. split.
    + intros [r [Hin L]]. change (In r (map Re.word (n :: names))) in Hin.
      apply in_map_iff in Hin. destruct Hin as [n' [<- Hn']].
      exists n'. split; [exact Hn' | now apply Lang_word].
    + intros [n' [Hin E]]. exists (Re.word n'). split; [|now apply Lang_word].
      change (In (Re.word n') (map Re.word (n :: names))). now apply in_map.
Qed.

Lemma plain_alts (r : regex) (rs : list regex) :
  plain r = true -> forallb plain rs = true -> plain (Re.alts r rs) = true.
Proof.
  revert r. induction rs as [|r' rs IH]; intros r Hr Hrs; simpl; [exact Hr|].
  simpl in Hrs. apply andb_true_iff in Hrs. destruct Hrs as [H1 H2].
  now rewrite Hr, IH.
Qed.

Lemma plain_word (s : string) : plain (Re.word s) = true.
Proof.
  unfold Re.word. generalize (lit s) as l. intros l.
  induction l as [|c [|c' l] IH]; try reflexivity.
  change (plain (Re.chr c) && plain (Re.seqs (map Re.chr (c' :: l))) = true).
  now rewrite IH.
Qed.

Lemma plain_oneOf (ws : list string) : plain (Re.oneOf ws) = true.
Proof.
  unfold Re.oneOf. destruct ws as [|w ws]; [reflexivity|]. cbn [map].
  apply plain_alts; [apply plain_word|].
  induction ws as [|w' ws IH]; [reflexivity|]. simpl. now rewrite plain_word, IH.
Qed.

Lemma endsInWord_boundary (pre w : text) :
  startsInWord w = true ->
  forall post, boundaryAt (rev pre) (w ++ post) = negb (endsInWord pre).
Proof.
  intros Hw post. unfold boundaryAt, endsInWord.
  destruct w as [|c w]; [discriminate|]. simpl in *. rewrite Hw.
  now destruct (rev pre) as [|x l]; [|destruct (Char.isWord x)].
Qed.

Lemma startsInWord_boundary (pre w post : text) :
  endsInWord w = true ->
  boundaryAt (rev w ++ rev pre) post = negb (startsInWord post).
Proof.
  intros Hw. unfold boundaryAt, endsInWord, startsInWord in *.
  destruct (rev w) as [|c l]; [discriminate|]. simpl. rewrite Hw.
  now destruct post as [|x l']; [|destruct (Char.isWord x)].
Qed.

(** [/\b(w1|w2|...)\b/.test(s)]: one of the phrases stands in [s] as a
    whole word. *)
Lemma test_wholeWord (ws : list string) (s : text) :
  forallb wordEnded ws = true ->
  (test (wholeWordRe ws) s = true <-> wholeWord ws s).
Proof.
  intros Hws. rewrite test_Accepts. unfold wholeWord, wholeWordRe.
  assert (E : forall w, In w ws ->
                        startsInWord (lit w) = true /\ endsInWord (lit w) = true).
  { intros w Hw. rewrite forallb_forall in Hws. apply Hws in Hw.
    now apply andb_true_iff in Hw. }
  split.
  - intros [pre [w [post [-> H]]]].
    destruct H as [w1 [w2 [-> [[-> B1] [w3 [w4 [-> [A [-> B2]]]]]]]]].
    apply (Accepts_plain _ (plain_oneOf ws)) in A.
    apply Lang_oneOf in A. destruct A as [n [Hn ->]].
    destruct (E n Hn) as [S1 S2].
    simpl in B1, B2. rewrite app_nil_r in *.
    rewrite (endsInWord_boundary pre (lit n) S1) in B1.
    rewrite (startsInWord_boundary pre (lit n) post S2) in B2.
    apply negb_true_iff in B1, B2.
    exists pre, n, post. simpl. auto.
  - intros [pre [n [post [-> [Hn [B1 B2]]]]]].
    destruct (E n Hn) as [S1 S2].
    exists pre, (lit n), post. split; [reflexivity|].
    exists [], (lit n). split; [reflexivity|]. split.
    + split; [reflexivity|]. simpl.
      rewrite (endsInWord_boundary pre (lit n) S1). now rewrite B1.
    + exists (lit n), []. split; [now rewrite app_nil_r|]. split.
      * apply (Accepts_plain _ (plain_oneOf ws)). apply Lang_oneOf. now exists n.
      * split; [reflexivity|]. simpl.
        rewrite (startsInWord_boundary pre (lit n) post S2). now rewrite B2.
Qed.

(** ** The priority classifier of [nlp.ts] *)

(** X1.  [detectPriority] of [nlp.ts] tries the keywords of high, then of
    medium, then of low, as substrings of the text up to case: a high
    keyword gives high; otherwise a medium keyword gives medium (even when
    a low keyword occurs too); otherwise a low keyword gives low; and with
    no keyword at all the result is medium. *)
Theorem nlp_detectPriority_order (text_ : text) :
  (hitsNoCase (priorityWords high) text_ /\ Nlp.detectPriority text_ = high) \/
  (~ hitsNoCase (priorityWords high) text_ /\
   hitsNoCase (priorityWords medium) text_ /\ Nlp.detectPriority text_ = medium) \/
  (~ hitsNoCase (priorityWords high) text_ /\
   ~ hitsNoCase (priorityWords medium) text_ /\
   hitsNoCase (priorityWords low) text_ /\ Nlp.detectPriority text_ = low) \/
  (~ hitsNoCase (priorityWords high) text_ /\
   ~ hitsNoCase (priorityWords medium) text_ /\
   ~ hitsNoCase (priorityWords low) text_ /\ Nlp.detectPriority text_ = medium).
Proof.
  unfold Nlp.detectPriority, Nlp.priorityKeywords, priorityWords.
  cbn [Nlp.firstEntry filter flat_map fst snd samePriority Nlp.priorityKeywords app].
  rewrite !app_nil_r.
  set (s := Str.toLowerCase text_).
  destruct (existsb _ (map lit ["urgent"; _; _; _; _; _; _]%string)) eqn:H.
  { left. apply existsb_includes, hits_toLowerCase in H. auto. }
  assert (NH : ~ hitsNoCase
                 (map lit ["urgent"; "important"; "critical"; "asap"; "immediately";
                           "priority"; "must"]%string) text_).
  { intros X. apply hits_toLowerCase, existsb_includes in X. fold s in X. congruence. }
  right.
  destruct (existsb _ (map lit ["should"; _; _]%string)) eqn:M.
  { left. apply existsb_includes, hits_toLowerCase in M. auto. }
  assert (NM : ~ hitsNoCase (map lit ["should"; "need to"; "plan to"]%string) text_).
  { intros X. apply hits_toLowerCase, existsb_includes in X. fold s in X. congruence. }
  right.
  destruct (existsb _ (map lit ["maybe"; _; _; _; _]%string)) eqn:L.
  { left. apply existsb_includes, hits_toLowerCase in L. auto. }
  right. repeat split; auto.
  intros X. apply hits_toLowerCase, existsb_includes in X. fold s in X. congruence.
Qed.

(** ** Counted recurrences *)

Lemma counted_row_phrase (unit : string) (s : text) :
  lowered s -> unit = "day"%string \/ unit = "week"%string ->
  test (Re.seqs [Re.wordi "every"; Re.Plus Re.space; Group 1 (Re.Plus Re.digit);
                 Re.Plus Re.space; Re.wordi unit; Re.Opt (Re.chri "s")]) s = true ->
  countedPhrase s.
Proof.
  intros Hl Hu H. apply test_iff in H; [|destruct Hu as [-> | ->]; reflexivity].
  destruct H as [pre [mid [post [-> L]]]].
  apply Lang_seqs_cons in L. destruct L as [w1 [r1 [-> [L1 L]]]].
  apply Lang_seqs_cons in L. destruct L as [w2 [r2 [-> [L2 L]]]].
  apply Lang_seqs_cons in L. destruct L as [w3 [r3 [-> [L3 L]]]].
  apply Lang_seqs_cons in L. destruct L as [w4 [r4 [-> [L4 L]]]].
  apply Lang_seqs_cons in L. destruct L as [w5 [r5 [-> [L5 L]]]].
  apply lowered_app in Hl. destruct Hl as [_ Hl]. apply lowered_app in Hl.
  destruct Hl as [Hl _].
  apply lowered_app in Hl. destruct Hl as [H1 Hl].
  apply lowered_app in Hl. destruct Hl as [_ Hl].
  apply lowered_app in Hl. destruct Hl as [_ Hl].
  apply lowered_app in Hl. destruct Hl as [_ Hl].
  apply lowered_app in Hl. destruct Hl as [H5 _].
  apply Lang_wordi, lowered_ci_eq in L1; [|exact H1 | reflexivity]. subst w1.
  apply Lang_wordi, lowered_ci_eq in L5;
    [|exact H5 | destruct Hu as [-> | ->]; reflexivity].
  apply Lang_blank in L2, L4. change (Lang (Re.Plus Re.digit) w3) in L3.
  apply Lang_Plus_cls in L3. destruct L3 as [N3 D3].
  exists pre, w2, w3, w4, w5, (r5 ++ post). rewrite <- !app_assoc.
  split; [reflexivity|]. split; [exact L2|]. split; [exact N3|]. split; [exact D3|].
  split; [exact L4|]. subst w5. destruct Hu as [-> | ->]; auto.
Qed.

Lemma exec_test (r : regex) (s : text) (m : rmatched) :
  exec r s = Some m -> test r s = true.
Proof. unfold test. now intros ->. Qed.



(** ** The planner's classifiers *)

(** X3.  The planner's [detectPriority] looks for whole words in the
    lower-cased text: a high phrase standing as a whole word gives high;
    otherwise a low phrase standing as a whole word gives low; otherwise
    the result is medium.  A keyword inside a longer word does not
    count. *)
Theorem planner_detectPriority_whole_words (text_ : text) :
  DailyPrompt.highRe = wholeWordRe highPhrases /\
  DailyPrompt.lowRe = wholeWordRe lowPhrases /\
  ((wholeWord highPhrases (Str.toLowerCase text_) /\
    DailyPrompt.detectPriority text_ = high) \/
   (~ wholeWord highPhrases (Str.toLowerCase text_) /\
    wholeWord lowPhrases (Str.toLowerCase text_) /\
    DailyPrompt.detectPriority text_ = low) \/
   (~ wholeWord highPhrases (Str.toLowerCase text_) /\
    ~ wholeWord lowPhrases (Str.toLowerCase text_) /\
    DailyPrompt.detectPriority text_ = medium)).
Proof.
  split; [reflexivity|]. split; [reflexivity|].
  unfold DailyPrompt.detectPriority.
  change DailyPrompt.highRe with (wholeWordRe highPhrases).
  change DailyPrompt.lowRe with (wholeWordRe lowPhrases).
  set (s := Str.toLowerCase text_).
  pose proof (test_wholeWord highPhrases s eq_refl) as TH.
  pose proof (test_wholeWord lowPhrases s eq_refl) as TL.
  destruct (test (wholeWordRe highPhrases) s).
  { left. split; [now apply TH | reflexivity]. }
  right. assert (NH : ~ wholeWord highPhrases s) by (intros X; apply TH in X; discriminate).
  destruct (test (wholeWordRe lowPhrases) s).
  { left. split; [exact NH|]. split; [now apply TL | reflexivity]. }
  right. split; [exact NH|]. split; [|reflexivity].
  intros X. apply TL in X. discriminate.
Qed.

(** X4.  The planner's [detectCategory] always resolves, in this order of
    precedence, on whole words of the lower-cased text: a work phrase gives
    work; otherwise a health phrase gives health; otherwise a finance
    phrase gives finance; otherwise a social phrase gives social;
    otherwise the learning pattern gives learning unless the text is a
    booking action; and everything else is personal. *)
Theorem planner_detectCategory_precedence (text_ : text) :
  (DailyPrompt.workRe = wholeWordRe workPhrases /\
   DailyPrompt.healthRe = wholeWordRe healthPhrases /\
   DailyPrompt.financeRe = wholeWordRe financePhrases /\
   DailyPrompt.socialRe = wholeWordRe socialPhrases) /\
  ((wholeWord workPhrases (Str.toLowerCase text_) /\
    DailyPrompt.detectCategory text_ = work) \/
   (~ wholeWord workPhrases (Str.toLowerCase text_) /\
    ((wholeWord healthPhrases (Str.toLowerCase text_) /\
      DailyPrompt.detectCategory text_ = health) \/
     (~ wholeWord healthPhrases (Str.toLowerCase text_) /\
      ((wholeWord financePhrases (Str.toLowerCase text_) /\
        DailyPrompt.detectCategory text_ = finance) \/
       (~ wholeWord financePhrases (Str.toLowerCase text_) /\
        ((wholeWord socialPhrases (Str.toLowerCase text_) /\
          DailyPrompt.detectCategory text_ = social) \/
         (~ wholeWord socialPhrases (Str.toLowerCase text_) /\
          DailyPrompt.detectCategory text_ =
          if negb (test DailyPrompt.bookingRe (Str.toLowerCase text_))
             && test DailyPrompt.learningRe (Str.toLowerCase text_)
          then learning else personal)))))))).
Proof.
  split; [repeat split|].
  unfold DailyPrompt.detectCategory.
  change DailyPrompt.workRe with (wholeWordRe workPhrases).
  change DailyPrompt.healthRe with (wholeWordRe healthPhrases).
  change DailyPrompt.financeRe with (wholeWordRe financePhrases).
  change DailyPrompt.socialRe with (wholeWordRe socialPhrases).
  set (s := Str.toLowerCase text_).
  pose proof (test_wholeWord workPhrases s eq_refl) as TW.
  pose proof (test_wholeWord healthPhrases s eq_refl) as TH.
  pose proof (test_wholeWord financePhrases s eq_refl) as TF.
  pose proof (test_wholeWord socialPhrases s eq_refl) as TS.
  destruct (test (wholeWordRe workPhrases) s).
  { left. split; [now apply TW | reflexivity]. }
  right. split; [intros X; apply TW in X; discriminate|].
  destruct (test (wholeWordRe healthPhrases) s).
  { left. split; [now apply TH | reflexivity]. }
  right. split; [intros X; apply TH in X; discriminate|].
  destruct (test (wholeWordRe financePhrases) s).
  { left. split; [now apply TF | reflexivity]. }
  right. split; [intros X; apply TF in X; discriminate|].
  destruct (test (wholeWordRe socialPhrases) s).
  { left. split; [now apply TS | reflexivity]. }
  right. split; [intros X; apply TS in X; discriminate|].
  cbv zeta.
  destruct (negb (test DailyPrompt.bookingRe s) && test DailyPrompt.learningRe s);
    [reflexivity|].
  now destruct (test DailyPrompt.personalRe s).
Qed.

(** ** Replacement never lengthens *)

Lemma searchFrom_parts (r : regex) (sn rs : text) (m : rmatched) :
  searchFrom r sn rs = Some m ->
  exists gap hit,
    rs = gap ++ hit ++ rest (mend m) /\
    consumed (MState sn rs []) (mstart m) = gap /\
    matchedText m = hit /\
    seen (mstart m) = rev gap ++ sn.
Proof.
  intros H. apply searchFrom_sound in H. destruct H as [gap [H1 [H2 R]]].
  apply Reach_Lang in R. destruct R as [hit [A _]].
  exists gap, hit. pose proof A as [A1 _].
  split; [now rewrite H1, A1|]. split; [|split].
  - apply advances_consumed. split; simpl; [exact H1 | now rewrite H2].
  - now apply advances_consumed.
  - now rewrite H2.
Qed.



Lemma replaceFirst_parts (r : regex) (f : text -> text) (s : text) :
  replaceFirst r f s = s \/
  exists pre hit post, s = pre ++ hit ++ post /\ replaceFirst r f s = pre ++ f hit ++ post.
Proof.
  unfold replaceFirst, exec. destruct (searchFrom r [] s) as [m|] eqn:E; [|now left].
  right. destruct (searchFrom_parts r [] s m E) as [gap [hit [Hrs [_ [-> Hs]]]]].
  exists gap, hit, (rest (mend m)). split; [exact Hrs|].
  now rewrite Hs, app_nil_r, rev_involutive.
Qed.

Lemma replaceFirst_length (r : regex) (f : text -> text) (s : text) :
  (forall x, length (f x) <= length x) -> length (replaceFirst r f s) <= length s.
Proof.
  intros Hf. destruct (replaceFirst_parts r f s) as [-> | [pre [hit [post [E ->]]]]]; [lia|].
  apply (f_equal (@length ascii)) in E. rewrite !length_app in *.
  pose proof (Hf hit). lia.
Qed.

Lemma trimEnd_length (s : text) : length (Str.trimEnd s) <= length s.
Proof.
  induction s as [|c s IH]; simpl; [lia|].
  destruct (Str.trimEnd s); [destruct (Char.isSpace c)|]; simpl in *; lia.
Qed.

Lemma trim_length (s : text) : length (Str.trim s) <= length s.
Proof.
  unfold Str.trim. pose proof (trimEnd_length (Str.trimStart s)).
  pose proof (trimStart_length s). lia.
Qed.


(** ** The shape of a cleaned title *)

Lemma tidy_blank_is_space (s : text) :
  forall b c, tidy b s = true -> In c s -> Char.isSpace c = true -> c = " "%char.
Proof.
  induction s as [|x s IH]; intros b c; simpl; [intros _ []|].
  destruct (Char.isSpace x) eqn:Hx.
  - rewrite !andb_true_iff, Ascii.eqb_eq. intros [[_ E] H] [<- | Hin] Hc; eauto.
  - intros H [<- | Hin] Hc; [congruence | eauto].
Qed.

Lemma tidy_no_double_blank (s : text) :
  forall b pre c1 c2 post,
    tidy b s = true -> s = pre ++ c1 :: c2 :: post ->
    Char.isSpace c1 = true -> Char.isSpace c2 = false.
Proof.
  induction s as [|x s IH]; intros b pre c1 c2 post H E H1.
  - destruct pre; discriminate.
  - destruct pre as [|y pre]; simpl in E; injection E as -> ->.
    + simpl in H. rewrite H1 in H. simpl in H. apply andb_true_iff in H.
      destruct H as [_ H]. destruct (Char.isSpace c2); [|reflexivity].
      simpl in H. discriminate.
    + simpl in H. destruct (Char.isSpace y).
      * apply andb_true_iff in H. destruct H as [_ H]. eapply IH; eauto.
      * eapply IH; eauto.
Qed.

Lemma trimEnd_last (s : text) :
  forall body c, Str.trimEnd s = body ++ [c] -> Char.isSpace c = false.
Proof.
  induction s as [|x s IH]; intros body c; simpl.
  - destruct body; discriminate.
  - destruct (Str.trimEnd s) as [|y t] eqn:E.
    + destruct (Char.isSpace x) eqn:Hx; [destruct body; discriminate|].
      destruct body as [|z body]; [now intros [= <-]|].
      intros H. injection H as _ H. destruct body; discriminate.
    + destruct body as [|z body]; [discriminate|].
      intros H. injection H as _ H. eapply IH. exact H.
Qed.

Lemma isLower_toUpper (c : ascii) : Char.isLower (Char.toUpper c) = false.
Proof. destruct c as [[] [] [] [] [] [] [] []]; reflexivity. Qed.

(** X5.  A cleaned title is tidy: its only blanks are single spaces, never
    two in a row, it neither begins nor ends with a blank, and it does not
    begin with a lower-case letter. *)
Theorem cleanTitle_shape (s : text) :
  (forall c, In c (Nlp.cleanTitle s) -> Char.isSpace c = true -> c = " "%char) /\
  (forall pre c1 c2 post,
      Nlp.cleanTitle s = pre ++ c1 :: c2 :: post ->
      Char.isSpace c1 = true -> Char.isSpace c2 = false) /\
  (forall c tl, Nlp.cleanTitle s = c :: tl ->
                Char.isSpace c = false /\ Char.isLower c = false) /\
  (forall body c, Nlp.cleanTitle s = body ++ [c] -> Char.isSpace c = false).
Proof.
  unfold Nlp.cleanTitle.
  set (y := Nlp.squeeze (fold_left Nlp.remove Nlp.patternsToRemove s)).
  destruct (capitalize_squeezed y (squeeze_squeezed _)) as [T1 T2].
  split; [|split; [|split]].
  - intros c. now apply (tidy_blank_is_space _ false).
  - intros pre c1 c2 post. apply (tidy_no_double_blank _ false). exact T1.
  - intros c tl E. split.
    + change (noLeadingBlank (c :: tl)). rewrite <- E, <- T2. unfold Str.trim.
      apply noLeadingBlank_trimEnd, noLeadingBlank_trimStart.
    + destruct y as [|x y']; [discriminate|]. simpl in E. injection E as <- _.
      apply isLower_toUpper.
  - intros body c E. rewrite <- T2 in E. unfold Str.trim in E.
    eapply trimEnd_last. exact E.
Qed.


(** ** Stripping the edges of a segment *)

Lemma iterate_cls (p : ascii -> bool) (n : nat) :
  forall sn rs cs, length rs <= n ->
    iterate (rmatch (Cls p)) n (MState sn rs cs) Some =
    Some (MState (rev (takeBy p rs) ++ sn) (dropBy p rs) cs).
Proof.
  induction n as [|n IH]; intros sn rs cs Hn.
  - destruct rs; [reflexivity | simpl in Hn; lia].
  - destruct rs as [|c t]; [reflexivity|]. simpl in Hn.
    cbn [iterate rmatch rest seen caps takeBy dropBy].
    destruct (p c); [|reflexivity].
    cbn [rest length]. rewrite (proj2 (Nat.ltb_lt _ _) (Nat.lt_succ_diag_r _)).
    rewrite IH by lia. simpl. now rewrite <- app_assoc.
Qed.

Lemma iterate_cls_eol (p : ascii -> bool) (n : nat) :
  forall sn rs cs, length rs <= n ->
    iterate (rmatch (Cls p)) n (MState sn rs cs) (fun st => rmatch Eol st Some) =
    if forallb p rs then Some (MState (rev rs ++ sn) [] cs) else None.
Proof.
  induction n as [|n IH]; intros sn rs cs Hn.
  - destruct rs; [reflexivity | simpl in Hn; lia].
  - destruct rs as [|c t]; [reflexivity|]. simpl in Hn.
    cbn [iterate rmatch rest seen caps forallb].
    destruct (p c); [|reflexivity].
    cbn [rest length andb]. rewrite (proj2 (Nat.ltb_lt _ _) (Nat.lt_succ_diag_r _)).
    rewrite IH by lia. destruct (forallb p t); [|reflexivity].
    simpl. now rewrite <- app_assoc.
Qed.

Lemma matchAt_edges_start (rs : text) :
  matchAt DailyPrompt.edgesRe [] rs =
  match rs with
  | c :: t =>
      if DailyPrompt.isEdge c
      then Some (Matched (MState [] rs [])
                   (MState (rev (takeBy DailyPrompt.isEdge t) ++ [c])
                           (dropBy DailyPrompt.isEdge t) []))
      else None
  | [] => None
  end.
Proof.
  unfold matchAt, DailyPrompt.edgesRe, Re.Plus. destruct rs as [|c t]; [reflexivity|].
  cbn [rmatch seen rest caps]. destruct (DailyPrompt.isEdge c); [|reflexivity].
  pose proof (iterate_cls DailyPrompt.isEdge (length t) [c] t [] (le_n _)) as I.
  cbn [rmatch] in I. now rewrite I.
Qed.

Lemma matchAt_edges_later (x : ascii) (sn rs : text) :
  matchAt DailyPrompt.edgesRe (x :: sn) rs =
  match rs with
  | _ :: _ =>
      if forallb DailyPrompt.isEdge rs
      then Some (Matched (MState (x :: sn) rs []) (MState (rev rs ++ x :: sn) [] []))
      else None
  | [] => None
  end.
Proof.
  unfold matchAt, DailyPrompt.edgesRe, Re.Plus. destruct rs as [|c t]; [reflexivity|].
  cbn [rmatch seen rest caps forallb]. destruct (DailyPrompt.isEdge c); [|reflexivity].
  pose proof (iterate_cls_eol DailyPrompt.isEdge (length t) (c :: x :: sn) t [] (le_n _)) as I.
  cbn [rmatch] in I. rewrite I. cbn [andb].
  destruct (forallb DailyPrompt.isEdge t); [|reflexivity].
  simpl. now rewrite <- app_assoc.
Qed.

Lemma searchFrom_edges_later (rs : text) :
  forall x sn,
    (dropEndBy DailyPrompt.isEdge rs = rs /\
     searchFrom DailyPrompt.edgesRe (x :: sn) rs = None) \/
    (exists c run,
        rs = dropEndBy DailyPrompt.isEdge rs ++ c :: run /\
        searchFrom DailyPrompt.edgesRe (x :: sn) rs =
        Some (Matched
                (MState (rev (dropEndBy DailyPrompt.isEdge rs) ++ x :: sn) (c :: run) [])
                (MState (rev (c :: run) ++ rev (dropEndBy DailyPrompt.isEdge rs) ++ x :: sn)
                        [] []))).
Proof.
  induction rs as [|c t IH]; intros x sn.
  - left. split; reflexivity.
  - cbn [searchFrom dropEndBy]. rewrite matchAt_edges_later.
    destruct (forallb DailyPrompt.isEdge (c :: t)) eqn:F.
    + right. exists c, t. split; reflexivity.
    + destruct (IH c (x :: sn)) as [[E1 E2] | [d [run [E1 E2]]]].
      * left. now rewrite E1, E2.
      * right. exists d, run. split; [cbn [app]; f_equal; exact E1|].
        rewrite E2. cbn [rev]. now rewrite <- !app_assoc.
Qed.

Lemma replaceLoop_end (r : regex) (f : text -> text) (n : nat) (sn : text) :
  matchAt r sn [] = None -> replaceLoop n r f sn [] = [].
Proof.
  intros H. destruct n; [reflexivity|]. cbn [replaceLoop searchFrom]. now rewrite H.
Qed.

Lemma consumed_skip (sn rs gap : text) (st : mstate) :
  seen st = rev gap ++ sn -> rs = gap ++ rest st ->
  consumed (MState sn rs []) st = gap.
Proof. intros H1 H2. apply advances_consumed. split; simpl; assumption. Qed.

Lemma replaceLoop_edges_later (n : nat) (x : ascii) (sn rs : text) :
  replaceLoop (S n) DailyPrompt.edgesRe (fun _ => []) (x :: sn) rs =
  dropEndBy DailyPrompt.isEdge rs.
Proof.
  cbn [replaceLoop].
  destruct (searchFrom_edges_later rs x sn) as [[E1 E2] | [c [run [E1 E2]]]].
  - now rewrite E2, E1.
  - rewrite E2. cbn [mstart mend rest].
    rewrite (consumed_skip (x :: sn) rs (dropEndBy DailyPrompt.isEdge rs))
      by (simpl; auto).
    unfold matchedText. cbn [mstart mend].
    assert (C : consumed
                  (MState (rev (dropEndBy DailyPrompt.isEdge rs) ++ x :: sn) (c :: run) [])
                  (MState (rev (c :: run) ++ rev (dropEndBy DailyPrompt.isEdge rs) ++ x :: sn)
                     [] []) = c :: run).
    { apply advances_consumed. split; simpl; [now rewrite app_nil_r | reflexivity]. }
    rewrite C. cbn [app seen].
    rewrite replaceLoop_end; [now rewrite app_nil_r|].
    destruct (rev (c :: run) ++ rev (dropEndBy DailyPrompt.isEdge rs) ++ x :: sn) eqn:Z.
    + now rewrite matchAt_edges_start.
    + now rewrite matchAt_edges_later.
Qed.

Lemma dropEndBy_keeps_head (p : ascii -> bool) (c : ascii) (t : text) :
  p c = false -> dropEndBy p (c :: t) = c :: dropEndBy p t.
Proof. intros H. cbn [dropEndBy forallb]. now rewrite H. Qed.

(** The second step of [cleanTaskText] drops the run of edge characters at
    the start of the text and the one at its end. *)
Lemma replaceAll_edges (s : text) :
  replaceAll DailyPrompt.edgesRe (fun _ => []) s =
  dropEndBy DailyPrompt.isEdge (dropBy DailyPrompt.isEdge s).
Proof.
  unfold replaceAll. destruct s as [|c t]; [reflexivity|].
  cbn [replaceLoop searchFrom dropBy]. rewrite matchAt_edges_start.
  destruct (DailyPrompt.isEdge c) eqn:Hc.
  - cbn [mstart mend rest seen].
    rewrite (consumed_skip [] (c :: t) []) by reflexivity.
    unfold matchedText. cbn [mstart mend].
    assert (C : consumed (MState [] (c :: t) [])
                  (MState (rev (takeBy DailyPrompt.isEdge t) ++ [c])
                     (dropBy DailyPrompt.isEdge t) []) =
                c :: takeBy DailyPrompt.isEdge t).
    { apply advances_consumed. split; simpl.
      - f_equal. clear. induction t as [|x t IH]; [reflexivity|].
        simpl. destruct (DailyPrompt.isEdge x); [|reflexivity]. simpl. now f_equal.
      - now rewrite app_nil_r. }
    rewrite C. cbn [app].
    destruct (rev (takeBy DailyPrompt.isEdge t) ++ [c]) as [|x sn] eqn:Z.
    + destruct (rev (takeBy DailyPrompt.isEdge t)); discriminate.
    + change (length (c :: t)) with (S (length t)). apply replaceLoop_edges_later.
  - rewrite dropEndBy_keeps_head by exact Hc.
    destruct (searchFrom_edges_later t c []) as [[E1 E2] | [d [run [E1 E2]]]].
    + now rewrite E2, E1.
    + rewrite E2. cbn [mstart mend rest seen].
      rewrite (consumed_skip [] (c :: t) (c :: dropEndBy DailyPrompt.isEdge t));
        [| simpl; now rewrite <- app_assoc, app_nil_r | simpl; now rewrite <- E1].
      unfold matchedText. cbn [mstart mend].
      assert (C : consumed
                    (MState (rev (dropEndBy DailyPrompt.isEdge t) ++ [c]) (d :: run) [])
                    (MState (rev (d :: run) ++ rev (dropEndBy DailyPrompt.isEdge t) ++ [c])
                       [] []) = d :: run).
      { apply advances_consumed. split; simpl; [now rewrite app_nil_r | reflexivity]. }
      rewrite C. cbn [app].
      rewrite replaceLoop_end; [now rewrite app_nil_r|].
      destruct (rev (d :: run) ++ rev (dropEndBy DailyPrompt.isEdge t) ++ [c]) eqn:Z.
      * now rewrite matchAt_edges_start.
      * now rewrite matchAt_edges_later.
Qed.

Lemma dropBy_head (p : ascii -> bool) (s : text) :
  forall c tl, dropBy p s = c :: tl -> p c = false.
Proof.
  induction s as [|x s IH]; intros c tl; simpl; [discriminate|].
  destruct (p x) eqn:Hx; [apply IH|]. now intros [= <- _].
Qed.

Lemma dropEndBy_nil (p : ascii -> bool) (s : text) :
  dropEndBy p s = [] -> forallb p s = true.
Proof.
  destruct s as [|c t]; [reflexivity|]. cbn [dropEndBy].
  destruct (forallb p (c :: t)); [reflexivity | discriminate].
Qed.

Lemma dropEndBy_last (p : ascii -> bool) (s : text) :
  forall body c, dropEndBy p s = body ++ [c] -> p c = false.
Proof.
  induction s as [|x s IH]; intros body c.
  - destruct body; discriminate.
  - cbn [dropEndBy]. destruct (forallb p (x :: s)) eqn:F.
    + destruct body; discriminate.
    + destruct body as [|y body]; simpl.
      * intros [= <- E]. apply dropEndBy_nil in E. simpl in F. rewrite E in F.
        now rewrite andb_true_r in F.
      * intros [= _ E]. eapply IH. exact E.
Qed.

Lemma dropEndBy_head (p : ascii -> bool) (s : text) :
  forall c tl, dropEndBy p s = c :: tl -> exists tl', s = c :: tl'.
Proof.
  destruct s as [|x s]; intros c tl; cbn [dropEndBy]; [discriminate|].
  destruct (forallb p (x :: s)); [discriminate|]. intros [= <- _]. now exists s.
Qed.

Lemma dropBy_length (p : ascii -> bool) (s : text) : length (dropBy p s) <= length s.
Proof. induction s as [|c s IH]; simpl; [lia|]. destruct (p c); simpl; lia. Qed.

Lemma dropEndBy_length (p : ascii -> bool) (s : text) :
  length (dropEndBy p s) <= length s.
Proof.
  induction s as [|c s IH]; [simpl; lia|]. cbn [dropEndBy].
  destruct (forallb p (c :: s)); simpl; lia.
Qed.

Lemma isEdge_toUpper (c : ascii) :
  DailyPrompt.isEdge (Char.toUpper c) = DailyPrompt.isEdge c.
Proof. destruct c as [[] [] [] [] [] [] [] []]; reflexivity. Qed.

Lemma isEdge_blank (c : ascii) :
  DailyPrompt.isEdge c = false ->
  Char.isSpace c = false /\ Char.isLineTerminator c = false.
Proof. destruct c as [[] [] [] [] [] [] [] []]; simpl; intros H; (discriminate || (split; reflexivity)). Qed.

(** The third step of [cleanTaskText]: the first character, unless it is a
    line terminator, is put in upper case. *)
Lemma replaceFirst_firstChar (s : text) :
  replaceFirst DailyPrompt.firstCharRe Str.toUpperCase s =
  match s with
  | c :: t => if Char.isLineTerminator c then s else Char.toUpper c :: t
  | [] => []
  end.
Proof.
  unfold replaceFirst, exec. destruct s as [|c t]; [reflexivity|].
  cbn [searchFrom]. unfold matchAt, DailyPrompt.firstCharRe, Re.dot.
  cbn [rmatch seen rest caps].
  destruct (Char.isLineTerminator c) eqn:L; cbn [negb].
  - assert (N : forall t' sn x, searchFrom (Seq Bol (Cls (fun c => negb (Char.isLineTerminator c))))
                             (x :: sn) t' = None).
    { induction t' as [|y t' IH]; intros sn x; [reflexivity|].
      cbn [searchFrom]. unfold matchAt. cbn [rmatch seen]. apply IH. }
    now rewrite N.
  - reflexivity.
Qed.

Lemma trimEnd_keeps (s : text) :
  (forall body c, s = body ++ [c] -> Char.isSpace c = false) -> Str.trimEnd s = s.
Proof.
  induction s as [|x s IH]; intros H; [reflexivity|]. simpl.
  destruct s as [|y s].
  - simpl. rewrite (H [] x eq_refl). reflexivity.
  - rewrite IH; [reflexivity|]. intros body c E. apply (H (x :: body) c).
    simpl. now rewrite E.
Qed.

(** What [cleanTaskText] computes, step by step: the prefix is removed, the
    edge characters are dropped at both ends, and the first character that
    is left is put in upper case; the final [trim] then changes nothing. *)
Lemma cleanTaskText_form (s : text) :
  DailyPrompt.cleanTaskText s =
  match dropEndBy DailyPrompt.isEdge
          (dropBy DailyPrompt.isEdge
             (replaceFirst DailyPrompt.prefixRe (fun _ => []) s)) with
  | [] => []
  | c :: t => Char.toUpper c :: t
  end.
Proof.
  unfold DailyPrompt.cleanTaskText. rewrite replaceAll_edges, replaceFirst_firstChar.
  set (u := replaceFirst DailyPrompt.prefixRe (fun _ => []) s).
  pose proof (dropEndBy_last DailyPrompt.isEdge (dropBy DailyPrompt.isEdge u)) as La.
  pose proof (dropEndBy_head DailyPrompt.isEdge (dropBy DailyPrompt.isEdge u)) as Hd.
  destruct (dropEndBy DailyPrompt.isEdge (dropBy DailyPrompt.isEdge u)) as [|c t] eqn:E;
    [reflexivity|].
  destruct (Hd c t eq_refl) as [tl' Hu].
  pose proof (dropBy_head _ _ _ _ Hu) as Hc.
  destruct (isEdge_blank c Hc) as [Hs Hl]. rewrite Hl.
  assert (Hs' : Char.isSpace (Char.toUpper c) = false).
  { apply isEdge_blank. now rewrite isEdge_toUpper. }
  unfold Str.trim. cbn [Str.trimStart]. rewrite Hs'.
  apply trimEnd_keeps. intros body x Hx. apply isEdge_blank.
  destruct body as [|b body]; simpl in Hx.
  - injection Hx as <- _. now rewrite isEdge_toUpper.
  - injection Hx as _ Hx. apply (La (c :: body) x). simpl. now rewrite Hx.
Qed.

Lemma cleanTaskText_length (s : text) :
  length (DailyPrompt.cleanTaskText s) <= length s.
Proof.
  rewrite cleanTaskText_form.
  pose proof (replaceFirst_length DailyPrompt.prefixRe (fun _ => []) s
                (fun _ => Nat.le_0_l _)) as L0.
  set (u := replaceFirst DailyPrompt.prefixRe (fun _ => []) s) in *.
  pose proof (dropBy_length DailyPrompt.isEdge u) as L1.
  pose proof (dropEndBy_length DailyPrompt.isEdge (dropBy DailyPrompt.isEdge u)) as L2.
  destruct (dropEndBy DailyPrompt.isEdge (dropBy DailyPrompt.isEdge u)); simpl in *; lia.
Qed.


(** ** Where the planner's titles come from *)

Lemma occurs_refl (s : text) : occurs s s.
Proof. exists [], []. now rewrite app_nil_r. Qed.

Lemma occurs_trans (a b c : text) : occurs a b -> occurs b c -> occurs a c.
Proof.
  intros [p1 [q1 ->]] [p2 [q2 ->]]. exists (p2 ++ p1), (q1 ++ q2).
  now rewrite <- !app_assoc.
Qed.

Lemma occurs_suffix (pre s : text) : occurs s (pre ++ s).
Proof. exists pre, []. now rewrite app_nil_r. Qed.


Lemma trimEnd_prefix (s : text) : exists ws, s = Str.trimEnd s ++ ws.
Proof.
  induction s as [|c s [ws IH]]; [now exists []|]. cbn [Str.trimEnd].
  destruct (Str.trimEnd s) as [|y t] eqn:E.
  - destruct (Char.isSpace c).
    + now exists (c :: s).
    + exists ws. cbn [app] in *. now f_equal.
  - exists ws. cbn [app] in *. now f_equal.
Qed.

Lemma trim_occurs (s : text) : occurs (Str.trim s) s.
Proof.
  unfold Str.trim. destruct (trimEnd_prefix (Str.trimStart s)) as [ws E].
  exists (takeBlanks s), ws. rewrite <- E. symmetry. apply takeBlanks_trimStart.
Qed.

Lemma dropBy_suffix (p : ascii -> bool) (s : text) : s = takeBy p s ++ dropBy p s.
Proof. induction s as [|c s IH]; simpl; [reflexivity|]. destruct (p c); simpl; congruence. Qed.

Lemma dropEndBy_prefix (p : ascii -> bool) (s : text) :
  exists post, s = dropEndBy p s ++ post.
Proof.
  induction s as [|c s [post IH]]; [now exists []|]. cbn [dropEndBy].
  destruct (forallb p (c :: s)).
  - now exists (c :: s).
  - exists post. simpl. now rewrite <- IH.
Qed.

(** A pattern that begins with [^] matches at the start of the text only. *)
Lemma replaceFirst_anchored (r : regex) (f : text -> text) (s : text) :
  replaceFirst (Seq Bol r) f s = s \/
  exists hit post, s = hit ++ post /\ replaceFirst (Seq Bol r) f s = f hit ++ post.
Proof.
  unfold replaceFirst. destruct (exec (Seq Bol r) s) as [m|] eqn:E; [|now left].
  right. unfold exec in E. pose proof (searchFrom_sound _ _ _ _ E) as [gap [_ [H2 R]]].
  destruct (searchFrom_parts _ _ _ _ E) as [gap' [hit [Hrs [_ [Hh Hs]]]]].
  cbn [Reach] in R. destruct R as [mid [[Hb _] _]].
  rewrite Hs, app_nil_r in Hb. destruct gap' as [|x gap'].
  - exists hit, (rest (mend m)). split; [exact Hrs|]. now rewrite Hs, Hh.
  - simpl in Hb. destruct (rev gap'); discriminate.
Qed.

Lemma cleanTaskText_head (s : text) :
  DailyPrompt.cleanTaskText s = [] \/
  exists c t,
    occurs (c :: t) s /\ DailyPrompt.isEdge c = false /\
    DailyPrompt.cleanTaskText s = Char.toUpper c :: t.
Proof.
  rewrite cleanTaskText_form.
  set (u := replaceFirst DailyPrompt.prefixRe (fun _ => []) s).
  assert (U : occurs u s).
  { subst u. unfold DailyPrompt.prefixRe. cbn [Re.seqs].
    destruct (replaceFirst_anchored
                (Re.seqs [Group 1 (Re.oneOfi
                   ["i need to"; "i have to"; "i want to"; "i should"; "i must";
                    "i gotta"; "gotta"; "need to"; "have to"; "want to";
                    "should"; "must"; "going to"; "gonna"; "will"; "i'll";
                    "i will"]%string); Re.Plus Re.space])
                (fun _ => []) s) as [E | [hit [post [E1 E2]]]].
    - cbn [Re.seqs] in E. rewrite E. apply occurs_refl.
    - cbn [Re.seqs] in E2. rewrite E2. cbn [app]. rewrite E1. apply occurs_suffix. }
  destruct (dropEndBy_prefix DailyPrompt.isEdge (dropBy DailyPrompt.isEdge u)) as [post E].
  pose proof (dropEndBy_head DailyPrompt.isEdge (dropBy DailyPrompt.isEdge u)) as Hd.
  destruct (dropEndBy DailyPrompt.isEdge (dropBy DailyPrompt.isEdge u)) as [|c t];
    [now left|].
  right. exists c, t. split; [|split; [|reflexivity]].
  - eapply occurs_trans; [|exact U].
    exists (takeBy DailyPrompt.isEdge u), post.
    rewrite (dropBy_suffix DailyPrompt.isEdge u) at 1. now rewrite E.
  - destruct (Hd c t eq_refl) as [tl' Hu]. exact (dropBy_head _ _ _ _ Hu).
Qed.




Lemma collect_tasks (segments : list text) :
  forall seen task,
    In task (DailyPrompt.collect segments seen) ->
    exists segment,
      In segment segments /\
      DailyPrompt.title task = DailyPrompt.cleanTaskText segment /\
      DailyPrompt.category task = DailyPrompt.detectCategory segment /\
      DailyPrompt.priority task = DailyPrompt.detectPriority segment /\
      DailyPrompt.selected task = true /\
      3 <= length (DailyPrompt.title task).
Proof.
  induction segments as [|segment more IH]; intros seen task; cbn [DailyPrompt.collect];
    [intros []|].
  assert (Skip : In task (DailyPrompt.collect more seen) ->
                 exists sg, In sg (segment :: more) /\
                   DailyPrompt.title task = DailyPrompt.cleanTaskText sg /\
                   DailyPrompt.category task = DailyPrompt.detectCategory sg /\
                   DailyPrompt.priority task = DailyPrompt.detectPriority sg /\
                   DailyPrompt.selected task = true /\
                   3 <= length (DailyPrompt.title task)).
  { intros H. destruct (IH _ _ H) as [sg [H1 H2]]. exists sg. split; [now right | exact H2]. }
  destruct (length (DailyPrompt.cleanTaskText segment) <? 3) eqn:L; [exact Skip|].
  destruct (existsb _ seen); [exact Skip|].
  intros [<- | H].
  - exists segment. apply Nat.ltb_ge in L. simpl. repeat split; auto.
  - destruct (IH _ _ H) as [sg [H1 H2]]. exists sg. split; [now right | exact H2].
Qed.



(** ** How many candidates there can be *)

Lemma splitLoop_length (r : regex) (fuel : nat) :
  forall sn seg rs,
    totalLength (splitLoop fuel r sn seg rs) <= length seg + length rs.
Proof.
  induction fuel as [|n IH]; intros sn seg rs; cbn [splitLoop].
  - cbn [totalLength]. rewrite length_app, length_rev. lia.
  - destruct rs as [|c t].
    + cbn [totalLength]. rewrite length_rev. lia.
    + pose proof (IH (c :: sn) (c :: seg) t) as Step. cbn [length] in *.
      destruct (matchAt r sn (c :: t)) as [m|] eqn:E; [|lia].
      assert (Cut : totalLength
                      (rev seg :: splitLoop n r (seen (mend m)) [] (rest (mend m)))
                    <= length seg + S (length t)).
      { pose proof (IH (seen (mend m)) [] (rest (mend m))) as H.
        apply matchAt_sound in E. destruct E as [E1 R].
        apply Reach_Lang in R. destruct R as [w [[A _] _]]. rewrite E1 in A. simpl in A.
        apply (f_equal (@length ascii)) in A. rewrite length_app in A.
        cbn [totalLength length] in *. rewrite length_rev. lia. }
      destruct seg as [|x seg]; [destruct (matchedText m)|]; cbn [length] in *; lia.
Qed.

Lemma split_length (r : regex) (s : text) : totalLength (split r s) <= length s.
Proof.
  unfold split. destruct s as [|c t].
  - destruct (matchAt r [] []); simpl; lia.
  - pose proof (splitLoop_length r (2 * length (c :: t) + 2) [] [] (c :: t)) as H.
    cbn [length] in *. lia.
Qed.

Lemma segmentsOf_length (input : text) :
  totalLength (DailyPrompt.segmentsOf input) <= length input.
Proof.
  unfold DailyPrompt.segmentsOf.
  pose proof (split_length DailyPrompt.delimiterRe input) as H.
  assert (F : forall l,
             totalLength (filter (fun s => 2 <? length s) (map Str.trim l))
             <= totalLength l).
  { induction l as [|p ps IH]; [simpl; lia|].
    cbn [map filter totalLength]. pose proof (trim_length p).
    destruct (2 <? length (Str.trim p)); cbn [totalLength]; lia. }
  specialize (F (split DailyPrompt.delimiterRe input)). lia.
Qed.

Lemma collect_count (segments : list text) :
  forall seen, 3 * length (DailyPrompt.collect segments seen) <= totalLength segments.
Proof.
  induction segments as [|segment more IH]; intros seen; cbn [DailyPrompt.collect];
    [simpl; lia|].
  cbn [totalLength]. pose proof (IH seen) as Skip.
  destruct (length (DailyPrompt.cleanTaskText segment) <? 3) eqn:L; [lia|].
  destruct (existsb _ seen); [lia|].
  apply Nat.ltb_ge in L.
  specialize (IH (Str.toLowerCase (DailyPrompt.cleanTaskText segment) :: seen)).
  pose proof (cleanTaskText_length segment).
  cbn [length]. lia.
Qed.

(** X9.  Every candidate takes at least three characters of the input: the
    planner returns at most a third as many candidates as the input has
    characters, and none for an input of fewer than three. *)
Theorem parseInput_count (input : text) :
  3 * length (DailyPrompt.parseInput input) <= length input.
Proof.
  unfold DailyPrompt.parseInput.
  pose proof (collect_count (DailyPrompt.segmentsOf input) []).
  pose proof (segmentsOf_length input). lia.
Qed.

(** ** The planner component *)

Lemma flipSelected_involutive (s : DailyPrompt.ParsedTask) :
  Planner.flipSelected (Planner.flipSelected s) = s.
Proof. destruct s as [t c p b]. unfold Planner.flipSelected. simpl. now rewrite negb_involutive. Qed.

Lemma mapIndexed_toggle_twice (index : nat) (l : list DailyPrompt.ParsedTask) :
  forall i,
    mapIndexed (fun s j => if j =? index then Planner.flipSelected s else s) i
      (mapIndexed (fun s j => if j =? index then Planner.flipSelected s else s) i l)
    = l.
Proof.
  induction l as [|x l IH]; intros i; simpl; [reflexivity|].
  rewrite IH. destruct (i =? index); [now rewrite flipSelected_involutive | reflexivity].
Qed.

Lemma mapIndexed_nth {A B : Type} (f : A -> nat -> B) (l : list A) :
  forall i j, nth_error (mapIndexed f i l) j =
              option_map (fun x => f x (i + j)) (nth_error l j).
Proof.
  induction l as [|x l IH]; intros i j; destruct j as [|j]; simpl; try reflexivity.
  - now rewrite Nat.add_0_r.
  - rewrite IH. now rewrite Nat.add_succ_r.
Qed.

(** X10.  Ticking a suggestion flips its check mark and nothing else: the
    other suggestions and the prompt are kept (so an index past the end
    changes nothing), and ticking the same suggestion twice restores the
    state. *)
Theorem toggleSuggestion_flips_one (index : nat) (st : Planner.State) :
  Planner.toggleSuggestion index (Planner.toggleSuggestion index st) = st /\
  Planner.prompt (Planner.toggleSuggestion index st) = Planner.prompt st /\
  (forall j,
      nth_error (Planner.suggestions (Planner.toggleSuggestion index st)) j =
      if j =? index
      then option_map Planner.flipSelected (nth_error (Planner.suggestions st) j)
      else nth_error (Planner.suggestions st) j).
Proof.
  destruct st as [e p l]. unfold Planner.toggleSuggestion, Planner.setSuggestions.
  cbn [Planner.suggestions Planner.prompt Planner.isExpanded].
  split; [now rewrite mapIndexed_toggle_twice|]. split; [reflexivity|].
  intros j. rewrite mapIndexed_nth. simpl.
  destruct (j =? index); destruct (nth_error l j); reflexivity.
Qed.









(** ** Weekday recurrences and the timeframe *)

Lemma everyWeekdaysAt_namedDay (s pre g post : text) (ds : list nat) :
  everyWeekdaysAt s pre g post ds -> namedDay s.
Proof.
  intros [ws [-> [Hws [Hd Hne]]]].
  destruct Hd as [|d sep g ds Hlt _ _]; [congruence|].
  assert (W : exists w, dayName d = w ++ lit "day" /\ w <> [] /\
                        forallb Char.isWord w = true).
  { do 7 (destruct d as [|d];
          [match goal with
           | |- exists w, dayName ?k = _ /\ _ =>
               exists (firstn (length (dayName k) - 3) (dayName k))
           end;
           split; [reflexivity | split; [vm_compute; discriminate | reflexivity]]|]).
    lia. }
  destruct W as [w [E [Hw1 Hw2]]].
  exists pre, ws, w, (sep ++ g ++ post). split; [|auto].
  rewrite E. now rewrite <- !app_assoc.
Qed.

(** X12.  A task whose recurrence names weekdays is never filed under
    monthly or once, whatever its due date: its timeframe is daily when the
    text says "daily" or "every day", and weekly otherwise. *)
Theorem weekday_recurrence_timeframe (chronoParse : text -> list Nlp.ChronoResult)
    (now : Z) (input : text) (p : RecurrencePattern) :
  recurrence (Nlp.parseNaturalLanguage chronoParse now input) = Some p ->
  days p <> None ->
  (saysDaily (Str.toLowerCase input) /\
   timeframe (Nlp.parseNaturalLanguage chronoParse now input) = daily) \/
  (~ saysDaily (Str.toLowerCase input) /\
   timeframe (Nlp.parseNaturalLanguage chronoParse now input) = weekly).
Proof.
  unfold Nlp.parseNaturalLanguage. cbn [recurrence timeframe].
  intros H Hd. rewrite H.
  assert (N : namedDay (Str.toLowerCase input)).
  { unfold Nlp.detectRecurrence in H.
    set (s := Str.toLowerCase input) in *.
    assert (Hl : lowered s) by apply lowered_toLowerCase.
    destruct (exec Nlp.everyDaysRe s) as [m|] eqn:E.
    - destruct (everyDays_sound s m Hl E) as [g [ds [_ [_ [pre [post [Hat _]]]]]]].
      eapply everyWeekdaysAt_namedDay. exact Hat.
    - apply scanPatterns_Some in H. destruct H as [row [m [_ [_ ->]]]].
      now elim Hd. }
  unfold Nlp.detectTimeframe.
  rewrite (proj2 (namedDay_test _ (lowered_toLowerCase input)) N).
  unfold saysDaily. rewrite <- !includes_occurs.
  destruct (Str.includes (lit "daily") (Str.toLowerCase input));
    [left; split; [now left | reflexivity]|].
  destruct (Str.includes (lit "every day") (Str.toLowerCase input));
    [left; split; [now right | reflexivity]|].
  right. split; [intros [? | ?]; discriminate|].
  cbn [orb]. now rewrite orb_true_r.
Qed.

Lemma weekday_recurrence_timeframe_witness :
  (saysDaily (Str.toLowerCase (lit "Gym every Monday and Friday")) /\
   timeframe (Nlp.parseNaturalLanguage (fun _ => []) 0 (lit "Gym every Monday and Friday"))
   = daily) \/
  (~ saysDaily (Str.toLowerCase (lit "Gym every Monday and Friday")) /\
   timeframe (Nlp.parseNaturalLanguage (fun _ => []) 0 (lit "Gym every Monday and Friday"))
   = weekly).
Proof.
  apply (weekday_recurrence_timeframe (fun _ => []) 0 (lit "Gym every Monday and Friday")
           {| type := RWeekly; days := Some [1; 5]%Z; dayOfMonth := None;
              interval := Some (Num 1) |}).
  - vm_compute. reflexivity.
  - discriminate.
Defined.

(** ** The due time *)

Lemma paddedOk_twoDigits (z : Z) :
  paddedOk z = true -> twoDigits z (Str.padStart2 (Str.ofZ z)).
Proof.
  unfold paddedOk, twoDigits.
  destruct (Str.padStart2 (Str.ofZ z)) as [|a [|b [|c l]]]; try discriminate.
  rewrite !andb_true_iff. intros [[Ha Hb] H].
  destruct (Number.parseInt [a; b]) as [|n]; [discriminate|].
  apply Z.eqb_eq in H. subst n. exists a, b. auto.
Qed.

Lemma below_range (n : nat) (z : Z) :
  (0 <= z < Z.of_nat n)%Z -> In z (map Z.of_nat (seq 0 n)).
Proof.
  intros H. apply in_map_iff. exists (Z.to_nat z). split; [lia|].
  apply in_seq. lia.
Qed.

Lemma padStart2_twoDigits (z : Z) :
  (0 <= z < 60)%Z -> twoDigits z (Str.padStart2 (Str.ofZ z)).
Proof.
  intros H. apply paddedOk_twoDigits.
  assert (A : forallb paddedOk (map Z.of_nat (seq 0 60)) = true) by (vm_compute; reflexivity).
  rewrite forallb_forall in A. apply A. now apply (below_range 60).
Qed.

(** X13.  When the date parser is certain of the hour and reports an hour
    of the day and a minute of the hour (a missing component counting as
    0), the due time is five characters, two digits, a colon and two
    digits, and reading the two fields back as numbers gives the hour and
    the minute. *)
Theorem dueTime_format (chronoParse : text -> list Nlp.ChronoResult) (now : Z)
    (input : text) (result : Nlp.ChronoResult) (more : list Nlp.ChronoResult) :
  chronoParse input = result :: more ->
  Nlp.hourCertain result = true ->
  (0 <= Nlp.orZero (Nlp.startHour result) < 24)%Z ->
  (0 <= Nlp.orZero (Nlp.startMinute result) < 60)%Z ->
  exists hh mm,
    dueTime (Nlp.parseNaturalLanguage chronoParse now input) = Some (hh ++ lit ":" ++ mm) /\
    twoDigits (Nlp.orZero (Nlp.startHour result)) hh /\
    twoDigits (Nlp.orZero (Nlp.startMinute result)) mm.
Proof.
  intros Hp Hc Hh Hm. unfold Nlp.parseNaturalLanguage. cbn [dueTime].
  rewrite Hp, Hc. eexists _, _. split; [reflexivity|].
  split; apply padStart2_twoDigits; lia.
Qed.

Lemma dueTime_format_witness :
  exists hh mm,
    dueTime (Nlp.parseNaturalLanguage
               (fun _ => [{| Nlp.startDate := 0; Nlp.hourCertain := true;
                             Nlp.startHour := Some 9%Z; Nlp.startMinute := None |}])
               0 (lit "standup at 9am")) = Some (hh ++ lit ":" ++ mm) /\
    twoDigits 9 hh /\ twoDigits 0 mm.
Proof.
  apply (dueTime_format
           (fun _ => [{| Nlp.startDate := 0; Nlp.hourCertain := true;
                         Nlp.startHour := Some 9%Z; Nlp.startMinute := None |}])
           0 (lit "standup at 9am")
           {| Nlp.startDate := 0; Nlp.hourCertain := true;
              Nlp.startHour := Some 9%Z; Nlp.startMinute := None |} []).
  - reflexivity.
  - reflexivity.
  - simpl. lia.
  - simpl. lia.
Defined.

(** ** The shopping list's shelves *)

(** X14.  [autoDetectCategory] tries the shelves in a fixed order on whole
    words of the lower-cased name: the first shelf one of whose words stands
    in the name as a whole word is the answer, and a name with no such word
    goes to "other". *)
Theorem autoDetectCategory_first_shelf (itemName : text) :
  (exists before shelf after,
      shelves = before ++ shelf :: after /\
      (forall e, In e before -> ~ wholeWord (snd e) (Str.toLowerCase itemName)) /\
      wholeWord (snd shelf) (Str.toLowerCase itemName) /\
      ShoppingList.autoDetectCategory itemName = fst shelf) \/
  ((forall e, In e shelves -> ~ wholeWord (snd e) (Str.toLowerCase itemName)) /\
   ShoppingList.autoDetectCategory itemName = "other"%string).
Proof.
  unfold ShoppingList.autoDetectCategory. cbv zeta.
  set (s := Str.toLowerCase itemName).
  change ShoppingList.words with wholeWordRe.
  pose proof (test_wholeWord ShoppingList.produceWords s eq_refl) as T1.
  pose proof (test_wholeWord ShoppingList.dairyWords s eq_refl) as T2.
  pose proof (test_wholeWord ShoppingList.meatWords s eq_refl) as T3.
  pose proof (test_wholeWord ShoppingList.bakeryWords s eq_refl) as T4.
  pose proof (test_wholeWord ShoppingList.frozenWords s eq_refl) as T5.
  pose proof (test_wholeWord ShoppingList.pantryWords s eq_refl) as T6.
  pose proof (test_wholeWord ShoppingList.beverageWords s eq_refl) as T7.
  pose proof (test_wholeWord ShoppingList.householdWords s eq_refl) as T8.
  assert (Found : forall k,
             (forall e, In e (firstn k shelves) -> ~ wholeWord (snd e) s) ->
             forall name ws, nth_error shelves k = Some (name, ws) ->
             wholeWord ws s ->
             exists before shelf after,
               shelves = before ++ shelf :: after /\
               (forall e, In e before -> ~ wholeWord (snd e) s) /\
               wholeWord (snd shelf) s /\ name = fst shelf).
  { intros k Hb name ws Hk Hw.
    exists (firstn k shelves), (name, ws), (skipn (S k) shelves).
    split; [|auto].
    rewrite <- (firstn_skipn k shelves) at 1. f_equal.
    clear - Hk. revert Hk. generalize shelves. induction k as [|k IH]; intros l Hk.
    - destruct l; [discriminate|]. now injection Hk as ->.
    - destruct l; [discriminate|]. simpl. now apply IH. }
  destruct (test (wholeWordRe ShoppingList.produceWords) s) eqn:E1.
  { left. eapply (Found 0); [intros e [] | reflexivity | now apply T1]. }
  assert (N1 : ~ wholeWord ShoppingList.produceWords s)
    by (intros X; apply T1 in X; discriminate).
  destruct (test (wholeWordRe ShoppingList.dairyWords) s) eqn:E2.
  { left. eapply (Found 1); [|reflexivity | now apply T2].
    intros e He. repeat (destruct He as [<- | He]; [assumption|]). destruct He. }
  assert (N2 : ~ wholeWord ShoppingList.dairyWords s)
    by (intros X; apply T2 in X; discriminate).
  destruct (test (wholeWordRe ShoppingList.meatWords) s) eqn:E3.
  { left. eapply (Found 2); [|reflexivity | now apply T3].
    intros e He. repeat (destruct He as [<- | He]; [assumption|]). destruct He. }
  assert (N3 : ~ wholeWord ShoppingList.meatWords s)
    by (intros X; apply T3 in X; discriminate).
  destruct (test (wholeWordRe ShoppingList.bakeryWords) s) eqn:E4.
  { left. eapply (Found 3); [|reflexivity | now apply T4].
    intros e He. repeat (destruct He as [<- | He]; [assumption|]). destruct He. }
  assert (N4 : ~ wholeWord ShoppingList.bakeryWords s)
    by (intros X; apply T4 in X; discriminate).
  destruct (test (wholeWordRe ShoppingList.frozenWords) s) eqn:E5.
  { left. eapply (Found 4); [|reflexivity | now apply T5].
    intros e He. repeat (destruct He as [<- | He]; [assumption|]). destruct He. }
  assert (N5 : ~ wholeWord ShoppingList.frozenWords s)
    by (intros X; apply T5 in X; discriminate).
  destruct (test (wholeWordRe ShoppingList.pantryWords) s) eqn:E6.
  { left. eapply (Found 5); [|reflexivity | now apply T6].
    intros e He. repeat (destruct He as [<- | He]; [assumption|]). destruct He. }
  assert (N6 : ~ wholeWord ShoppingList.pantryWords s)
    by (intros X; apply T6 in X; discriminate).
  destruct (test (wholeWordRe ShoppingList.beverageWords) s) eqn:E7.
  { left. eapply (Found 6); [|reflexivity | now apply T7].
    intros e He. repeat (destruct He as [<- | He]; [assumption|]). destruct He. }
  assert (N7 : ~ wholeWord ShoppingList.beverageWords s)
    by (intros X; apply T7 in X; discriminate).
  destruct (test (wholeWordRe ShoppingList.householdWords) s) eqn:E8.
  { left. eapply (Found 7); [|reflexivity | now apply T8].
    intros e He. repeat (destruct He as [<- | He]; [assumption|]). destruct He. }
  assert (N8 : ~ wholeWord ShoppingList.householdWords s)
    by (intros X; apply T8 in X; discriminate).
  right. split; [|reflexivity].
  intros e He. repeat (destruct He as [<- | He]; [assumption|]). destruct He.
Qed.

(** ** The order of tasks in a category *)

(** X15.  The comparator that sorts the tasks of a category is a consistent
    ordering, as [sort] requires: swapping the arguments swaps the sign, two
    tasks compare equal exactly when they agree on completion, priority and
    due date, and the order is transitive. *)
Theorem compare_consistent (a b c : Task.t) :
  (CategorySection.compare a b < 0 <-> 0 < CategorySection.compare b a)%Z /\
  (CategorySection.compare a b = 0%Z <-> sortKey a = sortKey b) /\
  (CategorySection.compare a b <= 0 -> CategorySection.compare b c <= 0 ->
   CategorySection.compare a c <= 0)%Z.
Proof.
  unfold CategorySection.compare, sortKey.
  destruct (Task.completed a), (Task.completed b), (Task.priority a), (Task.priority b),
    (Task.dueDate a) as [x|], (Task.dueDate b) as [y|];
    cbn [Bool.eqb negb samePriority CategorySection.priorityOrder];
    (split; [lia|]);
    (split; [split; intros H;
                    first [ discriminate H | lia | reflexivity
                          | assert (x = y) by lia; subst; reflexivity
                          | injection H; intros; lia ]|]);
    destruct (Task.completed c), (Task.priority c), (Task.dueDate c) as [z|];
    cbn [Bool.eqb negb samePriority CategorySection.priorityOrder]; lia.
Qed.

(** ** The local task store *)

Lemma mapGet_Some (i : text) (prev : list Task.t) (t : Task.t) :
  UseTasks.mapGet i (map (fun t => (Task.id t, t)) prev) = Some t ->
  In t prev /\ Task.id t = i.
Proof.
  induction prev as [|x l IH]; cbn [map UseTasks.mapGet]; [discriminate|].
  destruct (UseTasks.mapGet i (map (fun t => (Task.id t, t)) l)) as [later|].
  - intros [= <-]. destruct (IH eq_refl). split; [now right | assumption].
  - destruct (Str.eqb (Task.id x) i) eqn:E; [|discriminate].
    intros [= <-]. apply Str_eqb_eq in E. split; [now left | assumption].
Qed.

Lemma mapGet_None (i : text) (prev : list Task.t) :
  UseTasks.mapGet i (map (fun t => (Task.id t, t)) prev) = None ->
  ~ In i (map Task.id prev).
Proof.
  induction prev as [|x l IH]; cbn [map UseTasks.mapGet]; [intros _ []|].
  destruct (UseTasks.mapGet i (map (fun t => (Task.id t, t)) l)) as [later|];
    [discriminate|].
  destruct (Str.eqb (Task.id x) i) eqn:E; [discriminate|].
  intros _ [H | H]; [|now apply IH].
  apply Str_eqb_eq in H. congruence.
Qed.

(** With distinct identifiers the map holds, for an identifier, the one
    task that has it. *)
Lemma mapGet_filter (i : text) (prev : list Task.t) :
  NoDup (map Task.id prev) ->
  filter (fun t => Str.eqb (Task.id t) i) prev =
  match UseTasks.mapGet i (map (fun t => (Task.id t, t)) prev) with
  | Some t => [t]
  | None => []
  end.
Proof.
  induction prev as [|x l IH]; cbn [map filter UseTasks.mapGet]; [reflexivity|].
  intros H. inversion H as [|? ? Hx Hl]; subst. specialize (IH Hl).
  destruct (Str.eqb (Task.id x) i) eqn:E.
  - apply Str_eqb_eq in E. subst i.
    destruct (UseTasks.mapGet (Task.id x) (map (fun t => (Task.id t, t)) l)) as [t|] eqn:G.
    + apply mapGet_Some in G. destruct G as [G1 G2]. elim Hx.
      rewrite <- G2. now apply in_map.
    + now rewrite IH.
  - rewrite IH. now destruct (UseTasks.mapGet i _).
Qed.

Lemma filter_split {A : Type} (p : A -> bool) (l : list A) :
  Permutation l (filter p l ++ filter (fun x => negb (p x)) l).
Proof.
  induction l as [|x l IH]; simpl; [constructor|].
  destruct (p x); simpl.
  - now constructor.
  - now apply Permutation_cons_app.
Qed.

Lemma filter_swap {A : Type} (p q : A -> bool) (l : list A) :
  filter p (filter q l) = filter q (filter p l).
Proof.
  rewrite !filter_filter. apply filter_ext. intros x. apply andb_comm.
Qed.

Lemma filter_all {A : Type} (p : A -> bool) (l : list A) :
  (forall x, In x l -> p x = true) -> filter p l = l.
Proof.
  induction l as [|x l IH]; simpl; intros H; [reflexivity|].
  rewrite (H x (or_introl eq_refl)). f_equal. apply IH. intros y Hy. apply H. now right.
Qed.

Lemma existsb_eqb_In (i : text) (l : list text) :
  existsb (Str.eqb i) l = true <-> In i l.
Proof.
  rewrite existsb_exists. split.
  - intros [x [H E]]. apply Str_eqb_eq in E. now subst.
  - intros H. exists i. split; [assumption | now apply Str_eqb_eq].
Qed.

Lemma reorder_permutation (taskIds : list text) (prev : list Task.t) :
  NoDup taskIds -> NoDup (map Task.id prev) ->
  Permutation (UseTasks.reorderTasks taskIds prev) prev.
Proof.
  intros Hi Hp. unfold UseTasks.reorderTasks. cbv zeta.
  set (g := fun id => match UseTasks.mapGet id (map (fun t => (Task.id t, t)) prev) with
                      | Some t => [t] | None => [] end).
  induction Hi as [|i ids Hni Hids IH]; cbn [flat_map existsb].
  - cbn [app]. rewrite filter_all by (intros; reflexivity). apply Permutation_refl.
  - set (rest := filter (fun t => negb (existsb (Str.eqb (Task.id t)) ids)) prev) in *.
    assert (K : Permutation rest
                  (g i ++ filter (fun t => negb (Str.eqb (Task.id t) i
                                                 || existsb (Str.eqb (Task.id t)) ids)) prev)).
    { eapply Permutation_trans; [apply (filter_split (fun t => Str.eqb (Task.id t) i))|].
      apply Permutation_app.
      - subst rest. rewrite filter_swap.
        rewrite (mapGet_filter i prev Hp). fold (g i).
        rewrite filter_all; [apply Permutation_refl|].
        intros t Ht. subst g. cbv beta in Ht.
        destruct (UseTasks.mapGet i _) as [t'|] eqn:G; [|destruct Ht].
        destruct Ht as [<- | []]. apply mapGet_Some in G. destruct G as [_ G].
        rewrite G. destruct (existsb (Str.eqb i) ids) eqn:X; [|reflexivity].
        apply existsb_eqb_In in X. contradiction.
      - subst rest. rewrite filter_filter.
        erewrite filter_ext; [apply Permutation_refl|].
        intros t. cbv beta. rewrite negb_orb. apply andb_comm. }
    rewrite <- app_assoc.
    eapply Permutation_trans; [apply Permutation_app_swap_app|].
    eapply Permutation_trans; [|exact IH].
    apply Permutation_app_head. now apply Permutation_sym.
Qed.

Lemma reorder_listed (taskIds : list text) (prev : list Task.t) :
  map Task.id
    (flat_map (fun id => match UseTasks.mapGet id (map (fun t => (Task.id t, t)) prev) with
                         | Some t => [t] | None => [] end) taskIds) =
  filter (fun id => existsb (Str.eqb id) (map Task.id prev)) taskIds.
Proof.
  induction taskIds as [|i ids IH]; cbn [flat_map filter]; [reflexivity|].
  rewrite map_app, IH.
  destruct (UseTasks.mapGet i _) as [t|] eqn:G.
  - apply mapGet_Some in G. destruct G as [G1 G2].
    assert (X : existsb (Str.eqb i) (map Task.id prev) = true).
    { apply existsb_eqb_In. rewrite <- G2. now apply in_map. }
    rewrite X. simpl. now rewrite G2.
  - apply mapGet_None in G.
    destruct (existsb (Str.eqb i) (map Task.id prev)) eqn:X; [|reflexivity].
    apply existsb_eqb_In in X. contradiction.
Qed.

(** X16.  Reordering loses and duplicates nothing: when the identifiers
    given are distinct and the tasks have distinct identifiers, the new list
    is a rearrangement of the old one, made of the tasks listed (those that
    exist, in the order given) followed by the tasks not listed, in their
    old order. *)
Theorem reorderTasks_rearranges (taskIds : list text) (prev : list Task.t) :
  NoDup taskIds -> NoDup (map Task.id prev) ->
  Permutation (UseTasks.reorderTasks taskIds prev) prev /\
  exists listed,
    UseTasks.reorderTasks taskIds prev =
    listed ++ filter (fun t => negb (existsb (Str.eqb (Task.id t)) taskIds)) prev /\
    map Task.id listed =
    filter (fun id => existsb (Str.eqb id) (map Task.id prev)) taskIds.
Proof.
  intros Hi Hp. split; [now apply reorder_permutation|].
  eexists. split; [reflexivity|]. apply reorder_listed.
Qed.

Lemma reorderTasks_rearranges_witness :
  Permutation
    (UseTasks.reorderTasks [lit "b"; lit "a"]
       [UseTasks.stored (lit "u") 0 (lit "a")
          (Planner.taskOf 0 {| DailyPrompt.title := lit "Call mom";
                               DailyPrompt.category := social;
                               DailyPrompt.priority := medium;
                               DailyPrompt.selected := true |});
        UseTasks.stored (lit "u") 1 (lit "b")
          (Planner.taskOf 1 {| DailyPrompt.title := lit "Pay rent";
                               DailyPrompt.category := finance;
                               DailyPrompt.priority := medium;
                               DailyPrompt.selected := true |})])
    [UseTasks.stored (lit "u") 0 (lit "a")
       (Planner.taskOf 0 {| DailyPrompt.title := lit "Call mom";
                            DailyPrompt.category := social;
                            DailyPrompt.priority := medium;
                            DailyPrompt.selected := true |});
     UseTasks.stored (lit "u") 1 (lit "b")
       (Planner.taskOf 1 {| DailyPrompt.title := lit "Pay rent";
                            DailyPrompt.category := finance;
                            DailyPrompt.priority := medium;
                            DailyPrompt.selected := true |})].
Proof.
  apply (reorderTasks_rearranges [lit "b"; lit "a"]).
  - repeat constructor; simpl; intuition discriminate.
  - repeat constructor; simpl; intuition discriminate.
Defined.

(** ** From the planner to the store *)

Lemma addMultiple_prepends (c : ascii) (uid : text) (env : nat -> App.Stamp)
    (newTasks : list TaskData.t) :
  forall round prev,
    App.handleAddMultipleTasks (Some (c :: uid)) env round newTasks prev =
    rev (mapIndexed (storedInRound (c :: uid) env) round newTasks) ++ prev.
Proof.
  induction newTasks as [|task more IH]; intros round prev;
    cbn [App.handleAddMultipleTasks mapIndexed rev]; [reflexivity|].
  rewrite IH. cbn [UseTasks.addTask]. now rewrite <- app_assoc.
Qed.


(** X17.  [handleAddMultipleTasks] puts the new tasks on top of the local
    store, the last one first, each with its data, the due date defaulting
    to the clock, and leaves the tasks already there in place; without a
    user id (absent or empty) the store is unchanged. *)
Theorem handleAddMultipleTasks_newest_first (userId : option text)
    (env : nat -> App.Stamp) (newTasks : list TaskData.t) (prev : list Task.t) :
  App.handleAddMultipleTasks userId env 0 newTasks prev =
  match userId with
  | Some ((_ :: _) as uid) => rev (mapIndexed (storedInRound uid env) 0 newTasks) ++ prev
  | _ => prev
  end.
Proof.
  destruct userId as [[|c uid]|].
  - revert prev. generalize 0. induction newTasks as [|t l IH]; intros n prev;
      [reflexivity | apply IH].
  - apply addMultiple_prepends.
  - revert prev. generalize 0. induction newTasks as [|t l IH]; intros n prev;
      [reflexivity | apply IH].
Qed.



(** ** What a recurrence needs *)

Lemma leading_word (w : string) (rs : list regex) (s : text) :
  lowered s -> lowered (lit w) -> plain (Re.seqs (Re.wordi w :: rs)) = true ->
  test (Re.seqs (Re.wordi w :: rs)) s = true -> occurs (lit w) s.
Proof.
  intros Hl Hw Hp H. apply test_iff in H; [|exact Hp].
  destruct H as [pre [mid [post [-> L]]]].
  apply Lang_seqs_cons in L. destruct L as [w1 [r1 [-> [L1 _]]]].
  apply lowered_app in Hl. destruct Hl as [_ Hl]. apply lowered_app in Hl.
  destruct Hl as [Hl _]. apply lowered_app in Hl. destruct Hl as [H1 _].
  apply Lang_wordi, lowered_ci_eq in L1; [|exact H1 | exact Hw]. subst w1.
  exists pre, (r1 ++ post). now rewrite <- !app_assoc.
Qed.

(** X19.  No recurrence without one of its words: whenever
    [detectRecurrence] returns a pattern, the lower-cased text contains
    "every", "daily", "weekly" or "monthly". *)
Theorem detectRecurrence_needs_keyword (text_ : text) (p : RecurrencePattern) :
  Nlp.detectRecurrence text_ = Some p ->
  hits recurrenceWords (Str.toLowerCase text_).
Proof.
  unfold Nlp.detectRecurrence.
  set (s := Str.toLowerCase text_).
  assert (Hl : lowered s) by apply lowered_toLowerCase.
  assert (Every : occurs (lit "every") s -> hits recurrenceWords s).
  { intros H. exists (lit "every"). split; [now left | exact H]. }
  destruct (exec Nlp.everyDaysRe s) as [m|] eqn:E.
  - intros _. apply Every.
    destruct (everyDays_sound s m Hl E) as [g [ds [_ [_ [pre [post [[ws [Hs _]] _]]]]]]].
    exists pre, (ws ++ g ++ post). exact Hs.
  - intros H. apply scanPatterns_Some in H.
    destruct H as [row [m [Hin [Hm _]]]]. apply exec_test in Hm.
    unfold Nlp.recurrencePatterns in Hin.
    repeat (destruct Hin as [<- | Hin]; [cbn [Nlp.pattern] in Hm|]); try contradiction.
    + apply Every. apply (fun Hp => leading_word "every" _ s Hl eq_refl Hp Hm); reflexivity.
    + exists (lit "daily"). split; [right; now left|].
      apply (fun Hp => leading_word "daily" [] s Hl eq_refl Hp Hm); reflexivity.
    + apply Every. apply (fun Hp => leading_word "every" _ s Hl eq_refl Hp Hm); reflexivity.
    + exists (lit "weekly"). split; [right; right; now left|].
      apply (fun Hp => leading_word "weekly" [] s Hl eq_refl Hp Hm); reflexivity.
    + apply Every. apply (fun Hp => leading_word "every" _ s Hl eq_refl Hp Hm); reflexivity.
    + exists (lit "monthly"). split; [right; right; right; now left|].
      apply (fun Hp => leading_word "monthly" [] s Hl eq_refl Hp Hm); reflexivity.
    + apply Every.
      destruct (counted_row_phrase "day" s Hl (or_introl eq_refl) Hm)
        as [pre [w1 [d [w2 [u [post [Hs _]]]]]]].
      exists pre, (w1 ++ d ++ w2 ++ u ++ post). exact Hs.
    + apply Every.
      destruct (counted_row_phrase "week" s Hl (or_intror eq_refl) Hm)
        as [pre [w1 [d [w2 [u [post [Hs _]]]]]]].
      exists pre, (w1 ++ d ++ w2 ++ u ++ post). exact Hs.
Qed.

Lemma detectRecurrence_needs_keyword_witness :
  hits recurrenceWords (Str.toLowerCase (lit "Water plants every 3 days")).
Proof.
  apply (detectRecurrence_needs_keyword (lit "Water plants every 3 days")
           {| type := RDaily; days := None; dayOfMonth := None;
              interval := Some (Num 3) |}).
  vm_compute. reflexivity.
Defined.

(** ** Titles without breaks *)

Lemma Lang_nullable (r : regex) : Lang r [] -> nullable r = true.
Proof.
  induction r as [|p|a IHa b IHb|a IHa b IHb|a IHa|i a IHa| | |]; simpl; auto.
  - intros [c [H _]]. discriminate.
  - intros [w1 [w2 [H [H1 H2]]]]. symmetry in H. apply app_eq_nil in H.
    destruct H as [-> ->]. now rewrite IHa, IHb.
  - intros [H | H]; [rewrite IHa | rewrite IHb]; auto using orb_true_r.
Qed.

Lemma delimiter_at_break (c : ascii) (sn t : text) :
  isBreak c = true ->
  exists m, matchAt DailyPrompt.delimiterRe sn (c :: t) = Some m /\ matchedText m <> [].
Proof.
  intros Hc.
  assert (L : Lang DailyPrompt.delimiterRe [c]).
  { unfold isBreak in Hc. apply orb_true_iff in Hc. destruct Hc as [Hc | Hc];
      [apply orb_true_iff in Hc; destruct Hc as [Hc | Hc]|];
      apply Ascii.eqb_eq in Hc; subst c.
    - left. exists [","%char], []. split; [reflexivity|]. split.
      + exists ","%char. split; reflexivity.
      + exists [], []. split; [reflexivity|]. split; [constructor | now right].
    - right. right. right. right. left.
      exists [";"%char], []. split; [reflexivity|]. split.
      + exists ";"%char. split; reflexivity.
      + constructor.
    - right. right. right. left.
      exists ["010"%char], []. split; [reflexivity|]. split.
      + exists "010"%char. split; reflexivity.
      + constructor. }
  destruct (Lang_Reach DailyPrompt.delimiterRe eq_refl [c] (MState sn (c :: t) []) L t eq_refl)
    as [st' [R _]].
  destruct (matchAt_complete _ _ _ _ R) as [m Hm]. exists m. split; [exact Hm|].
  apply matchAt_sound in Hm. destruct Hm as [_ Rm].
  apply Reach_Lang in Rm. destruct Rm as [w [A Lw]].
  unfold matchedText. rewrite (advances_consumed _ _ _ A).
  intros ->. apply Lang_nullable in Lw. discriminate.
Qed.

Lemma unbroken_app (a b : text) : unbroken (a ++ b) <-> unbroken a /\ unbroken b.
Proof. unfold unbroken. now rewrite forallb_app, andb_true_iff. Qed.

Lemma unbroken_occurs (a b : text) : occurs a b -> unbroken b -> unbroken a.
Proof.
  intros [pre [post ->]] H. apply unbroken_app in H. destruct H as [_ H].
  now apply unbroken_app in H.
Qed.

Lemma unbroken_rev (s : text) : unbroken s -> unbroken (rev s).
Proof.
  unfold unbroken. rewrite !forallb_forall. intros H c Hc. apply H. now apply in_rev.
Qed.

Lemma splitLoop_unbroken (fuel : nat) :
  forall sn seg rs,
    length rs < fuel -> unbroken seg ->
    Forall unbroken (splitLoop fuel DailyPrompt.delimiterRe sn seg rs).
Proof.
  induction fuel as [|n IH]; intros sn seg rs Hlen Hseg; [lia|].
  cbn [splitLoop]. destruct rs as [|c t].
  - constructor; [now apply unbroken_rev | constructor].
  - cbn [length] in Hlen.
    destruct (isBreak c) eqn:B.
    + destruct (delimiter_at_break c sn t B) as [m [Hm Hne]]. rewrite Hm.
      assert (Cut : Forall unbroken
                      (rev seg :: splitLoop n DailyPrompt.delimiterRe (seen (mend m)) []
                                    (rest (mend m)))).
      { constructor; [now apply unbroken_rev|]. apply IH; [|reflexivity].
        apply matchAt_sound in Hm. destruct Hm as [E1 R].
        apply Reach_Lang in R. destruct R as [w [A _]].
        pose proof A as [A1 _]. rewrite E1 in A1. simpl in A1.
        unfold matchedText in Hne. rewrite (advances_consumed _ _ _ A) in Hne.
        apply (f_equal (@length ascii)) in A1. rewrite length_app in A1. simpl in A1.
        destruct w; [congruence|]. simpl in A1. lia. }
      destruct seg as [|x seg]; [|exact Cut].
      destruct (matchedText m); [congruence | exact Cut].
    + assert (Step : Forall unbroken
                       (splitLoop n DailyPrompt.delimiterRe (c :: sn) (c :: seg) t)).
      { apply IH; [lia|]. unfold unbroken in *. cbn [forallb]. now rewrite B, Hseg. }
      destruct (matchAt DailyPrompt.delimiterRe sn (c :: t)) as [m|] eqn:Hm; [|exact Step].
      assert (Cut : Forall unbroken
                      (rev seg :: splitLoop n DailyPrompt.delimiterRe (seen (mend m)) []
                                    (rest (mend m)))).
      { constructor; [now apply unbroken_rev|]. apply IH; [|reflexivity].
        apply matchAt_sound in Hm. destruct Hm as [E1 R].
        apply Reach_Lang in R. destruct R as [w [[A1 _] Lw]].
        rewrite E1 in A1. simpl in A1.
        apply (f_equal (@length ascii)) in A1. rewrite length_app in A1. simpl in A1.
        destruct w; [apply Lang_nullable in Lw; discriminate|]. simpl in A1. lia. }
      destruct seg as [|x seg]; [|exact Cut].
      destruct (matchedText m); [exact Step | exact Cut].
Qed.

Lemma segmentsOf_unbroken (input segment : text) :
  In segment (DailyPrompt.segmentsOf input) -> unbroken segment.
Proof.
  unfold DailyPrompt.segmentsOf. rewrite filter_In, in_map_iff.
  intros [[piece [<- H]] _]. apply (unbroken_occurs _ piece (trim_occurs piece)).
  unfold split in H. destruct input as [|c t].
  - destruct (matchAt _ [] []); [destruct H|]. destruct H as [<- | []]. reflexivity.
  - pose proof (splitLoop_unbroken (2 * length (c :: t) + 2) [] [] (c :: t)) as F.
    rewrite Forall_forall in F. apply F; [lia | reflexivity | exact H].
Qed.

Lemma isBreak_toUpper (c : ascii) : isBreak (Char.toUpper c) = isBreak c.
Proof. destruct c as [[] [] [] [] [] [] [] []]; reflexivity. Qed.

(** X20.  No candidate title contains a comma, a semicolon or a line feed:
    the input is always cut at these characters. *)
Theorem parseInput_titles_unbroken (input : text) (task : DailyPrompt.ParsedTask) :
  In task (DailyPrompt.parseInput input) ->
  forall c, In c (DailyPrompt.title task) ->
            c <> ","%char /\ c <> ";"%char /\ c <> "010"%char.
Proof.
  unfold DailyPrompt.parseInput. intros H.
  destruct (collect_tasks _ _ _ H) as [segment [H1 [H2 _]]].
  apply segmentsOf_unbroken in H1.
  assert (U : unbroken (DailyPrompt.title task)).
  { rewrite H2. destruct (cleanTaskText_head segment) as [-> | [c [t [O [_ ->]]]]];
      [reflexivity|].
    pose proof (unbroken_occurs _ _ O H1) as V. unfold unbroken in *.
    cbn [forallb] in *. now rewrite isBreak_toUpper. }
  intros c Hc. unfold unbroken in U. rewrite forallb_forall in U.
  specialize (U c Hc). apply negb_true_iff in U. unfold isBreak in U.
  apply orb_false_iff in U. destruct U as [U U3].
  apply orb_false_iff in U. destruct U as [U1 U2].
  repeat split; intros ->; discriminate.
Qed.

Lemma parseInput_titles_unbroken_witness :
  "r"%char <> ","%char /\ "r"%char <> ";"%char /\ "r"%char <> "010"%char.
Proof.
  apply (parseInput_titles_unbroken (lit "call mom; pay rent, walk")
           {| DailyPrompt.title := lit "Pay rent"; DailyPrompt.category := finance;
              DailyPrompt.priority := medium; DailyPrompt.selected := true |}).
  - vm_compute. right. left. reflexivity.
  - simpl. auto 10.
Defined.
